(* ===== verification/_CoqProject ===== *)
-Q . S2P
Prelude.v
GoString.v
GoFloat.v
Csv.v
CsvRoundTrip.v
Overpass.v
Matcher.v
GoSlice.v
Loader.v
Driver.v
