(* ===== verification/Prelude.v ===== *)
(** * kelurahan-mapper: a verification development of the Go batch job

    This header documents the whole development.  The program
    ([src/main.go], [src/db/db.go]) enriches the rows of a CSV file of
    geocoded places with the identifier and the name of the
    administrative district (kelurahan) that contains each place:

    - [db.ConnectDb] (src/db/db.go) opens a PostgreSQL pool and pings it;
      [main] then runs [SELECT * FROM daftar_kelurahan] and scans every row
      into a [kelurahanDb {id, name}] (the reference table, [resultRows]);
    - [main] reads "public places.csv" with [csv.Reader.ReadAll];
    - for every data row (index 0, the header, is skipped after the
      progress bar is advanced) it parses columns 13 and 14 with
      [strconv.ParseFloat], formats the Overpass query template with them
      (the verb [%f] of [fmt.Sprintf]),
      and calls [fetchOverpassData] (POST of ["data=" ++ query] by
      [sendOverpassRequest], read of the body, [json.Unmarshal]);
    - it scans the response's elements: for the first element whose tag
      [admin_level] is ["7"] and whose tag [name] matches a reference
      name (after [strings.ToLower] and removal of every ' ' with
      [strings.ReplaceAll]), it appends the reference's id (as
      [strconv.Itoa]) and name to the row, through
      [modifiedRecords[i] = append(record, ...)], where [modifiedRecords]
      aliases [records];
    - it writes all rows to "public places_mapped.csv" with
      [csv.Writer.WriteAll].
    Every error is printed and ends [main] with a normal return (exit code
    0); an index out of range on a short row is a Go runtime panic.

    Files (in dependency order, as [_CoqProject] lists them):
    - [Prelude]: this header; the [go_scope] notation [let* x := m in k];
      the outcome of a Go computation ([Cont a], or [Stop x] when [main]
      ends early); the state-and-exit monad [M St Ex A := St -> outcome Ex
      A * St] with [ret], [bind], [stop], [get], [modify], and the two loop
      forms of the code: [for_range] ([for i, r := range records]) and
      [for_break] (a [range] loop whose body may [break]); their rewrite
      lemmas in the [go_rw] database; Ltac helpers and lemmas on lists.
    - [GoString] (Module [GoString]): the string functions the matcher
      calls, translated from Go's standard library: [ToLower] (its ASCII
      fast path, and [strings.Map] over UTF-8 with [unicode.ToLower] for
      the other strings), [Index], [Count], [Replace]/[ReplaceAll] (Go's
      [Count]-then-[Index]-and-copy loop), the matching key [norm] of
      src/main.go:142, and [Itoa] with the length of its decimal text.
    - [GoFloat] (Module [GoFloat]): Go's [float64] (signed zero, finite
      [m * 2^e], infinity, NaN) and the two library functions the loop
      calls on it: [strconv.ParseFloat(s, 64)] with Go's syntax
      ([special], [readFloat] and its loops, [underscoreOK]), its syntax
      and range errors, and the value rounded to the nearest binary64,
      ties to even ([round]); and [%f] ([fmt_f]: six decimals rounded to
      nearest even, fmt's signs, ["+Inf"], ["NaN"]).
    - [Csv] (Module [Csv]): Go's encoding/csv as the program uses it
      (src/main.go:105-108 and 164-165, default settings), translated
      from the library's reader.go and writer.go: [readLine],
      [parse_step] (one round of [readRecord]'s [parseField] loop),
      [readRecord], [ReadAll] on the bytes of a file, and
      [fieldNeedsQuotes], the quoting loop, [Write], [WriteAll].
    - [CsvRoundTrip] (Module [CsvRoundTrip]): the reader on what the
      writer wrote.
    - [Overpass] (Module [Overpass]): the Go structs of src/main.go:24-60
      as Records, the query template of src/main.go:93-98 ([fill_query])
      and its formatting ([KelurahanQuery], with [GoFloat.fmt_f]),
      [sendOverpassRequest] and [fetchOverpassData] over the interface
      [Transport] (the HTTP client and the JSON decoder the code calls).
    - [Matcher] (Module [Matcher]): [slices.IndexFunc], the element loop
      of src/main.go:139-151 in [M] (Section [ElementLoop], with the match
      action and the index panic as Section variables), the reference
      matcher [find_match] (the loop as a function of its inputs, used in
      the proofs) and the spec's matcher [spec_match], written from the
      words of the spec's section 4.4 with its own level test.
    - [GoSlice] (Module [GoSlice]): slices as headers (pointer, offset,
      len, cap) over a heap [gmap] of backing arrays; indexing, [append]
      with the growth policy as the interface [GrowPolicy] (Go's
      [nextslicecap] is the instance), the table invariant of the rows
      [csv.Reader.ReadAll] returns, and [ReadAll_heap], the heap shape of
      that result.  This is what the aliasing of [records] and
      [modifiedRecords := records] needs.
    - [Loader] (Module [Loader]): [db.ConnectDb] (src/db/db.go:9-26) and
      the [Query]/[Next]/[Scan] loop of src/main.go:70-91 over the
      interface [Database].
    - [Driver] (Module [Driver]): [main] (src/main.go:62-171) in [M] over
      a [world] (the heap of rows, the progress counter, the lines
      printed, the queries sent, the output file), every early return
      and panic included; the interface [Runtime] gathers what [main]
      calls and does not define (database, transport, [os.Open] and the
      input file's bytes, [os.Create], and [file_limit], how many bytes
      the created file takes before a write fails: [csv.Writer] hands
      the bytes of [WriteAll] to a [bufio.Writer] that passes them on in
      order, so the file ends with a prefix of them ([write_file]), and
      [WriteAll] reports an error exactly when that prefix is short);
      the coordinates go through
      [GoFloat.ParseFloat] and [GoFloat.fmt_f]; [read_all] is
      [Csv.ReadAll] of the input bytes and the output file holds
      [Csv.WriteAll] of the rows; [spec_main] is the enrichment the spec
      describes, on plain lists of rows; a sample runtime for the
      end-to-end examples.

    The theorems (the claims C1.. in the order of their importance):
    - [main] refines the spec's enrichment: same outcome, lines,
      progress, queries and output, for every runtime (C1, proved by a
      simulation [related] between the heap run and the list run, whose
      invariant is [GoSlice.table]); from it, that a normal run writes
      every data row enriched with [find_match] of the answer to its own
      request, the [(i-1)]-th of the run (C2), that a failed run leaves
      the output file untouched unless it failed in [WriteAll], which
      leaves a strict prefix of the CSV bytes in it (C3), that the only non-zero
      exit status is a panic on a row shorter than 15 fields (C4), and
      the trace of a normal run (C5);
    - the element loop equals [find_match] and never panics (C6); it runs
      the match action on the first reference whose lowered, space-free
      name equals that of the first element tagged [admin_level = "7"]
      that has one, and does nothing when none has (C7);
      the key identifies names that differ in case and spaces (C8);
    - the table invariant: established by [ReadAll], kept by every
      [modifiedRecords[i] = append(x, v)] (C9); [append]'s functional
      specification and frame property (C10); the growth loop's fuel
      suffices (C11);
    - the divergences and gaps the model shows: the code tries later
      level-7 elements after one with no reference, where the spec says
      "no match" (C12); [Rows.Err()] is never read (C13); the key keeps
      every non-letter byte but ' ', tabs included (C18); a missing
      [name] tag matches a blank reference (C21); an [append] into
      spare capacity overwrites what another slice of the array shows
      (C22);
    - the library translations: [ReplaceAll] with a one-byte pattern is a
      filter (C15), [ToLower] on ASCII lowers 'A'..'Z' byte by byte (C16),
      [Itoa] writes the decimal numeral (C17), [IndexFunc]'s
      specification (C19), the element loop does what the spec's matcher
      says when at most one element is at level 7 (C20);
    - the loader's scan error (C14); the first data row whose latitude
      [ParseFloat] rejects ends the run there, after the requests of the
      rows before it and without output (C24); the spec's scenario of an
      empty reference table (C26);
    - the coordinates: a run sends for data row [i] the template filled
      with the row's coordinates as the file writes them, padded to six
      decimals (C23), because [ParseFloat] then [%f] gives back a plain
      decimal coordinate of at most nine integer digits and six decimals
      (C25); every value [ParseFloat] returns is a binary64 value (C27);
      ["NaN"] in any case is read without error, a gap of the spec (C34);
    - the CSV files: [WriteAll] then [ReadAll] gives the rows back for a
      rectangular table of [writable] rows (C28); the program's own
      output reads back only when no row was enriched, and is refused
      with [ErrFieldCount] otherwise (C29, the spec's round trip fails),
      as any ragged table is (C30); [ReadAll] returns rectangular tables
      (C31), so the short-row panic of C4 needs a file whose every row
      is short; a bare quote is reported at its line and column (C35);
      [ReadAll]'s fuel suffices (C36); the writer's quoting loop doubles
      the quotes (C37); reading back drops every record of one empty
      field (C38); an input file [ReadAll] refuses stops the run before
      any row, request or output (C39);
    - [main] reaches its end and writes the file when nothing fails
      (C32, liveness); [Itoa] of an [int64] is at most 20 bytes (C33).

    Bounds and fuel: the fuel is in Go's [nextslicecap] growth loop
    ([newLen] rounds, each adding at least 192, so it always exits before
    the fuel runs out: C11), in [GoString.Count_loop] (the length of the
    string plus one, each round consuming at least one byte:
    [Count_loop_enough]), and
    in the CSV reader and writer: [ReadAll]'s loop, [skipEmpty] and the
    quoting loop get the length of their input plus one, [parseField]
    the bytes left plus one, and every round consumes input (C36, C37,
    [Csv.parse_fuel]).  Integers ([id], indices) are unbounded [Z]/[nat]:
    the code does no arithmetic on them that can overflow; an [id] is a
    Go [int] of 64 bits and C33 bounds the text [Itoa] writes for it.
    Floating point is exact: [GoFloat] keeps the mantissa and exponent of
    a [float64] as [Z] with the binary64 bounds as the predicate [valid]
    (C27), and rounds with integer division, so the values are the
    correctly rounded ones Go computes; the coordinates of C23/C25 have
    at most nine integer digits, so their last place is at most [2^-21],
    finer than the sixth decimal [%f] prints.

    Not modelled: the network, PostgreSQL and the file system themselves
    (they are the interfaces' parameters), so also the I/O errors of the
    CSV reader (the writer's are [file_limit]); the 4096-byte chunking of
    [bufio.Writer] (which bytes reach the file before the error is
    [file_limit]'s choice, any prefix); the reader's [fieldPositions] (read only by
    [FieldPos], which the program does not call); the progress bar's
    rendering (only its counter: the drawing depends on the wall clock
    and goes only to the terminal); the algorithms inside
    [strconv.ParseFloat] and [%f] (Go's Eisel-Lemire and decimal
    conversions): [GoFloat] models their result, the correctly rounded
    value Go documents and computes, and the syntax they accept, not
    their steps; the Unicode case table of package [unicode] (data that
    [unicode.ToLower] looks up: the parameter [GoString.CaseRanges],
    carried by [Runtime]);
    [http.NewRequest]'s error branch (dead for a constant method and
    URL).  The DSN of [db.ConnectDb] is not reproduced. *)

From stdpp Require Import base list option.
From Stdlib Require Import ZArith Lia.

Declare Scope go_scope.
Delimit Scope go_scope with go.
Create HintDb go.
Create Rewrite HintDb go_rw.

(** ** Outcomes of a Go computation and the state-and-exit monad

    A step of [main] either continues with a value, or ends [main]:
    [Stop x] carries the reason ([x] is a printed error followed by
    [return], or a runtime panic; the component that uses [M] fixes the
    type).  The state is kept when [main] stops, so that what was already
    printed, sent or written stays observable. *)

Inductive outcome (X A : Type) : Type :=
| Cont (a : A)
| Stop (x : X).
Arguments Cont {X A} a.
Arguments Stop {X A} x.

Definition M (S X A : Type) : Type := S -> outcome X A * S.

Section Monad.
Context {St Ex : Type}.

Definition ret {A} (a : A) : M St Ex A := fun s => (Cont a, s).

Definition bind {A B} (m : M St Ex A) (k : A -> M St Ex B) : M St Ex B :=
  fun s => match m s with
           | (Cont a, s') => k a s'
           | (Stop x, s') => (Stop x, s')
           end.

Definition stop {A} (x : Ex) : M St Ex A := fun s => (Stop x, s).
Definition get : M St Ex St := fun s => (Cont s, s).
Definition modify (f : St -> St) : M St Ex unit := fun s => (Cont tt, f s).

(** [for i, x := range l] with a body that may [break] (it returns
    [true]) and [continue] (it returns [false]). *)
Fixpoint for_break {A} (body : A -> M St Ex bool) (l : list A) : M St Ex unit :=
  match l with
  | [] => ret tt
  | x :: l' => bind (body x) (fun brk => if brk then ret tt else for_break body l')
  end.

(** [for i := lo; i < lo + n; i++] with a body without [break]. *)
Fixpoint for_range (body : nat -> M St Ex unit) (lo n : nat) : M St Ex unit :=
  match n with
  | O => ret tt
  | S n' => bind (body lo) (fun _ => for_range body (S lo) n')
  end.

Lemma bind_ret_l {A B} (a : A) (k : A -> M St Ex B) s : bind (ret a) k s = k a s.
Proof. reflexivity. Qed.

Lemma bind_stop {A B} (x : Ex) (k : A -> M St Ex B) s : bind (stop x) k s = (Stop x, s).
Proof. reflexivity. Qed.

Lemma bind_assoc {A B C} (m : M St Ex A) (k : A -> M St Ex B) (h : B -> M St Ex C) s :
  bind (bind m k) h s = bind m (fun a => bind (k a) h) s.
Proof. unfold bind. destruct (m s) as [[a|x] s']; reflexivity. Qed.

Lemma bind_cont {A B} (m : M St Ex A) (k : A -> M St Ex B) s a s' :
  m s = (Cont a, s') -> bind m k s = k a s'.
Proof. unfold bind. intros ->. reflexivity. Qed.

Lemma bind_stopped {A B} (m : M St Ex A) (k : A -> M St Ex B) s x s' :
  m s = (Stop x, s') -> bind m k s = (Stop x, s').
Proof. unfold bind. intros ->. reflexivity. Qed.

Lemma for_range_S_r (body : nat -> M St Ex unit) lo n s :
  for_range body lo (S n) s = bind (for_range body lo n) (fun _ => body (lo + n)) s.
Proof.
  revert lo s. induction n as [|n IH]; intros lo s.
  - cbn [for_range]. unfold bind, ret. rewrite Nat.add_0_r.
    destruct (body lo s) as [[[]|x] s']; reflexivity.
  - change (for_range body lo (S (S n))) with (bind (body lo) (fun _ => for_range body (S lo) (S n))).
    change (for_range body lo (S n)) with (bind (body lo) (fun _ => for_range body (S lo) n)).
    rewrite bind_assoc.
    destruct (body lo s) as [[[]|x] s'] eqn:E.
    + rewrite (bind_cont _ _ _ _ _ E), (bind_cont _ _ _ _ _ E), IH.
      replace (S lo + n) with (lo + S n) by lia. reflexivity.
    + rewrite (bind_stopped _ _ _ _ _ E), (bind_stopped _ _ _ _ _ E). reflexivity.
Qed.
End Monad.

#[export] Hint Rewrite @bind_ret_l @bind_stop @bind_assoc : go_rw.

Notation "'let*' x := m 'in' k" := (bind m (fun x => k))
  (at level 10, x name, m at level 100, k at level 200) : go_scope.

(** ** Tactics shared by the components *)

(** Case analysis on the first [match] or [if] of the goal, keeping the
    equation. *)
Ltac case_match_go :=
  match goal with
  | |- context [match ?e with _ => _ end] => let E := fresh "E" in destruct e eqn:E
  end.

(** Turn the boolean tests of the model into propositions. *)
Ltac go_bool :=
  repeat match goal with
  | H : (_ =? _)%Z = true |- _ => apply Z.eqb_eq in H
  | H : (_ =? _)%Z = false |- _ => apply Z.eqb_neq in H
  | H : (_ =? _)%nat = true |- _ => apply Nat.eqb_eq in H
  | H : (_ =? _)%nat = false |- _ => apply Nat.eqb_neq in H
  | H : (_ <? _)%nat = true |- _ => apply Nat.ltb_lt in H
  | H : (_ <? _)%nat = false |- _ => apply Nat.ltb_ge in H
  | H : (_ && _) = true |- _ => apply andb_prop in H; destruct H
  end.

(** ** Generic list lemmas *)

(** The boolean list tests of the model, as propositions. *)
Lemma forallb_Forall_true {A} (f : A -> bool) l :
  forallb f l = true <-> Forall (fun x => f x = true) l.
Proof.
  rewrite forallb_forall, Forall_forall. done.
Qed.

Lemma existsb_elem {A} (f : A -> bool) l :
  existsb f l = true <-> exists x, x ∈ l /\ f x = true.
Proof.
  rewrite existsb_exists.
  split; intros (x & Hx & Hf); exists x; (split; [|done]); by apply list_elem_of_In.
Qed.

Lemma lookup_seq_range {A} (l : list A) i :
  i < length l -> is_Some (l !! i).
Proof. intros H. apply lookup_lt_is_Some_2. exact H. Qed.
