(* ===== verification/GoString.v ===== *)
(** * GoString: the Go string functions the matcher calls

    Go strings are byte sequences; they are modelled as Stdlib [string]
    (a list of 8-bit [ascii]).  This file translates, from the Go standard
    library, the functions that src/main.go:142 and src/main.go:147 call:
    - [strings.ToLower] (strings.go): its ASCII fast path, which checks
      [isASCII] and [hasUpper] and lowers the bytes 'A'..'Z', and its
      other branch [Map(unicode.ToLower, s)]: [strings.Map] with its two
      loops over the runes of [s] ([utf8.DecodeRuneInString], an invalid
      byte read as [RuneError]; the unchanged prefix kept, the rest
      re-encoded by [utf8.AppendRune]), and [unicode.ToLower], whose
      ASCII case is arithmetic and whose other runes go through the
      Unicode case table, the parameter [CaseRanges] (data of package
      [unicode], not code);
    - [strings.Index] (first occurrence, [-1] when absent), [strings.Count]
      (its one-byte special case and its [Index] loop) and
      [strings.Replace]/[strings.ReplaceAll] (the [Count] then the
      [Index]-and-copy loop into a [Builder]);
    - the matching key [norm] of src/main.go:142,
      [ReplaceAll(ToLower(x), " ", "")];
    - [strconv.Itoa] (decimal with a leading '-').
    The theorems: [ReplaceAll] with a one-byte pattern and an empty
    replacement is a one-pass filter, [ToLower] on ASCII lowers 'A'..'Z'
    byte by byte and keeps the rest, [norm] identifies exactly the strings
    that differ in letter case and in ' ' (and nothing else: every other
    non-letter byte, a tab among them, is kept as often as it occurs),
    [Itoa] writes at most 20 bytes for a 64-bit integer (the decimal numeral has
    no leading zero, so it is at least [10 ^ (digits - 1)]), the fuel of
    [Count]'s general loop and of [Map]'s loops is enough, and a lone byte
    that is not valid UTF-8 is lowered to the same string whatever the
    byte ([ToLower_invalid_byte]). *)

From stdpp Require Import base list strings.
From Stdlib Require Import Ascii String ZArith NArith Lia DecimalString DecimalZ.
From Stdlib Require DecimalPos.
From S2P Require Import Prelude.

Local Open Scope string_scope.

Module GoString.

(** ** Bytes *)

(** [utf8.RuneSelf]: bytes below it are ASCII. *)
Definition RuneSelf : N := 128.

Definition is_upper (c : ascii) : bool :=
  (65 <=? N_of_ascii c)%N && (N_of_ascii c <=? 90)%N.

(** [c += 'a' - 'A'] on an upper-case ASCII byte. *)
Definition to_lower_byte (c : ascii) : ascii :=
  if is_upper c then ascii_of_N (N_of_ascii c + 32) else c.

Fixpoint map_bytes (f : ascii -> ascii) (s : string) : string :=
  match s with
  | EmptyString => EmptyString
  | String c s' => String (f c) (map_bytes f s')
  end.

(** ** [strings.ToLower] *)

(** The first loop of [ToLower]: [isASCII] is false as soon as a byte is
    [>= utf8.RuneSelf]. *)
Fixpoint isASCII (s : string) : bool :=
  match s with
  | EmptyString => true
  | String c s' => (N_of_ascii c <? RuneSelf)%N && isASCII s'
  end.

Fixpoint hasUpper (s : string) : bool :=
  match s with
  | EmptyString => false
  | String c s' => is_upper c || hasUpper s'
  end.


(** ** Slicing: [s[n:]] and [s[i:j]] *)

Fixpoint str_drop (n : nat) (s : string) : string :=
  match n, s with
  | O, _ => s
  | S n', String _ s' => str_drop n' s'
  | S _, EmptyString => EmptyString
  end.

Fixpoint str_take (n : nat) (s : string) : string :=
  match n, s with
  | O, _ => EmptyString
  | S n', String c s' => String c (str_take n' s')
  | S _, EmptyString => EmptyString
  end.

Definition str_slice (i j : nat) (s : string) : string := str_take (j - i) (str_drop i s).

(** ** UTF-8 (package [unicode/utf8]) *)

(** [utf8.RuneError] (U+FFFD) and [utf8.MaxRune]. *)
Definition RuneError : Z := 65533.
Definition MaxRune : Z := 1114111.

(** The tables [first] and [acceptRanges] of [utf8]: for a leading byte
    [>= RuneSelf], the size of its sequence ([0]: the byte never starts
    one) and the range accepted for the second byte. *)
Definition accept_range (b0 : N) : nat * N * N :=
  if (b0 <? 194)%N then (0%nat, 0%N, 0%N)
  else if (b0 <=? 223)%N then (2%nat, 128%N, 191%N)
  else if (b0 =? 224)%N then (3%nat, 160%N, 191%N)
  else if (b0 <=? 236)%N then (3%nat, 128%N, 191%N)
  else if (b0 =? 237)%N then (3%nat, 128%N, 159%N)
  else if (b0 <=? 239)%N then (3%nat, 128%N, 191%N)
  else if (b0 =? 240)%N then (4%nat, 144%N, 191%N)
  else if (b0 <=? 243)%N then (4%nat, 128%N, 191%N)
  else if (b0 =? 244)%N then (4%nat, 128%N, 143%N)
  else (0%nat, 0%N, 0%N).

(** [locb <= b && b <= hicb]: a continuation byte. *)
Definition cont_byte (b : N) : bool := (128 <=? b)%N && (b <=? 191)%N.

Definition bits (c : ascii) (mask : Z) : Z := Z.land (Z.of_N (N_of_ascii c)) mask.

(** [utf8.DecodeRuneInString(s)]: the first rune of [s] and its width;
    [(RuneError, 1)] for a byte that does not start a valid sequence,
    [(RuneError, 0)] for the empty string. *)
Definition DecodeRuneInString (s : string) : Z * nat :=
  match s with
  | EmptyString => (RuneError, 0)
  | String c0 s1 =>
    if (N_of_ascii c0 <? RuneSelf)%N then (Z.of_N (N_of_ascii c0), 1)
    else
      let '(sz, lo, hi) := accept_range (N_of_ascii c0) in
      match sz, s1 with
      | O, _ | _, EmptyString => (RuneError, 1)
      | _, String c1 s2 =>
        if negb ((lo <=? N_of_ascii c1)%N && (N_of_ascii c1 <=? hi)%N) then (RuneError, 1)
        else if (sz =? 2)%nat then (Z.lor (Z.shiftl (bits c0 31) 6) (bits c1 63), 2)
        else match s2 with
          | EmptyString => (RuneError, 1)
          | String c2 s3 =>
            if negb (cont_byte (N_of_ascii c2)) then (RuneError, 1)
            else if (sz =? 3)%nat then
              (Z.lor (Z.lor (Z.shiftl (bits c0 15) 12) (Z.shiftl (bits c1 63) 6)) (bits c2 63), 3)
            else match s3 with
              | EmptyString => (RuneError, 1)
              | String c3 _ =>
                if negb (cont_byte (N_of_ascii c3)) then (RuneError, 1)
                else (Z.lor (Z.lor (Z.lor (Z.shiftl (bits c0 7) 18) (Z.shiftl (bits c1 63) 12))
                        (Z.shiftl (bits c2 63) 6)) (bits c3 63), 4)
              end
          end
      end
  end.

Definition byte_of (z : Z) : ascii := ascii_of_N (Z.to_N z).

(** [utf8.AppendRune], which [Builder.WriteRune] calls: a negative rune,
    a surrogate half or a rune above [MaxRune] is written as
    [RuneError]. *)
Definition EncodeRune (r : Z) : string :=
  let enc3 (r : Z) := String (byte_of (Z.lor 224 (Z.shiftr r 12)))
                        (String (byte_of (Z.lor 128 (Z.land (Z.shiftr r 6) 63)))
                          (String (byte_of (Z.lor 128 (Z.land r 63))) "")) in
  if (0 <=? r)%Z && (r <=? 127)%Z then String (byte_of r) ""
  else if (0 <=? r)%Z && (r <=? 2047)%Z then
    String (byte_of (Z.lor 192 (Z.shiftr r 6))) (String (byte_of (Z.lor 128 (Z.land r 63))) "")
  else if (r <? 0)%Z || (MaxRune <? r)%Z || ((55296 <=? r)%Z && (r <=? 57343)%Z) then enc3 RuneError
  else if (r <=? 65535)%Z then enc3 r
  else String (byte_of (Z.lor 240 (Z.shiftr r 18)))
         (String (byte_of (Z.lor 128 (Z.land (Z.shiftr r 12) 63)))
           (String (byte_of (Z.lor 128 (Z.land (Z.shiftr r 6) 63)))
             (String (byte_of (Z.lor 128 (Z.land r 63))) ""))).

(** ** [strings.Map] *)

Section Map.
Variable mapping : Z -> Z.

(** The first loop of [Map] ([for i, c := range s]): the first rune the
    mapping changes, or the first byte that is not valid UTF-8, as
    [Some (i, width, r)]; [None] when there is none. *)
Fixpoint map_first (fuel : nat) (s : string) (i : nat) : option (nat * nat * Z) :=
  match fuel with
  | O => None
  | S fuel' =>
    match s with
    | EmptyString => None
    | _ =>
      let '(c, width) := DecodeRuneInString s in
      let r := mapping c in
      if (r =? c)%Z && negb (c =? RuneError)%Z then map_first fuel' (str_drop width s) (i + width)
      else if (c =? RuneError)%Z && negb (width =? 1)%nat && (r =? c)%Z
      then map_first fuel' (str_drop width s) (i + width)
      else Some (i, width, r)
    end
  end.

(** The second loop ([for _, c := range s { r := mapping(c); if r >= 0
    { write r } }]; [WriteByte] of a rune below [RuneSelf] is its
    one-byte encoding). *)
Fixpoint map_rest (fuel : nat) (s : string) : string :=
  match fuel with
  | O => EmptyString
  | S fuel' =>
    match s with
    | EmptyString => EmptyString
    | _ =>
      let '(c, width) := DecodeRuneInString s in
      let r := mapping c in
      (if (0 <=? r)%Z then EncodeRune r else EmptyString) ++ map_rest fuel' (str_drop width s)
    end
  end.

(** [strings.Map(mapping, s)]: [s] itself when no rune changes and every
    byte is valid UTF-8; otherwise the unchanged prefix, then the mapped
    runes re-encoded (an invalid byte becomes [RuneError]). *)
Definition Map (s : string) : string :=
  match map_first (S (String.length s)) s 0 with
  | None => s
  | Some (i, width, r) =>
      str_take i s ++ (if (0 <=? r)%Z then EncodeRune r else EmptyString) ++
      map_rest (S (String.length s)) (str_drop (i + width) s)
  end.
End Map.

(** ** [unicode.ToLower] and [strings.ToLower] *)

(** [unicode.To(unicode.LowerCase, r)] looks [r] up in the Unicode case
    table [CaseRanges], data of the [unicode] package that the model
    takes as a parameter. *)
Class CaseRanges := { ToLowerCase : Z -> Z }.

(** [unicode.ToLower(r)]: the ASCII letters by arithmetic, the other
    runes through the case table. *)
Definition unicode_ToLower `{CaseRanges} (r : Z) : Z :=
  if (r <=? 127)%Z then (if (65 <=? r)%Z && (r <=? 90)%Z then r + 32 else r)%Z
  else ToLowerCase r.

(** A sample case table for the examples: the Latin-1 capitals
    U+00C0-U+00DE (U+00D7 apart) to their small letters, every other rune
    to itself. *)
Definition latin1_case_ranges : CaseRanges :=
  {| ToLowerCase := fun r => if (192 <=? r)%Z && (r <=? 222)%Z && negb (r =? 215)%Z then (r + 32)%Z else r |}.

(** [if isASCII { if !hasUpper { return s }; ...lower each byte... };
    return Map(unicode.ToLower, s)] *)
Definition ToLower `{CaseRanges} (s : string) : string :=
  if isASCII s then
    if negb (hasUpper s) then s else map_bytes to_lower_byte s
  else Map unicode_ToLower s.

(** ** [strings.Index], [strings.Count], [strings.Replace] *)

(** [Index(s, substr)]: the index of the first occurrence, or [-1]. *)
Fixpoint Index (s substr : string) : Z :=
  if String.prefix substr s then 0%Z
  else match s with
       | EmptyString => (-1)%Z
       | String _ s' =>
           let r := Index s' substr in
           if (r =? -1)%Z then (-1)%Z else (r + 1)%Z
       end.

(** [bytealg.CountString(s, c)]: the one-byte special case of [Count]. *)
Fixpoint CountString (s : string) (c : ascii) : nat :=
  match s with
  | EmptyString => O
  | String c' s' => (if ascii_dec c c' then 1 else 0) + CountString s' c
  end.

(** The general loop of [Count]:
    [for { i := Index(s, substr); if i == -1 { return n }; n++;
    s = s[i+len(substr):] }].  Each round drops at least one byte, so
    [length s + 1] rounds suffice ([Count_loop_enough]). *)
Fixpoint Count_loop (fuel : nat) (s substr : string) (n : nat) : nat :=
  match fuel with
  | O => n
  | S fuel' =>
      let i := Index s substr in
      if (i =? -1)%Z then n
      else Count_loop fuel' (str_drop (Z.to_nat i + String.length substr) s) substr (S n)
  end.

(** [Count(s, substr)]; for an empty [substr] Go returns the number of
    runes plus one, which is the number of bytes plus one on ASCII. *)
Definition Count (s substr : string) : nat :=
  match substr with
  | EmptyString => S (String.length s)
  | String c EmptyString => CountString s c
  | _ => Count_loop (S (String.length s)) s substr O
  end.

(** The replacement loop of [Replace]:
    [for i := 0; i < n; i++ { j := start; (if len(old) == 0 { if i > 0
    { j += rune width } } else { j += Index(s[start:], old) });
    b.WriteString(s[start:j]); b.WriteString(new); start = j + len(old) }]
    then [b.WriteString(s[start:])].  The builder [b] is the accumulator. *)
Fixpoint Replace_loop (n i : nat) (s old new : string) (start : nat) (b : string) : string :=
  match n with
  | O => b ++ str_drop start s
  | S n' =>
      let j :=
        match old with
        | EmptyString => if (i =? 0)%nat then start else S start
        | _ => start + Z.to_nat (Index (str_drop start s) old)
        end in
      Replace_loop n' (S i) s old new (j + String.length old) (b ++ str_slice start j s ++ new)
  end.

(** [strings.Replace(s, old, new, n)]. *)
Definition Replace (s old new : string) (n : Z) : string :=
  if String.eqb old new || (n =? 0)%Z then s
  else
    let m := Count s old in
    if (m =? 0)%nat then s
    else
      let n' := if (n <? 0)%Z || (Z.of_nat m <? n)%Z then m else Z.to_nat n in
      Replace_loop n' 0 s old new 0 "".

(** [strings.ReplaceAll(s, old, new)] is [Replace(s, old, new, -1)]. *)
Definition ReplaceAll (s old new : string) : string := Replace s old new (-1).

(** ** The matching key of src/main.go:142 *)

(** [strings.ReplaceAll(strings.ToLower(x), " ", "")], applied to both the
    reference name and the element's [name] tag. *)
Definition norm `{CaseRanges} (x : string) : string := ReplaceAll (ToLower x) " " "".

(** ** [strconv.Itoa] *)

(** [strconv.Itoa(i)] = [FormatInt(int64(i), 10)]: the decimal digits,
    with '-' in front of a negative number, no leading zero. *)
Definition Itoa (i : Z) : string := NilEmpty.string_of_int (Z.to_int i).

(** ** Reference definitions the theorems compare with *)

(** Removing every occurrence of one byte in one pass. *)
Fixpoint strip_byte (c : ascii) (s : string) : string :=
  match s with
  | EmptyString => EmptyString
  | String c' s' => if ascii_dec c c' then strip_byte c s' else String c' (strip_byte c s')
  end.

(** ** Lemmas on strings *)

Lemma str_app_cons (c : ascii) (s t : string) : String c s ++ t = String c (s ++ t).
Proof. reflexivity. Qed.

Lemma str_app_nil_l (s : string) : "" ++ s = s.
Proof. reflexivity. Qed.

Lemma str_app_nil_r (s : string) : s ++ "" = s.
Proof. induction s as [|c s IH]; [done|]. rewrite str_app_cons, IH. done. Qed.

Lemma str_app_assoc (s t u : string) : s ++ (t ++ u) = (s ++ t) ++ u.
Proof. induction s as [|c s IH]; [done|]. rewrite !str_app_cons, IH. done. Qed.

Lemma str_length_app (s t : string) : String.length (s ++ t) = String.length s + String.length t.
Proof. induction s as [|c s IH]; [done|]. rewrite str_app_cons. simpl. rewrite IH. done. Qed.

#[export] Hint Rewrite str_app_cons str_app_nil_l str_app_nil_r : go_rw.

Lemma str_drop_app (s t : string) : str_drop (String.length s) (s ++ t) = t.
Proof. induction s as [|c s IH]; [done|]. rewrite str_app_cons. exact IH. Qed.

Lemma str_take_app (s t : string) : str_take (String.length s) (s ++ t) = s.
Proof. induction s as [|c s IH]; [done|]. rewrite str_app_cons. simpl. rewrite IH. done. Qed.

Lemma str_drop_add (a b : nat) (s : string) : str_drop (a + b) s = str_drop b (str_drop a s).
Proof.
  revert s. induction a as [|a IH]; intros s; [done|].
  destruct s as [|c s]; simpl; [by destruct b|]. apply IH.
Qed.

Lemma str_drop_length (s : string) : str_drop (String.length s) s = "".
Proof. induction s; simpl; auto. Qed.

Lemma str_drop_length_le (n : nat) (s : string) :
  String.length (str_drop n s) <= String.length s.
Proof.
  revert s. induction n as [|n IH]; intros [|c s]; simpl; try lia. specialize (IH s). lia.
Qed.

Lemma strip_byte_cons c c' (s : string) :
  strip_byte c (String c' s) = if ascii_dec c c' then strip_byte c s else String c' (strip_byte c s).
Proof. reflexivity. Qed.

Lemma strip_byte_app c (s t : string) : strip_byte c (s ++ t) = strip_byte c s ++ strip_byte c t.
Proof.
  induction s as [|c' s IH]; [done|]. rewrite str_app_cons. simpl.
  destruct (ascii_dec c c'); rewrite IH; done.
Qed.

Lemma strip_byte_absent c (s : string) : CountString s c = 0 -> strip_byte c s = s.
Proof.
  induction s as [|c' s IH]; [done|]. simpl.
  destruct (ascii_dec c c'); [lia|]. intros H. rewrite IH; done.
Qed.

#[export] Hint Resolve strip_byte_absent : go.

(** The first occurrence of a byte: what [Index] finds when [Count] is
    positive. *)
Lemma CountString_split (t : string) c k :
  CountString t c = S k ->
  exists pre post, t = pre ++ String c post /\ CountString pre c = 0 /\
    CountString post c = k /\ Index t (String c "") = Z.of_nat (String.length pre).
Proof.
  induction t as [|c' t IH]; simpl; [lia|].
  destruct (ascii_dec c c') as [->|Hne]; simpl; intros H.
  - destruct (ascii_dec c' c') as [_|]; [|done]. simpl in H.
    exists "", t. split; [done|]. split; [done|]. split; [lia|].
    cbn. destruct t; reflexivity.
  - destruct (IH H) as (pre & post & -> & Hpre & Hpost & Hidx).
    exists (String c' pre), post. rewrite str_app_cons. repeat split; simpl.
    + destruct (ascii_dec c c'); [congruence|]. exact Hpre.
    + exact Hpost.
    + destruct (ascii_dec c c'); [congruence|]. rewrite Hidx.
      destruct (Z.eqb_spec (Z.of_nat (String.length pre)) (-1)); [lia|]. lia.
Qed.

(** The loop invariant of [Replace] with a one-byte [old] and an empty
    [new]: the builder holds the filtered prefix, and the number of rounds
    left is the number of occurrences left. *)
Lemma Replace_loop_strip c (s : string) k i start b :
  CountString (str_drop start s) c = k ->
  Replace_loop k i s (String c "") "" start b = b ++ strip_byte c (str_drop start s).
Proof.
  revert i start b. induction k as [|k IH]; intros i start b Hk; simpl.
  - rewrite strip_byte_absent; done.
  - destruct (CountString_split _ _ _ Hk) as (pre & post & Ht & Hpre & Hpost & Hidx).
    rewrite Hidx, Nat2Z.id.
    assert (Hdrop : str_drop (start + String.length pre + 1) s = post).
    { rewrite <- Nat.add_assoc, str_drop_add, Ht, str_drop_add, str_drop_app. done. }
    assert (Hslice : str_slice start (start + String.length pre) s = pre).
    { unfold str_slice. rewrite Ht. replace (start + String.length pre - start)
        with (String.length pre) by lia. apply str_take_app. }
    assert (Hk' : CountString (str_drop (start + String.length pre + 1) s) c = k)
      by (rewrite Hdrop; exact Hpost).
    rewrite Hslice, (IH _ _ _ Hk'), Hdrop, Ht, strip_byte_app, (strip_byte_absent _ pre) by done.
    simpl. destruct (ascii_dec c c); [|done]. rewrite str_app_nil_r, str_app_assoc. done.
Qed.

(** [ToLower] on a string with no upper-case byte is the identity. *)
Lemma map_lower_no_upper (s : string) : hasUpper s = false -> map_bytes to_lower_byte s = s.
Proof.
  induction s as [|c s IH]; simpl; [done|].
  intros [Hc Hs]%orb_false_iff. f_equal; [|by apply IH].
  unfold to_lower_byte. rewrite Hc. done.
Qed.

(** The fast path of [ToLower] on an ASCII string is the byte-wise lowering. *)
Lemma ToLower_ascii_map `{CR : CaseRanges} (s : string) :
  isASCII s = true -> ToLower s = map_bytes to_lower_byte s.
Proof.
  intros Ha. unfold ToLower. rewrite Ha.
  destruct (hasUpper s) eqn:E; [done|]. rewrite map_lower_no_upper; done.
Qed.

Lemma map_bytes_length f (s : string) : String.length (map_bytes f s) = String.length s.
Proof. induction s as [|c s IH]; simpl; congruence. Qed.

Lemma map_bytes_get f (s : string) i : String.get i (map_bytes f s) = f <$> String.get i s.
Proof. revert i. induction s as [|c s IH]; intros [|i]; simpl; done. Qed.

(** [to_lower_byte] sends a byte to ' ' exactly when it is ' '. *)
Lemma to_lower_byte_space (c : ascii) : to_lower_byte c = " "%char <-> c = " "%char.
Proof.
  destruct c as [[][][][][][][][]]; vm_compute; split; intros H; try discriminate; reflexivity.
Qed.

(** The key with the [ToLower] of the model unfolded: lower every byte,
    then drop every ' '. *)
Definition key (s : string) : string := strip_byte " " (map_bytes to_lower_byte s).

(** ** Termination of [Count]'s loop *)

Lemma prefix_length (p s : string) : String.prefix p s = true -> String.length p <= String.length s.
Proof.
  revert s. induction p as [|c p IH]; intros [|c' s]; simpl; try lia; try done.
  destruct (ascii_dec c c'); [|done]. intros H. specialize (IH s H). lia.
Qed.

Lemma str_drop_length_eq (n : nat) (s : string) :
  String.length (str_drop n s) = String.length s - n.
Proof. revert s. induction n as [|n IH]; intros [|c s]; simpl; try lia. apply IH. Qed.

(** ** [strings.Map]: widths and fuel *)

(** A rune of a non-empty string is one to four of its bytes. *)
Lemma DecodeRune_width (s : string) :
  s <> "" -> 1 <= (DecodeRuneInString s).2 <= String.length s.
Proof.
  intros Hs. destruct s as [|c0 s1]; [done|]. unfold DecodeRuneInString.
  destruct (N_of_ascii c0 <? RuneSelf)%N; [simpl; lia|].
  destruct (accept_range (N_of_ascii c0)) as [[sz lo] hi].
  destruct sz as [|sz]; [simpl; lia|]. destruct s1 as [|c1 s2]; [simpl; lia|].
  repeat (case_match; simpl in *; try lia).
Qed.

(** Each round of the loops of [Map] consumes a rune: with more fuel than
    bytes, they give the same result. *)
Lemma map_rest_fuel (f : Z -> Z) (s : string) n1 n2 :
  String.length s < n1 -> String.length s < n2 -> map_rest f n1 s = map_rest f n2 s.
Proof.
  revert s n2. induction n1 as [|n1 IH]; intros s [|n2] H1 H2; try lia. simpl.
  destruct s as [|c s']; [done|].
  pose proof (DecodeRune_width (String c s') ltac:(done)) as Hw.
  destruct (DecodeRuneInString (String c s')) as [r w]. simpl in Hw. f_equal.
  apply IH; rewrite str_drop_length_eq; simpl in *; lia.
Qed.

Lemma map_first_fuel (f : Z -> Z) (s : string) i n1 n2 :
  String.length s < n1 -> String.length s < n2 -> map_first f n1 s i = map_first f n2 s i.
Proof.
  revert s i n2. induction n1 as [|n1 IH]; intros s i [|n2] H1 H2; try lia. simpl.
  destruct s as [|c s']; [done|].
  pose proof (DecodeRune_width (String c s') ltac:(done)) as Hw.
  destruct (DecodeRuneInString (String c s')) as [r w]. simpl in Hw.
  repeat case_match; try done; apply IH; rewrite str_drop_length_eq; simpl in *; lia.
Qed.

(** A lone byte [>= RuneSelf] is not valid UTF-8. *)
Lemma DecodeRune_single (c : ascii) :
  (RuneSelf <= N_of_ascii c)%N -> DecodeRuneInString (String c "") = (RuneError, 1).
Proof.
  intros Hc. unfold DecodeRuneInString. replace (N_of_ascii c <? RuneSelf)%N with false
    by (symmetry; apply N.ltb_ge; done).
  by destruct (accept_range (N_of_ascii c)) as [[[|sz] lo] hi].
Qed.

(** [strings.ToLower] of a lone byte that is not valid UTF-8 is
    [unicode.ToLower(RuneError)], whatever the byte and the case table:
    such names all have the same key. *)
Lemma ToLower_invalid_byte `{CR : CaseRanges} (c c' : ascii) :
  (RuneSelf <= N_of_ascii c)%N -> (RuneSelf <= N_of_ascii c')%N ->
  ToLower (String c "") = ToLower (String c' "").
Proof.
  intros Hc Hc'. assert (Hr : forall d, (RuneSelf <= N_of_ascii d)%N ->
    ToLower (String d "") = if (0 <=? unicode_ToLower RuneError)%Z then EncodeRune (unicode_ToLower RuneError) else "").
  { intros d Hd. unfold ToLower. cbn [isASCII].
    replace (N_of_ascii d <? RuneSelf)%N with false by (symmetry; apply N.ltb_ge; done). simpl.
    unfold Map. cbn [map_first String.length]. rewrite DecodeRune_single by done. simpl.
    rewrite andb_false_r. simpl. by rewrite str_app_nil_l, str_app_nil_r. }
  by rewrite !Hr.
Qed.

(** On the sample table, the Map branch lowers a Latin-1 capital. *)
Example ToLower_latin1 :
  let CR : CaseRanges := latin1_case_ranges in
  ToLower ("JER" ++ String (ascii_of_nat 195) (String (ascii_of_nat 156) "K")) =
  "jer" ++ String (ascii_of_nat 195) (String (ascii_of_nat 188) "k").
Proof. vm_compute. reflexivity. Qed.

(** A found occurrence lies inside the string. *)
Lemma Index_bound (s p : string) :
  Index s p <> (-1)%Z -> (0 <= Index s p)%Z /\ Z.to_nat (Index s p) + String.length p <= String.length s.
Proof.
  induction s as [|c s IH]; cbn [Index];
    [destruct (String.prefix p "") eqn:Hp|destruct (String.prefix p (String c s)) eqn:Hp].
  - apply prefix_length in Hp. simpl in *. lia.
  - done.
  - apply prefix_length in Hp. simpl in *. lia.
  - destruct (Z.eqb_spec (Index s p) (-1)); [done|]. intros _.
    destruct (IH n) as [H0 H1]. split; [lia|]. rewrite Z2Nat.inj_add by lia. simpl. lia.
Qed.

(** [Count]'s loop with a non-empty [substr]: each round drops at least one
    byte, so once the fuel exceeds the length of the string, more fuel
    changes nothing. *)
Lemma Count_loop_stable f k (s substr : string) n :
  String.length substr <> 0 -> String.length s < f ->
  Count_loop (f + k) s substr n = Count_loop f s substr n.
Proof.
  intros Hsub. revert s n. induction f as [|f IH]; intros s n Hf; [lia|]. simpl.
  destruct (Z.eqb_spec (Index s substr) (-1)) as [|Hne]; [done|].
  apply IH. rewrite str_drop_length_eq. pose proof (Index_bound s substr Hne). lia.
Qed.

Lemma key_cons (c : ascii) (s : string) :
  key (String c s) = if ascii_dec c " " then key s else String (to_lower_byte c) (key s).
Proof.
  unfold key. cbn [map_bytes]. rewrite strip_byte_cons.
  destruct (ascii_dec c " ") as [->|Hc]; [reflexivity|].
  destruct (ascii_dec " " (to_lower_byte c)) as [H|H]; [|reflexivity].
  exfalso. apply Hc, to_lower_byte_space. done.
Qed.

Lemma key_nil : key "" = "".
Proof. reflexivity. Qed.

#[export] Hint Rewrite key_cons key_nil : go_rw.

(** The strings the matcher identifies, by their shape: letters equal up
    to case, and ' ' inserted anywhere on either side. *)
Inductive variant : string -> string -> Prop :=
| variant_nil : variant "" ""
| variant_letter c c' s t :
    to_lower_byte c = to_lower_byte c' -> variant s t -> variant (String c s) (String c' t)
| variant_space_l s t : variant s t -> variant (String " " s) t
| variant_space_r s t : variant s t -> variant s (String " " t).

#[export] Hint Constructors variant : go.

Lemma key_variant (s t : string) : variant s t -> key s = key t.
Proof.
  induction 1 as [| c c' s t Hc _ IH | s t _ IH | s t _ IH]; rewrite ?key_cons; try done.
  destruct (ascii_dec c " ") as [->|Hs], (ascii_dec c' " ") as [->|Hs']; try done.
  - exfalso. apply Hs'. apply to_lower_byte_space. rewrite <- Hc. done.
  - exfalso. apply Hs. apply to_lower_byte_space. rewrite Hc. done.
  - rewrite Hc, IH. done.
Qed.

Lemma variant_key (s t : string) : key s = key t -> variant s t.
Proof.
  remember (String.length s + String.length t) as n eqn:Hn.
  revert s t Hn. induction n as [n IH] using lt_wf_ind. intros s t Hn Hkey.
  destruct s as [|c s]; [|destruct (ascii_dec c " ") as [->|Hc]].
  - destruct t as [|c' t]; [constructor|].
    destruct (ascii_dec c' " ") as [->|Hc'].
    + apply variant_space_r. eapply IH; [|done|]; simpl in *; [lia|]. rewrite key_cons in Hkey. done.
    + rewrite key_cons in Hkey. destruct (ascii_dec c' " "); done.
  - apply variant_space_l. eapply IH; [|done|]; simpl in *; [lia|]. rewrite key_cons in Hkey. done.
  - destruct t as [|c' t]; [rewrite key_cons in Hkey; destruct (ascii_dec c " "); done|].
    destruct (ascii_dec c' " ") as [->|Hc'].
    + apply variant_space_r. eapply IH; [|done|]; simpl in *; [lia|]. rewrite (key_cons " ") in Hkey. done.
    + rewrite !key_cons in Hkey. destruct (ascii_dec c " "), (ascii_dec c' " "); try done.
      injection Hkey as Hl Hk. constructor; [done|]. eapply IH; [|done|done]. simpl in *. lia.
Qed.

Lemma norm_key `{CR : CaseRanges} (s : string) : isASCII s = true -> norm s = key s.
Proof.
  intros Ha. unfold norm, ReplaceAll, Replace. simpl.
  rewrite ToLower_ascii_map by done. unfold key.
  destruct (Nat.eqb_spec (CountString (map_bytes to_lower_byte s) " ") 0) as [H0|H0].
  - rewrite strip_byte_absent; done.
  - rewrite (Replace_loop_strip " " _ _ 0 0 ""); done.
Qed.

Lemma CountString_strip (x : string) c d : c <> d -> CountString (strip_byte d x) c = CountString x c.
Proof.
  intros Hc. induction x as [|b x IH]; [done|]. cbn [strip_byte CountString].
  destruct (ascii_dec d b) as [<-|]; cbn [CountString]; rewrite IH; [|done].
  destruct (ascii_dec c d); done.
Qed.

Lemma CountString_map_lower (x : string) c :
  (N_of_ascii c < 65 \/ 122 < N_of_ascii c)%N -> CountString (map_bytes to_lower_byte x) c = CountString x c.
Proof.
  intros Hc. induction x as [|b x IH]; [done|]. simpl. rewrite IH. f_equal.
  unfold to_lower_byte, is_upper. destruct ((65 <=? N_of_ascii b)%N && (N_of_ascii b <=? 90))%N eqn:Hb; [|done].
  apply andb_true_iff in Hb as [Hb1%N.leb_le Hb2%N.leb_le].
  destruct (ascii_dec c _) as [Heq|]; [exfalso|destruct (ascii_dec c b) as [->|]; [lia|done]].
  rewrite Heq, N_ascii_embedding in Hc by lia. lia.
Qed.

(** ** The functional behaviour of the string functions *)

(** C15: Go's [strings.ReplaceAll(s, old, "")] with a one-byte [old] (the
    [Count] special case, then the [Index]-and-copy loop) removes every
    occurrence of that byte and keeps every other byte in order. *)
Theorem ReplaceAll_one_byte (s : string) (c : ascii) :
  ReplaceAll s (String c "") "" = strip_byte c s.
Proof.
  unfold ReplaceAll, Replace. simpl.
  destruct (Nat.eqb_spec (CountString s c) 0) as [H0|H0].
  - rewrite strip_byte_absent; done.
  - apply (Replace_loop_strip c s _ 0 0 ""). done.
Qed.

(** C16: on an ASCII string, [strings.ToLower] (its fast path: return
    [s] itself when it has no upper-case byte, else add ['a' - 'A'] to
    each upper-case byte) keeps the length, turns each byte 'A'..'Z'
    (65..90) into the byte 32 above it, and keeps every other byte. *)
Theorem ToLower_ascii `{CR : CaseRanges} (s : string) :
  isASCII s = true ->
  String.length (ToLower s) = String.length s /\
  forall i c, String.get i s = Some c ->
    String.get i (ToLower s) =
      Some (if (65 <=? N_of_ascii c)%N && (N_of_ascii c <=? 90)%N then ascii_of_N (N_of_ascii c + 32) else c).
Proof.
  intros Ha. rewrite ToLower_ascii_map by done. split; [apply map_bytes_length|].
  intros i c Hc. rewrite map_bytes_get, Hc. done.
Qed.

Lemma ToLower_ascii_witness :
  let CR : CaseRanges := latin1_case_ranges in
  isASCII "Kebon Jeruk" = true /\ String.get 0 "Kebon Jeruk" = Some "K"%char /\
  String.get 0 (ToLower "Kebon Jeruk") = Some "k"%char.
Proof.
  intros CR. assert (Ha : isASCII "Kebon Jeruk" = true) by reflexivity.
  split_and!; [exact Ha|reflexivity|]. rewrite ((proj2 (ToLower_ascii "Kebon Jeruk" Ha)) 0 "K"%char); reflexivity.
Defined.

(** C8: the matching key of src/main.go:142 identifies two ASCII names
    exactly when one is obtained from the other by changing the case of
    letters and inserting or deleting ' ' characters. *)
Theorem norm_eq_iff_variant `{CR : CaseRanges} (s t : string) :
  isASCII s = true -> isASCII t = true -> norm s = norm t <-> variant s t.
Proof.
  intros Hs Ht. rewrite !norm_key by done. split; [apply variant_key | apply key_variant].
Qed.

Lemma norm_eq_iff_variant_witness :
  let CR : CaseRanges := latin1_case_ranges in
  norm "Kelurahan  Baru" = norm "kelurahanbaru".
Proof.
  intros CR.
  apply (norm_eq_iff_variant "Kelurahan  Baru" "kelurahanbaru"); [reflexivity|reflexivity|].
  repeat (apply variant_letter; [reflexivity|]).
  apply variant_space_l, variant_space_l.
  repeat (apply variant_letter; [reflexivity|]). constructor.
Defined.

(** C18: the key removes ' ' and nothing else: every other byte that is
    not a letter (a tab, a newline, a no-break space's bytes, a digit, a
    hyphen) is kept as often as the ASCII name has it, so two names that
    differ in how many of such a byte they hold never match, tabs and
    other whitespace included. *)
Theorem norm_keeps_other_bytes `{CR : CaseRanges} (s t : string) (c : ascii) :
  isASCII s = true -> c <> " "%char -> (N_of_ascii c < 65 \/ 122 < N_of_ascii c)%N ->
  CountString (norm s) c = CountString s c /\
  (isASCII t = true -> CountString s c <> CountString t c -> norm s <> norm t).
Proof.
  intros Hs Hsp Hl.
  assert (Hn : forall x, isASCII x = true -> CountString (norm x) c = CountString x c).
  { intros x Hx. rewrite norm_key by done. unfold key.
    rewrite CountString_strip by done. by apply CountString_map_lower. }
  split; [by apply Hn|]. intros Ht Hne Heq. apply Hne. rewrite <- (Hn s), <- (Hn t), Heq by done. done.
Qed.

Lemma norm_keeps_other_bytes_witness :
  let CR : CaseRanges := latin1_case_ranges in
  norm ("Kebon" ++ String (ascii_of_nat 9) "Jeruk") <> norm "KebonJeruk".
Proof.
  intros CR.
  apply (proj2 (norm_keeps_other_bytes ("Kebon" ++ String (ascii_of_nat 9) "Jeruk") "KebonJeruk"
    (ascii_of_nat 9) eq_refl ltac:(discriminate) ltac:(left; vm_compute; reflexivity)) eq_refl).
  vm_compute. discriminate.
Defined.

(** ** The decimal text of [Itoa] *)

Lemma string_of_uint_length (d : Decimal.uint) :
  N.of_nat (String.length (NilEmpty.string_of_uint d)) = DecimalPos.Unsigned.usize d.
Proof. induction d; simpl; lia. Qed.

Lemma usize_nzhead (d : Decimal.uint) :
  (DecimalPos.Unsigned.usize (Decimal.nzhead d) <= DecimalPos.Unsigned.usize d)%N.
Proof. induction d; simpl; lia. Qed.

(** A decimal numeral without a leading zero is at least [10 ^ (digits - 1)]. *)
Lemma of_uint_lead (d : Decimal.uint) :
  Decimal.nzhead d = d -> d <> Decimal.Nil ->
  (10 ^ (DecimalPos.Unsigned.usize d - 1) <= Pos.of_uint d)%N.
Proof.
  intros Hz Hn. destruct d as [|d|d|d|d|d|d|d|d|d|d]; [done| |
    rewrite DecimalPos.Unsigned.of_uint_alt; unfold Decimal.rev; cbn [Decimal.revapp];
    rewrite DecimalPos.Unsigned.of_lu_revapp; cbn [DecimalPos.Unsigned.of_lu DecimalPos.Unsigned.usize];
    rewrite N.sub_1_r, N.pred_succ; lia ..].
  exfalso. pose proof (usize_nzhead d) as H. simpl in Hz. rewrite Hz in H. simpl in H. lia.
Qed.

(** [Pos.to_uint] writes no leading zero. *)
Lemma to_uint_nzhead (p : positive) : Decimal.nzhead (Pos.to_uint p) = Pos.to_uint p.
Proof.
  pose proof (DecimalPos.Unsigned.to_of (Pos.to_uint p)) as H.
  rewrite DecimalPos.Unsigned.of_to in H. simpl in H. unfold Decimal.unorm in H.
  destruct (Decimal.nzhead (Pos.to_uint p)) eqn:E;
    [by destruct (DecimalPos.Unsigned.to_uint_nonzero p)|congruence..].
Qed.

Lemma to_uint_usize (p : positive) :
  (Z.pos p < 10 ^ 19)%Z -> (DecimalPos.Unsigned.usize (Pos.to_uint p) <= 19)%N.
Proof.
  intros Hp. pose proof (of_uint_lead _ (to_uint_nzhead p) (DecimalPos.Unsigned.to_uint_nonnil p)) as H.
  rewrite DecimalPos.Unsigned.of_to in H.
  destruct (N.le_gt_cases (DecimalPos.Unsigned.usize (Pos.to_uint p)) 19) as [|Hgt]; [done|].
  exfalso. assert (10 ^ 19 <= 10 ^ (DecimalPos.Unsigned.usize (Pos.to_uint p) - 1))%N
    by (apply N.pow_le_mono_r; lia).
  lia.
Qed.

(** The bytes [strconv.Itoa] writes: the sign and the ten digits. *)
Definition itoa_alphabet : list ascii := String.list_ascii_of_string "-0123456789".

Lemma Itoa_alphabet (z : Z) : Forall (fun c => c ∈ itoa_alphabet) (String.list_ascii_of_string (Itoa z)).
Proof.
  assert (Hd : forall d, Forall (fun c => c ∈ itoa_alphabet)
                           (String.list_ascii_of_string (NilEmpty.string_of_uint d))).
  { induction d; simpl; constructor; try done; apply list_elem_of_In; simpl; tauto. }
  unfold Itoa, NilEmpty.string_of_int. destruct (Z.to_int z); [done|].
  simpl. constructor; [apply list_elem_of_In; simpl; tauto|apply Hd].
Qed.

(** C33: the id column is short: for a Go [int] (64 bits on the
    platforms Go targets), [strconv.Itoa] writes at most 20 bytes, 19
    digits and the sign; the bound is reached at [-2^63]. *)
Theorem Itoa_length_int64 (z : Z) :
  (- 2 ^ 63 <= z < 2 ^ 63)%Z -> String.length (Itoa z) <= 20.
Proof.
  intros Hz. unfold Itoa. destruct z as [|p|p]; simpl; [lia| |].
  - pose proof (string_of_uint_length (Pos.to_uint p)). pose proof (to_uint_usize p). lia.
  - pose proof (string_of_uint_length (Pos.to_uint p)). pose proof (to_uint_usize p). lia.
Qed.

Lemma Itoa_length_int64_witness :
  (- 2 ^ 63 <= - 2 ^ 63 < 2 ^ 63)%Z /\ String.length (Itoa (- 2 ^ 63)) = 20 /\
  String.length (Itoa (- 2 ^ 63)) <= 20.
Proof.
  split; [lia|]. split; [vm_compute; reflexivity|]. apply Itoa_length_int64. lia.
Defined.

(** The fuel [Count] gives its general loop (the length of the
    string plus one) is enough: for a non-empty [substr], any more fuel
    gives the same count, so [Count] computes what Go's unbounded loop
    computes. *)
Theorem Count_loop_enough (s substr : string) k :
  substr <> "" ->
  Count_loop (S (String.length s) + k) s substr O = Count_loop (S (String.length s)) s substr O.
Proof.
  intros Hsub. apply Count_loop_stable; [|lia]. destruct substr; [done|]. simpl. lia.
Qed.

Lemma Count_loop_enough_witness :
  "ab" <> "" /\
  Count_loop (S (String.length "xabyab") + 7) "xabyab" "ab" O =
  Count_loop (S (String.length "xabyab")) "xabyab" "ab" O.
Proof. split; [done|]. apply Count_loop_enough. done. Defined.

End GoString.
