(* ===== verification/GoFloat.v ===== *)
(** * GoFloat: Go's [float64], [strconv.ParseFloat(s, 64)] and the verb [%f]

    src/main.go:121 and src/main.go:126 read the latitude and longitude of
    a row with [strconv.ParseFloat(record[i], 64)], and src/main.go:132
    writes them into the Overpass query with the verb [%f] of
    [fmt.Sprintf].  This file models both library functions on a value
    type of their own:
    - [float64]: a signed zero, a finite [(-1)^neg * m * 2^e] with the
      IEEE 754 binary64 bounds ([valid]), a signed infinity or NaN;
    - [round]: the binary64 value nearest to a positive rational [a / b],
      ties to even, [+-Inf] with the overflow flag past the largest
      finite value, a signed zero below half the least subnormal;
    - [special], [readFloat], [underscoreOK], [atof64] and [ParseFloat]
      (strconv/atof.go, strconv/atoi.go): the accepted syntax (sign,
      ["inf"], ["infinity"], ["nan"] in any case, decimal and [0x]
      mantissas with an optional dot, the exponent [e] or [p] with its
      cap at 10000, underscores between digits), the syntax error, and
      the range error on overflow.  [readFloat] keeps the whole mantissa
      where Go keeps 19 digits and a truncation flag for its fast paths:
      Go then rounds the whole digit string ([decimal.set] and
      [floatBits], [atofHex] with its sticky bit), so the value is the
      correctly rounded one, which [round] computes; [floatBits]'s
      shortcuts for a decimal point past 310 or before -330 give the
      values [round] gives there;
    - [fmt_f]: [%f], that is [strconv.AppendFloat(v, 'f', 6, 64)] and
      the sign rules of [fmt.fmtFloat]: the exact value rounded to six
      decimals, ties to even, a ['-'] for every negative value (also
      [-0]), ["+Inf"], ["-Inf"] and ["NaN"].
    The theorems: rounding is to nearest ([div_rne_spec]), every value
    [ParseFloat] returns satisfies the binary64 bounds, and a coordinate
    written with at most nine integer digits and six decimals goes
    through [ParseFloat] and [%f] to the same digits, padded with zeros:
    the query carries the coordinates of the file; ["NaN"] in any letter
    case is read without error, and a field with a leading space is a
    syntax error.  The end of the file shows that [GoString.Itoa] (the
    integer part of [%f], and the id of src/main.go:147) writes the
    decimal numeral of its argument, in the terms of [digits_value]. *)

From stdpp Require Import base list.
From Stdlib Require Import Ascii String ZArith Lia DecimalString.
From Stdlib Require DecimalPos.
From S2P Require Import Prelude GoString.

Local Open Scope string_scope.
Local Open Scope Z_scope.

Module GoFloat.
Import GoString.

(** ** Values *)

(** A Go [float64]: [F64finite neg m e] is [(-1)^neg * m * 2^e]. *)
Inductive float64 : Set :=
| F64zero (neg : bool)
| F64finite (neg : bool) (m e : Z)
| F64inf (neg : bool)
| F64nan.

(** [float64info]: 52 stored mantissa bits; [emin] is the exponent of
    the last place of the subnormals, [emax] that of the largest finite
    values. *)
Definition mantbits : Z := 52.
Definition emin : Z := -1074.
Definition emax : Z := 971.

(** The binary64 bounds: a mantissa of at most 53 bits, normal (its top
    bit set) unless the exponent is the least one. *)
Definition valid (x : float64) : bool :=
  match x with
  | F64finite _ m e =>
      (0 <? m) && (m <? 2 ^ (mantbits + 1)) && (emin <=? e) && (e <=? emax)
      && ((2 ^ mantbits <=? m) || (e =? emin))
  | _ => true
  end.

(** The errors of [strconv]: [NumError.Err]. *)
Inductive NumErr : Set := ErrSyntax | ErrRange.

(** ** Rounding *)

(** [a / b] rounded to the nearest integer, ties to even ([b > 0]). *)
Definition div_rne (a b : Z) : Z :=
  let q := a / b in
  match Z.compare (2 * (a mod b)) b with
  | Lt => q
  | Gt => q + 1
  | Eq => if Z.even q then q else q + 1
  end.

(** [2^e] as the fraction [up2 e / dn2 e] of two integers. *)
Definition up2 (e : Z) : Z := 2 ^ Z.max e 0.
Definition dn2 (e : Z) : Z := 2 ^ Z.max (- e) 0.

(** [a / (b * 2^e)] rounded to nearest even, for an exponent of either
    sign. *)
Definition div_rne_pow2 (a b e : Z) : Z := div_rne (a * dn2 e) (b * up2 e).

(** [2^l <= a / b]. *)
Definition ge_pow2 (a b l : Z) : bool := b * up2 l <=? a * dn2 l.

(** [floor (log2 (a / b))] for positive [a] and [b]. *)
Definition flog2 (a b : Z) : Z :=
  let l := Z.log2 a - Z.log2 b in
  if ge_pow2 a b l then l else l - 1.

(** The binary64 value nearest to [(-1)^neg * a / b] ([a, b > 0]), with
    the overflow flag of [floatBits]/[atofHex]: the exponent of the last
    place is that of a 53-bit mantissa in the binade of [a / b], or the
    subnormal one; a mantissa rounded up to [2^53] moves to the next
    binade. *)
Definition round (neg : bool) (a b : Z) : float64 * bool :=
  let e0 := Z.max (flog2 a b - mantbits) emin in
  let m0 := div_rne_pow2 a b e0 in
  let '(m, e) := if m0 =? 2 ^ (mantbits + 1) then (2 ^ mantbits, e0 + 1) else (m0, e0) in
  if m =? 0 then (F64zero neg, false)
  else if emax <? e then (F64inf neg, true)
  else (F64finite neg m e, false).

(** ** The verb [%f] *)

Definition digit_char (d : Z) : ascii := ascii_of_N (Z.to_N (48 + d)).

(** The last [n] decimal digits of [k], most significant first. *)
Fixpoint digits_be (n : nat) (k : Z) : string :=
  match n with
  | O => EmptyString
  | S n' => digits_be n' (k / 10) ++ String (digit_char (k mod 10)) EmptyString
  end.

(** [fmtF] of strconv/ftoa.go at precision 6 on the value [k / 10^6]:
    the integer part without leading zeros (["0"] when it is zero), the
    dot and six decimals. *)
Definition fixed6 (k : Z) : string := Itoa (k / 10 ^ 6) ++ "." ++ digits_be 6 k.

Definition sign (neg : bool) : string := if neg then "-" else "".

(** [fmt.Sprintf("%f", x)]: [AppendFloat(x, 'f', 6, 64)] rounds the exact
    binary value to six decimals, ties to even ([bigFtoa], [d.Round]);
    [fmtFloat] drops the ['+'] of a positive number, keeps it on
    ["+Inf"] and drops it on ["NaN"]. *)
Definition fmt_f (x : float64) : string :=
  match x with
  | F64zero neg => sign neg ++ fixed6 0
  | F64finite neg m e => sign neg ++ fixed6 (div_rne_pow2 (m * 10 ^ 6) 1 (- e))
  | F64inf neg => if neg then "-Inf" else "+Inf"
  | F64nan => "NaN"
  end.

(** ** [strconv.ParseFloat] *)

(** [lower] of strconv/atoi.go: [c | ('x' - 'X')]. *)
Definition lower (c : ascii) : ascii := ascii_of_N (N.lor (N_of_ascii c) 32).

Definition is_digit (c : ascii) : bool := (48 <=? N_of_ascii c)%N && (N_of_ascii c <=? 57)%N.
Definition digit_val (c : ascii) : Z := Z.of_N (N_of_ascii c) - 48.
Definition is_hex_letter (c : ascii) : bool := (97 <=? N_of_ascii c)%N && (N_of_ascii c <=? 102)%N.

(** [commonPrefixLenIgnoreCase(s, prefix)], [prefix] in lower case. *)
Fixpoint commonPrefixLenIgnoreCase (s prefix : string) : nat :=
  match s, prefix with
  | String c s', String p prefix' =>
      if Ascii.eqb (to_lower_byte c) p then S (commonPrefixLenIgnoreCase s' prefix') else O
  | _, _ => O
  end.

(** The ['i'] case of [special], reached also by fallthrough after a sign:
    ["inf"] or ["infinity"], a longer prefix of ["infinity"] consuming
    only ["inf"]. *)
Definition special_inf (neg : bool) (nsign : nat) (s : string) : option (float64 * nat) :=
  let n := commonPrefixLenIgnoreCase s "infinity" in
  let n := if (3 <? n)%nat && (n <? 8)%nat then 3%nat else n in
  if (n =? 3)%nat || (n =? 8)%nat then Some (F64inf neg, (nsign + n)%nat) else None.

(** [special(s)]: infinities and NaN, with the number of bytes read. *)
Definition special (s : string) : option (float64 * nat) :=
  match s with
  | EmptyString => None
  | String c s' =>
      if Ascii.eqb c "+" || Ascii.eqb c "-" then special_inf (Ascii.eqb c "-") 1 s'
      else if Ascii.eqb c "i" || Ascii.eqb c "I" then special_inf false 0 s
      else if Ascii.eqb c "n" || Ascii.eqb c "N" then
        if (commonPrefixLenIgnoreCase s "nan" =? 3)%nat then Some (F64nan, 3%nat) else None
      else None
  end.

(** The variables of [readFloat]'s mantissa loop. *)
Record rf_state := mkRF {
  rf_mantissa : Z; rf_nd : Z; rf_dp : Z;
  rf_sawdot : bool; rf_sawdigits : bool; rf_underscores : bool }.

(** A decimal digit in the mantissa loop: a leading zero moves the
    decimal point instead of counting as a digit. *)
Definition digit_step (base : Z) (st : rf_state) (c : ascii) : rf_state :=
  let 'mkRF mant nd dp sawdot _ u := st in
  if Ascii.eqb c "0" && (nd =? 0) then mkRF mant nd (dp - 1) sawdot true u
  else mkRF (mant * base + digit_val c) (nd + 1) dp sawdot true u.

(** The mantissa loop of [readFloat]: underscores are skipped and noted,
    a second dot ends the loop, a hex letter is a digit in base 16. *)
Fixpoint mant_loop (base : Z) (st : rf_state) (s : string) : rf_state * string :=
  match s with
  | EmptyString => (st, s)
  | String c s' =>
      let 'mkRF mant nd dp sawdot sawdigits u := st in
      if Ascii.eqb c "_" then mant_loop base (mkRF mant nd dp sawdot sawdigits true) s'
      else if Ascii.eqb c "." then
        if sawdot then (st, s) else mant_loop base (mkRF mant nd nd true sawdigits u) s'
      else if is_digit c then mant_loop base (digit_step base st c) s'
      else if (base =? 16) && is_hex_letter (lower c) then
        mant_loop base (mkRF (mant * 16 + (Z.of_N (N_of_ascii (lower c)) - 97 + 10)) (nd + 1) dp
                        sawdot true u) s'
      else (st, s)
  end.

(** The digits of the exponent: past 10000 they are read but not added. *)
Fixpoint exp_loop (e : Z) (u : bool) (s : string) : Z * bool * string :=
  match s with
  | EmptyString => (e, u, s)
  | String c s' =>
      if Ascii.eqb c "_" then exp_loop e true s'
      else if is_digit c then exp_loop (if e <? 10000 then e * 10 + digit_val c else e) u s'
      else (e, u, s)
  end.

Definition read_sign (s : string) : bool * string :=
  match s with
  | String c s' => if Ascii.eqb c "+" then (false, s') else if Ascii.eqb c "-" then (true, s') else (false, s)
  | EmptyString => (false, s)
  end.

(** The base prefix ["0x"], taken only when a byte follows it. *)
Definition read_prefix (s : string) : bool * string :=
  match s with
  | String z (String x (String _ _ as t)) =>
      if Ascii.eqb z "0" && Ascii.eqb (lower x) "x" then (true, t) else (false, s)
  | _ => (false, s)
  end.

(** The optional exponent ([e], or the [p] a hex mantissa must have): the
    shift of the point, the underscores seen, the rest; [None] on a
    syntax error. *)
Definition read_exp (hex u : bool) (s : string) : option (Z * bool * string) :=
  let absent := if hex then None else Some (0, u, s) in
  match s with
  | String c t =>
      if Ascii.eqb (lower c) (if hex then "p" else "e")%char then
        let '(esign, t') :=
          match t with
          | String c' t'' => if Ascii.eqb c' "+" then (1, t'') else if Ascii.eqb c' "-" then (-1, t'') else (1, t)
          | EmptyString => (1, t)
          end in
        match t' with
        | String d _ => if is_digit d then let '(e, u', r) := exp_loop 0 u t' in Some (e * esign, u', r) else None
        | EmptyString => None
        end
      else absent
  | EmptyString => absent
  end.

(** The states of [underscoreOK]'s scan: ['^'], ['0'], ['_'], ['!']. *)
Inductive saw_class : Set := SawStart | SawDigit | SawUnderscore | SawOther.

Definition saw_underscore (saw : saw_class) : bool := if saw is SawUnderscore then true else false.

Fixpoint underscore_loop (hex : bool) (saw : saw_class) (s : string) : bool :=
  match s with
  | EmptyString => negb (saw_underscore saw)
  | String c s' =>
      if is_digit c || (hex && is_hex_letter (lower c)) then underscore_loop hex SawDigit s'
      else if Ascii.eqb c "_" then
        if saw is SawDigit then underscore_loop hex SawUnderscore s' else false
      else if saw_underscore saw then false
      else underscore_loop hex SawOther s'
  end.

(** [underscoreOK(s)]: an underscore only between digits, or between the
    base prefix and a digit. *)
Definition underscoreOK (s : string) : bool :=
  let s := snd (read_sign s) in
  match s with
  | String z (String b s') =>
      if Ascii.eqb z "0" && (Ascii.eqb (lower b) "b" || Ascii.eqb (lower b) "o" || Ascii.eqb (lower b) "x")
      then underscore_loop (Ascii.eqb (lower b) "x") SawDigit s'
      else underscore_loop false SawStart s
  | _ => underscore_loop false SawStart s
  end.

(** [readFloat(s)]: the mantissa, the exponent of its last digit (decimal,
    or binary for a hex mantissa), the sign, the base, and the unread
    rest; [None] where Go returns [ok = false]. *)
Definition readFloat (s : string) : option (Z * Z * bool * bool * string) :=
  match s with
  | EmptyString => None
  | _ =>
    let '(neg, s1) := read_sign s in
    let '(hex, s2) := read_prefix s1 in
    let '(st, s3) := mant_loop (if hex then 16 else 10) (mkRF 0 0 0 false false false) s2 in
    if negb (rf_sawdigits st) then None else
    let dp := if rf_sawdot st then rf_dp st else rf_nd st in
    let '(dp, ndMant) := if hex then (dp * 4, rf_nd st * 4) else (dp, rf_nd st) in
    match read_exp hex (rf_underscores st) s3 with
    | None => None
    | Some (shift, u, rest) =>
        let exp := if rf_mantissa st =? 0 then 0 else dp + shift - ndMant in
        if u && negb (underscoreOK (str_take (String.length s - String.length rest) s)) then None
        else Some (rf_mantissa st, exp, neg, hex, rest)
    end
  end.

(** The value of [mantissa * base^exp], correctly rounded, with the
    overflow flag. *)
Definition float_value (hex neg : bool) (mantissa exp : Z) : float64 * bool :=
  if mantissa =? 0 then (F64zero neg, false)
  else
    let base := if hex then 2 else 10 in
    if 0 <=? exp then round neg (mantissa * base ^ exp) 1 else round neg mantissa (base ^ (- exp)).

(** [atof64(s)]: the value, the bytes read and the error. *)
Definition atof64 (s : string) : float64 * nat * option NumErr :=
  match special s with
  | Some (f, n) => (f, n, None)
  | None =>
      match readFloat s with
      | None => (F64zero false, 0%nat, Some ErrSyntax)
      | Some (mantissa, exp, neg, hex, rest) =>
          let '(f, ovf) := float_value hex neg mantissa exp in
          (f, (String.length s - String.length rest)%nat, if ovf then Some ErrRange else None)
      end
  end.

(** [strconv.ParseFloat(s, 64)]: a prefix that is not the whole string is
    a syntax error. *)
Definition ParseFloat (s : string) : float64 * option NumErr :=
  let '(f, n, err) := atof64 s in
  if negb (n =? String.length s)%nat && (if err is Some ErrSyntax then false else true)
  then (F64zero false, Some ErrSyntax)
  else (f, err).

(** ** Lemmas on rounding *)

Lemma div_rne_spec (a b : Z) : 0 < b -> Z.abs (2 * a - 2 * b * div_rne a b) <= b.
Proof.
  intros Hb. unfold div_rne.
  pose proof (Z_div_mod_eq_full a b) as Ha. pose proof (Z.mod_pos_bound a b Hb) as Hr.
  set (q := a / b) in *. set (r := a mod b) in *.
  destruct (Z.compare_spec (2 * r) b); [destruct (Z.even q)|..]; lia.
Qed.

Lemma div_rne_unique (a b q : Z) : 0 < b -> Z.abs (2 * a - 2 * b * q) < b -> div_rne a b = q.
Proof.
  intros Hb Hq. pose proof (div_rne_spec a b Hb) as Hs.
  set (q' := div_rne a b) in *.
  destruct (Z.lt_trichotomy q' q) as [Hlt|[|Hlt]]; [|done|];
    [assert (b * q' + b <= b * q) by nia | assert (b * q + b <= b * q') by nia]; lia.
Qed.

Lemma flog2_le (a b : Z) : flog2 a b <= Z.log2 a - Z.log2 b.
Proof. unfold flog2. destruct ge_pow2; lia. Qed.

Lemma pow2_pos (e : Z) : 0 <= e -> 0 < 2 ^ e.
Proof. intros. apply Z.pow_pos_nonneg; lia. Qed.

Lemma pow2_split (e : Z) : 0 < e -> 2 ^ e = 2 * 2 ^ (e - 1).
Proof. intros. rewrite <- Z.pow_succ_r by lia. f_equal. lia. Qed.

(** Rounding into the binades below [2^31]: the exponent of the last
    place is at most [-21] and the mantissa is within half a unit of
    [a / b]. *)
Lemma round_small (neg : bool) (a b : Z) :
  0 < a -> 0 < b <= 2 ^ 21 -> Z.log2 a - Z.log2 b <= 30 ->
  exists m e, round neg a b = (F64finite neg m e, false) /\ e <= -21 /\
    Z.abs (2 * m * b - 2 * a * 2 ^ (- e)) <= b.
Proof.
  intros Ha Hb Hl. unfold round.
  pose proof (flog2_le a b).
  set (e0 := Z.max (flog2 a b - mantbits) emin).
  assert (He0 : e0 <= -22) by (unfold e0, mantbits, emin; lia).
  assert (HE : 2 ^ 22 <= 2 ^ (- e0)) by (apply Z.pow_le_mono_r; lia).
  unfold div_rne_pow2, up2, dn2. rewrite (Z.max_r e0 0), Z.max_l, Z.mul_1_r by lia.
  pose proof (div_rne_spec (a * 2 ^ (- e0)) b ltac:(lia)) as Hs.
  set (m0 := div_rne (a * 2 ^ (- e0)) b) in *.
  assert (2 ^ (- e0) <= a * 2 ^ (- e0)) by nia.
  assert (Hm0 : 0 < m0).
  { assert (0 < b * m0) by (change (2 ^ 22) with (2 * 2 ^ 21) in HE; lia). nia. }
  destruct (Z.eqb_spec m0 (2 ^ (mantbits + 1))) as [Heq|Hne].
  - rewrite (proj2 (Z.eqb_neq _ 0)) by (unfold mantbits; lia).
    rewrite (proj2 (Z.ltb_ge emax _)) by (unfold emax; lia).
    do 2 eexists; split; [reflexivity|split; [lia|]].
    rewrite Heq in Hs. unfold mantbits in *. rewrite (pow2_split (- e0)) in Hs by lia.
    replace (- (e0 + 1)) with (- e0 - 1) by lia.
    replace (2 ^ (52 + 1)) with (2 * 2 ^ 52) in Hs by reflexivity. lia.
  - rewrite (proj2 (Z.eqb_neq _ 0)) by lia.
    rewrite (proj2 (Z.ltb_ge emax _)) by (unfold emax; lia).
    do 2 eexists; split; [reflexivity|split; [lia|lia]].
Qed.

(** [%f] of a value within half a unit of [a * c / 10^6] (its last place
    at most [2^-20], finer than the sixth decimal) prints [a * c]. *)
Lemma div_rne_pow2_back (m e a b c : Z) :
  0 < b -> 0 <= c -> b * c = 10 ^ 6 -> e <= -20 ->
  Z.abs (2 * m * b - 2 * a * 2 ^ (- e)) <= b ->
  div_rne_pow2 (m * 10 ^ 6) 1 (- e) = a * c.
Proof.
  intros Hb Hc Hbc He Hx. unfold div_rne_pow2, up2, dn2.
  rewrite (Z.max_r (- - e) 0), Z.max_l, Z.mul_1_r, Z.mul_1_l by lia.
  assert (H20 : 2 ^ 20 <= 2 ^ (- e)) by (apply Z.pow_le_mono_r; lia).
  apply div_rne_unique; [lia|].
  replace (2 * (m * 10 ^ 6) - 2 * 2 ^ (- e) * (a * c))
    with (c * (2 * m * b - 2 * a * 2 ^ (- e))) by (rewrite <- Hbc; ring).
  rewrite Z.abs_mul, Z.abs_eq by lia.
  assert (c * Z.abs (2 * m * b - 2 * a * 2 ^ (- e)) <= c * b) by (apply Z.mul_le_mono_nonneg_l; lia).
  change (2 ^ 20) with 1048576 in H20. lia.
Qed.

(** ** Lemmas on reading a plain decimal *)

(** The value of a digit string, read from the left. *)
Definition dv_step (a : Z) (c : ascii) : Z := a * 10 + digit_val c.
Definition digits_value (l : list ascii) : Z := fold_left dv_step l 0.

(** A coordinate as the input file writes it: an optional minus sign,
    the integer digits, a dot and the decimals. *)
Definition plain_decimal (neg : bool) (I F : list ascii) : string :=
  sign neg ++ string_of_list_ascii (I ++ "."%char :: F).

Lemma is_digit_cases (c : ascii) :
  is_digit c = true ->
  c = "0"%char \/ c = "1"%char \/ c = "2"%char \/ c = "3"%char \/ c = "4"%char \/
  c = "5"%char \/ c = "6"%char \/ c = "7"%char \/ c = "8"%char \/ c = "9"%char.
Proof.
  destruct c as [[] [] [] [] [] [] [] []]; intros H; try discriminate H;
    repeat (first [left; reflexivity | right]); reflexivity.
Qed.

(** Case analysis on a digit, each case closed by computation. *)
Ltac digit_cases H :=
  apply is_digit_cases in H; repeat destruct H as [H|H]; subst; try reflexivity.

Lemma digit_char_val (c : ascii) : is_digit c = true -> digit_char (digit_val c) = c.
Proof. intros H. digit_cases H. Qed.

Lemma digit_val_bound (c : ascii) : is_digit c = true -> 0 <= digit_val c <= 9.
Proof. intros H. digit_cases H; vm_compute; split; discriminate. Qed.

Lemma digit_val_pos (c : ascii) : is_digit c = true -> Ascii.eqb c "0" = false -> 0 < digit_val c.
Proof. intros H. digit_cases H; discriminate. Qed.

Lemma string_of_list_ascii_app (l1 l2 : list ascii) :
  string_of_list_ascii (l1 ++ l2) = string_of_list_ascii l1 ++ string_of_list_ascii l2.
Proof. induction l1 as [|c l1 IH]; [done|]. simpl. rewrite IH. done. Qed.

Lemma string_of_list_ascii_length (l : list ascii) : String.length (string_of_list_ascii l) = List.length l.
Proof. induction l as [|c l IH]; [done|]. simpl. rewrite IH. done. Qed.

Lemma fold_dv_step (l : list ascii) (a : Z) :
  fold_left dv_step l a = a * 10 ^ Z.of_nat (List.length l) + digits_value l.
Proof.
  unfold digits_value. revert a. induction l as [|c l IH]; intros a; simpl; [lia|].
  rewrite (IH (dv_step a c)), (IH (dv_step 0 c)). unfold dv_step.
  rewrite Nat2Z.inj_succ, Z.pow_succ_r by lia. ring.
Qed.

Lemma digits_value_app (l1 l2 : list ascii) :
  digits_value (l1 ++ l2) = digits_value l1 * 10 ^ Z.of_nat (List.length l2) + digits_value l2.
Proof. unfold digits_value at 1. rewrite fold_left_app. apply fold_dv_step. Qed.

Lemma digits_value_single (c : ascii) : digits_value [c] = digit_val c.
Proof. reflexivity. Qed.

Lemma digits_value_bound (l : list ascii) :
  Forall (fun c => is_digit c = true) l -> 0 <= digits_value l < 10 ^ Z.of_nat (List.length l).
Proof.
  induction l as [|c l IH] using rev_ind; intros Hl; [unfold digits_value; simpl; lia|].
  apply Forall_app in Hl as [Hl Hc]. apply Forall_cons_1 in Hc as [Hc _].
  pose proof (digit_val_bound c Hc). specialize (IH Hl).
  rewrite digits_value_app, digits_value_single, List.length_app, Nat2Z.inj_add, Z.pow_add_r by lia.
  change (Z.of_nat (List.length [c])) with 1. lia.
Qed.

Lemma digits_be_value (l : list ascii) :
  Forall (fun c => is_digit c = true) l -> digits_be (List.length l) (digits_value l) = string_of_list_ascii l.
Proof.
  induction l as [|c l IH] using rev_ind; intros Hl; [done|].
  apply Forall_app in Hl as [Hl Hc]. apply Forall_cons_1 in Hc as [Hc _].
  pose proof (digit_val_bound c Hc).
  rewrite digits_value_app, digits_value_single, string_of_list_ascii_app, List.length_app.
  change (List.length [c]) with 1%nat. rewrite Nat.add_1_r. cbn [digits_be].
  change (10 ^ Z.of_nat 1) with 10.
  rewrite Z.div_add_l, Z.div_small, Z.add_0_r by lia.
  rewrite Z.add_comm, Z_mod_plus, Z.mod_small by lia. rewrite IH, digit_char_val by done. done.
Qed.

(** The mantissa loop over digits is a fold of [digit_step], which keeps
    the mantissa the value of the digits read and adds one to
    [nd - dp] per digit. *)
Lemma mant_loop_digits (L : list ascii) (st : rf_state) (r : list ascii) :
  Forall (fun c => is_digit c = true) L ->
  mant_loop 10 st (string_of_list_ascii (L ++ r)) =
  mant_loop 10 (fold_left (digit_step 10) L st) (string_of_list_ascii r).
Proof.
  revert st. induction L as [|c L IH]; intros st HL; [done|].
  apply Forall_cons_1 in HL as [Hc HL]. cbn [fold_left]. rewrite <- IH by done.
  assert (Ascii.eqb c "_" = false /\ Ascii.eqb c "." = false) as [E1 E2] by (digit_cases Hc; done).
  destruct st. cbn [app string_of_list_ascii mant_loop]. rewrite E1, E2, Hc. done.
Qed.

Definition rf_inv (st : rf_state) : Prop :=
  (rf_mantissa st = 0 <-> rf_nd st = 0) /\ 0 <= rf_mantissa st /\ 0 <= rf_nd st.

Lemma fold_digit_step (L : list ascii) (st : rf_state) :
  Forall (fun c => is_digit c = true) L -> rf_inv st ->
  let st' := fold_left (digit_step 10) L st in
  rf_inv st' /\ rf_mantissa st' = fold_left dv_step L (rf_mantissa st) /\
  rf_nd st' - rf_dp st' = rf_nd st - rf_dp st + Z.of_nat (List.length L) /\
  rf_sawdot st' = rf_sawdot st /\ rf_underscores st' = rf_underscores st /\
  rf_sawdigits st' = (rf_sawdigits st || if L is [] then false else true).
Proof.
  revert st. induction L as [|c L IH]; intros st HL Hinv; simpl.
  { split; [exact Hinv|]. rewrite orb_false_r. repeat split; lia. }
  apply Forall_cons_1 in HL as [Hc HL].
  destruct st as [mant nd dp sawdot sawdigits u]; unfold rf_inv in Hinv; simpl in Hinv.
  pose proof (digit_val_bound c Hc).
  destruct (Ascii.eqb c "0" && (nd =? 0)) eqn:E.
  - assert (digit_step 10 (mkRF mant nd dp sawdot sawdigits u) c = mkRF mant nd (dp - 1) sawdot true u)
      as -> by (simpl; rewrite E; done).
    apply andb_prop in E as [E1 E2]. apply Ascii.eqb_eq in E1. apply Z.eqb_eq in E2. subst c.
    destruct (IH (mkRF mant nd (dp - 1) sawdot true u)) as (? & -> & ? & ? & ? & ?);
      [done|unfold rf_inv; simpl; lia|].
    simpl in *. replace (dv_step mant "0") with mant by (unfold dv_step; vm_compute digit_val; lia).
    rewrite orb_true_r in *. split; [done|]. repeat split; try done; lia.
  - assert (digit_step 10 (mkRF mant nd dp sawdot sawdigits u) c =
            mkRF (mant * 10 + digit_val c) (nd + 1) dp sawdot true u) as -> by (simpl; rewrite E; done).
    assert (0 < digit_val c \/ nd <> 0) as Hd.
    { destruct (Ascii.eqb c "0") eqn:E0; [simpl in E; apply Z.eqb_neq in E; lia|].
      left. apply digit_val_pos; done. }
    destruct (IH (mkRF (mant * 10 + digit_val c) (nd + 1) dp sawdot true u)) as (? & -> & ? & ? & ? & ?);
      [done|unfold rf_inv; simpl; lia|].
    simpl in *. rewrite orb_true_r in *. split; [done|]. unfold dv_step at 2. repeat split; try done; lia.
Qed.

Definition plain_char (c : ascii) : bool := is_digit c || Ascii.eqb c ".".

Lemma lower_plain_char (c : ascii) : plain_char c = true -> Ascii.eqb (lower c) "x" = false.
Proof.
  unfold plain_char. intros [H|H]%orb_true_iff; [digit_cases H|].
  apply Ascii.eqb_eq in H. subst. reflexivity.
Qed.

Lemma plain_chars (I F : list ascii) :
  Forall (fun c => is_digit c = true) (I ++ F) -> Forall (fun c => plain_char c = true) (I ++ "."%char :: F).
Proof.
  intros Hd. apply Forall_app in Hd as [HI HF]. apply Forall_app; split; [|constructor; [done|]];
    eapply Forall_impl; eauto; intros c Hc; unfold plain_char; rewrite Hc; done.
Qed.

Lemma read_sign_plain (neg : bool) (I F : list ascii) :
  Forall (fun c => is_digit c = true) I ->
  read_sign (plain_decimal neg I F) = (neg, string_of_list_ascii (I ++ "."%char :: F)).
Proof.
  intros HI. unfold plain_decimal. destruct neg; [reflexivity|].
  destruct I as [|c I]; [reflexivity|]. apply Forall_cons_1 in HI as [Hc _]. digit_cases Hc.
Qed.

Lemma read_prefix_plain (l : list ascii) :
  Forall (fun c => plain_char c = true) l -> read_prefix (string_of_list_ascii l) = (false, string_of_list_ascii l).
Proof.
  intros Hl. destruct l as [|z [|x [|y l]]]; try reflexivity.
  apply Forall_cons_1 in Hl as [_ Hl]. apply Forall_cons_1 in Hl as [Hx _].
  simpl. rewrite lower_plain_char, andb_false_r by done. reflexivity.
Qed.

Lemma special_plain (neg : bool) (I F : list ascii) :
  Forall (fun c => is_digit c = true) I -> special (plain_decimal neg I F) = None.
Proof.
  intros HI. unfold plain_decimal.
  destruct I as [|c I]; [destruct neg; reflexivity|].
  apply Forall_cons_1 in HI as [Hc _]. destruct neg; digit_cases Hc.
Qed.

Lemma mant_loop_dot (st : rf_state) (s : string) :
  rf_sawdot st = false ->
  mant_loop 10 st (String "." s) =
  mant_loop 10 (mkRF (rf_mantissa st) (rf_nd st) (rf_nd st) true (rf_sawdigits st) (rf_underscores st)) s.
Proof. destruct st; simpl; intros ->; reflexivity. Qed.

(** The mantissa loop on [I.F] reads everything: the mantissa is the
    value of the digits and the point stands [length F] digits from the
    end. *)
Lemma mant_loop_plain (I F : list ascii) :
  Forall (fun c => is_digit c = true) (I ++ F) -> (I ++ F)%list <> [] ->
  exists st, mant_loop 10 (mkRF 0 0 0 false false false) (string_of_list_ascii (I ++ "."%char :: F)) = (st, "") /\
    rf_mantissa st = digits_value (I ++ F) /\ rf_dp st - rf_nd st = - Z.of_nat (List.length F) /\
    rf_sawdot st = true /\ rf_sawdigits st = true /\ rf_underscores st = false.
Proof.
  intros Hd Hne. apply Forall_app in Hd as [HI HF].
  rewrite mant_loop_digits by done.
  destruct (fold_digit_step I (mkRF 0 0 0 false false false) HI) as (Hinv1 & Hm1 & Hn1 & Hsd1 & Hu1 & Hsg1);
    [unfold rf_inv; simpl; lia|].
  set (st1 := fold_left (digit_step 10) I _) in *. simpl in Hinv1, Hm1, Hn1, Hsd1, Hu1, Hsg1.
  change (string_of_list_ascii ("."%char :: F)) with (String "." (string_of_list_ascii F)).
  rewrite mant_loop_dot by done.
  replace (string_of_list_ascii F) with (string_of_list_ascii (F ++ [])) by (rewrite app_nil_r; done).
  rewrite mant_loop_digits by done.
  set (st1' := mkRF _ _ _ _ _ _).
  destruct (fold_digit_step F st1' HF) as (_ & Hm2 & Hn2 & Hsd2 & Hu2 & Hsg2); [done|].
  eexists; split; [reflexivity|]. unfold st1' in *; simpl in *.
  split; [unfold digits_value; rewrite fold_left_app, Hm2, Hm1; done|]. split; [lia|]. split; [done|]. split; [|congruence].
  rewrite Hsg2, Hsg1. destruct I, F; done.
Qed.

Lemma readFloat_plain (neg : bool) (I F : list ascii) :
  Forall (fun c => is_digit c = true) (I ++ F) -> (I ++ F)%list <> [] ->
  readFloat (plain_decimal neg I F) =
  Some (digits_value (I ++ F), if digits_value (I ++ F) =? 0 then 0 else - Z.of_nat (List.length F),
        neg, false, EmptyString).
Proof.
  intros Hd Hne.
  destruct (mant_loop_plain I F Hd Hne) as (st & Hml & Hm & Hdp & Hsd & Hsg & Hu).
  pose proof (plain_chars I F Hd) as Hp. apply Forall_app in Hd as [HI _].
  unfold readFloat. remember (plain_decimal neg I F) as s eqn:Hs.
  destruct s as [|c s']; [destruct neg, I; discriminate|]. rewrite Hs.
  rewrite read_sign_plain, read_prefix_plain by done. cbv beta iota zeta.
  rewrite Hml. destruct st as [m n d sd sg u]; simpl in *; subst.
  cbn [negb andb]. destruct (_ =? 0); [done|]. repeat f_equal. lia.
Qed.

Lemma ParseFloat_plain (neg : bool) (I F : list ascii) :
  Forall (fun c => is_digit c = true) (I ++ F) -> (I ++ F)%list <> [] ->
  let D := digits_value (I ++ F) in
  let '(f, ovf) := float_value false neg D (if D =? 0 then 0 else - Z.of_nat (List.length F)) in
  ParseFloat (plain_decimal neg I F) = (f, if ovf then Some ErrRange else None).
Proof.
  intros Hd Hne. pose proof Hd as Hd'. apply Forall_app in Hd' as [HI _].
  unfold ParseFloat, atof64. rewrite special_plain, readFloat_plain by done.
  cbv zeta. destruct float_value as [f ovf].
  rewrite Nat.sub_0_r, Nat.eqb_refl. done.
Qed.

(** ** Lemmas on the digits [%f] prints *)

Lemma digits_be_add (n : nat) (k j : Z) : digits_be n (k + 10 ^ Z.of_nat n * j) = digits_be n k.
Proof.
  revert k j. induction n as [|n IH]; intros k j; [done|].
  cbn [digits_be]. rewrite Nat2Z.inj_succ, Z.pow_succ_r by lia.
  replace (k + 10 * 10 ^ Z.of_nat n * j) with (k + (10 ^ Z.of_nat n * j) * 10) by ring.
  rewrite Z.div_add, Z_mod_plus, IH by lia. done.
Qed.

Lemma digits_be_shift (n z : nat) (x : Z) :
  digits_be (z + n) (x * 10 ^ Z.of_nat z) = digits_be n x ++ digits_be z 0.
Proof.
  induction z as [|z IH].
  - rewrite Z.mul_1_r, str_app_nil_r. done.
  - cbn [digits_be Nat.add]. rewrite Nat2Z.inj_succ, Z.pow_succ_r by lia.
    replace (x * (10 * 10 ^ Z.of_nat z)) with (x * 10 ^ Z.of_nat z * 10) by ring.
    rewrite Z.div_mul, Z_mod_mult, IH by lia. rewrite str_app_assoc. done.
Qed.

(** ** Rounding gives binary64 values *)

Lemma up2_pos (x : Z) : 0 < up2 x.
Proof. apply Z.pow_pos_nonneg; lia. Qed.

Lemma dn2_pos (x : Z) : 0 < dn2 x.
Proof. apply Z.pow_pos_nonneg; lia. Qed.

#[local] Hint Resolve up2_pos dn2_pos : go.

Ltac max_cases := repeat first [rewrite Z.max_l by lia | rewrite Z.max_r by lia].

(** [2^(x+d) = 2^d * 2^x] on the fractions [up2 / dn2]. *)
Lemma up2_dn2_shift (x d : Z) : 0 <= d -> up2 (x + d) * dn2 x = 2 ^ d * up2 x * dn2 (x + d).
Proof.
  intros Hd. unfold up2, dn2.
  destruct (Z.leb_spec 0 x); [|destruct (Z.leb_spec 0 (x + d))]; max_cases;
    rewrite <- !Z.pow_add_r by lia; f_equal; lia.
Qed.

(** [2^u / 2^v = 2^(u-v)] on the fractions [up2 / dn2]. *)
Lemma pow2_ratio (u v : Z) : 0 <= u -> 0 <= v -> 2 ^ u * dn2 (u - v) = 2 ^ v * up2 (u - v).
Proof.
  intros Hu Hv. unfold up2, dn2.
  destruct (Z.leb_spec v u); max_cases; rewrite <- !Z.pow_add_r by lia; f_equal; lia.
Qed.

(** [2^(x+d) <= a / b] exactly when [2^d * 2^x <= a / b]. *)
Lemma shift_le (a b x d : Z) :
  0 <= a -> 0 <= b -> 0 <= d ->
  b * up2 (x + d) <= a * dn2 (x + d) <-> 2 ^ d * b * up2 x <= a * dn2 x.
Proof.
  intros Ha Hb Hd. pose proof (up2_dn2_shift x d Hd) as Hs.
  pose proof (dn2_pos x). pose proof (dn2_pos (x + d)).
  rewrite (Z.mul_le_mono_pos_r _ _ (dn2 x)), (Z.mul_le_mono_pos_r (2 ^ d * b * up2 x) _ (dn2 (x + d))) by lia.
  replace (b * up2 (x + d) * dn2 x) with (b * (up2 (x + d) * dn2 x)) by ring. rewrite Hs.
  split; intros Hx; nia.
Qed.

(** [a / b < 2^(x+d)] exactly when [a / b < 2^d * 2^x]. *)
Lemma shift_lt (a b x d : Z) :
  0 <= a -> 0 <= b -> 0 <= d ->
  a * dn2 (x + d) < b * up2 (x + d) <-> a * dn2 x < 2 ^ d * b * up2 x.
Proof.
  intros Ha Hb Hd. pose proof (up2_dn2_shift x d Hd) as Hs.
  pose proof (dn2_pos x). pose proof (dn2_pos (x + d)).
  rewrite (Z.mul_lt_mono_pos_r (dn2 x)), (Z.mul_lt_mono_pos_r (dn2 (x + d)) (a * dn2 x)) by lia.
  replace (b * up2 (x + d) * dn2 x) with (b * (up2 (x + d) * dn2 x)) by ring. rewrite Hs.
  split; intros Hx; nia.
Qed.

(** [flog2 a b] is the binade of [a / b]: [2^l <= a / b < 2^(l+1)]. *)
Lemma flog2_spec (a b : Z) :
  0 < a -> 0 < b ->
  b * up2 (flog2 a b) <= a * dn2 (flog2 a b) /\ a * dn2 (flog2 a b + 1) < b * up2 (flog2 a b + 1).
Proof.
  intros Ha Hb.
  destruct (Z.log2_spec a Ha) as [Ha1 Ha2]. destruct (Z.log2_spec b Hb) as [Hb1 Hb2].
  pose proof (Z.log2_nonneg a). pose proof (Z.log2_nonneg b).
  set (la := Z.log2 a) in *. set (lb := Z.log2 b) in *.
  assert (HA : a * dn2 (la - lb + 1) < b * up2 (la - lb + 1)).
  { pose proof (pow2_ratio (Z.succ la) lb ltac:(lia) ltac:(lia)) as Hr.
    replace (Z.succ la - lb) with (la - lb + 1) in Hr by lia.
    pose proof (dn2_pos (la - lb + 1)). pose proof (up2_pos (la - lb + 1)). nia. }
  assert (HB : b * up2 (la - lb - 1) <= a * dn2 (la - lb - 1)).
  { pose proof (pow2_ratio la (Z.succ lb) ltac:(lia) ltac:(lia)) as Hr.
    replace (la - Z.succ lb) with (la - lb - 1) in Hr by lia.
    pose proof (dn2_pos (la - lb - 1)). pose proof (up2_pos (la - lb - 1)). nia. }
  unfold flog2, ge_pow2. fold la lb.
  destruct (Z.leb_spec (b * up2 (la - lb)) (a * dn2 (la - lb))); split; try lia.
  replace (la - lb - 1 + 1) with (la - lb) by lia. lia.
Qed.

Lemma div_rne_ge (A B lo : Z) : 0 < B -> lo * B <= A -> lo <= div_rne A B.
Proof. intros HB H. pose proof (div_rne_spec A B HB). nia. Qed.

Lemma div_rne_le (A B hi : Z) : 0 < B -> A < hi * B -> div_rne A B <= hi.
Proof. intros HB H. pose proof (div_rne_spec A B HB). nia. Qed.

Ltac bool_lia :=
  repeat (rewrite ?andb_true_iff, ?orb_true_iff, ?Z.ltb_lt, ?Z.leb_le, ?Z.eqb_eq); lia.

(** [round] gives a binary64 value: a finite result has a mantissa of
    53 bits, normal unless its exponent is the least one. *)
Lemma round_valid (neg : bool) (a b : Z) : 0 < a -> 0 < b -> valid (fst (round neg a b)) = true.
Proof.
  intros Ha Hb. destruct (flog2_spec a b Ha Hb) as [B1 B2].
  unfold round. set (l := flog2 a b) in *.
  set (e0 := Z.max (l - mantbits) emin).
  assert (Hhi : a * dn2 e0 < 2 ^ 53 * b * up2 e0).
  { apply (shift_lt a b e0 53); try lia.
    replace (e0 + 53) with (l + 1 + (e0 + 53 - (l + 1))) by lia.
    apply (shift_lt a b (l + 1)); [lia|lia|unfold e0, mantbits, emin; lia|].
    pose proof (Z.pow_pos_nonneg 2 (e0 + 53 - (l + 1)) ltac:(lia) ltac:(unfold e0, mantbits, emin; lia)).
    pose proof (up2_pos (l + 1)). nia. }
  assert (Hlo : e0 = l - 52 -> 2 ^ 52 <= div_rne_pow2 a b e0).
  { intros He. apply div_rne_ge; [pose proof (up2_pos e0); lia|].
    rewrite Z.mul_assoc. apply (shift_le a b e0 52); [lia|lia|lia|]. replace (e0 + 52) with l by lia. lia. }
  assert (Hm : 0 <= div_rne_pow2 a b e0 <= 2 ^ 53).
  { pose proof (up2_pos e0). pose proof (dn2_pos e0).
    split; [apply div_rne_ge; nia|apply div_rne_le; nia]. }
  assert (He0 : emin <= e0) by (unfold e0; lia).
  unfold mantbits in *. change (52 + 1) with 53.
  set (m0 := div_rne_pow2 a b e0) in *.
  assert (Hcase : e0 = l - 52 \/ e0 = emin) by (unfold e0, mantbits; lia).
  destruct (Z.eqb_spec m0 (2 ^ 53)) as [E|E]; cbv beta iota zeta;
    repeat match goal with
    | |- context [?x =? 0] => destruct (Z.eqb_spec x 0)
    | |- context [emax <? ?x] => destruct (Z.ltb_spec emax x)
    end; try done; cbn [fst]; unfold valid, emin, emax, mantbits in *; change (52 + 1) with 53; bool_lia.
Qed.

Lemma mant_loop_nonneg (base : Z) (st : rf_state) (s : string) :
  0 <= base -> 0 <= rf_mantissa st -> 0 <= rf_mantissa (fst (mant_loop base st s)).
Proof.
  revert st. induction s as [|c s IH]; intros st Hb Hm; [done|].
  destruct st as [mant nd dp sd sg u]; simpl in Hm |- *.
  destruct (Ascii.eqb c "_"); [apply IH; simpl; lia|].
  destruct (Ascii.eqb c "."); [destruct sd; [simpl; lia|apply IH; simpl; lia]|].
  destruct (is_digit c) eqn:Hd.
  { apply IH; [lia|]. pose proof (digit_val_bound c Hd). unfold digit_step.
    destruct (_ && _); simpl; nia. }
  destruct ((base =? 16) && is_hex_letter (lower c)) eqn:Hh; [|simpl; lia].
  apply IH; [lia|]. apply andb_prop in Hh as [_ Hh]. unfold is_hex_letter in Hh.
  apply andb_prop in Hh as [Hh _]. apply N.leb_le in Hh. simpl. lia.
Qed.

Lemma readFloat_nonneg (s : string) m exp neg hex rest :
  readFloat s = Some (m, exp, neg, hex, rest) -> 0 <= m.
Proof.
  unfold readFloat. intros H. destruct s as [|c s]; [discriminate|].
  destruct (read_sign _) as [neg' s1]. destruct (read_prefix s1) as [hex' s2].
  pose proof (mant_loop_nonneg (if hex' then 16 else 10) (mkRF 0 0 0 false false false) s2) as Hn.
  destruct (mant_loop _ _ s2) as [st s3]. simpl in Hn.
  repeat case_match; simplify_eq; apply Hn; lia.
Qed.

Lemma float_value_valid (hex neg : bool) (m exp : Z) :
  0 <= m -> valid (fst (float_value hex neg m exp)) = true.
Proof.
  intros Hm. unfold float_value. destruct (Z.eqb_spec m 0); [done|].
  destruct (Z.leb_spec 0 exp); apply round_valid; try lia;
    try apply Z.mul_pos_pos; try lia; apply Z.pow_pos_nonneg; destruct hex; lia.
Qed.

Lemma special_valid (s : string) f n : special s = Some (f, n) -> valid f = true.
Proof. unfold special, special_inf. intros H. repeat case_match; simplify_eq; done. Qed.

(** C27: Every value [strconv.ParseFloat(s, 64)] returns, whatever the
    string, is a binary64 value: a signed zero, an infinity, NaN, or a
    finite value whose mantissa has at most 53 bits, is normal unless its
    exponent is the least one, and whose exponent is in range. *)
Theorem ParseFloat_valid (s : string) : valid (fst (ParseFloat s)) = true.
Proof.
  unfold ParseFloat, atof64.
  destruct (special s) as [[f n]|] eqn:Hs.
  - apply special_valid in Hs. destruct (_ && _); done.
  - destruct (readFloat s) as [[[[[m exp] neg] hex] rest]|] eqn:Hr; [|cbn; destruct (negb _); reflexivity].
    pose proof (float_value_valid hex neg m exp (readFloat_nonneg _ _ _ _ _ _ Hr)) as Hv.
    destruct (float_value hex neg m exp) as [f ovf]. destruct (_ && _); done.
Qed.

(** ** A coordinate through [ParseFloat] and [%f] *)

Lemma float_value_dec (neg : bool) (D : Z) (f : nat) :
  0 < D -> float_value false neg D (- Z.of_nat f) = round neg D (10 ^ Z.of_nat f).
Proof.
  intros HD. unfold float_value. rewrite (proj2 (Z.eqb_neq D 0)) by lia.
  destruct (Z.leb_spec 0 (- Z.of_nat f)).
  - assert (f = 0%nat) as -> by lia. simpl. rewrite Z.mul_1_r. done.
  - rewrite Z.opp_involutive. done.
Qed.

Lemma log2_gap (a b : Z) : 0 < a -> 0 < b -> a < 2 ^ 30 * b -> Z.log2 a - Z.log2 b <= 30.
Proof.
  intros Ha Hb H. destruct (Z.log2_spec b Hb) as [_ Hb2].
  pose proof (Z.log2_nonneg b).
  assert (a < 2 ^ (31 + Z.log2 b)).
  { rewrite Z.pow_add_r, Z.pow_succ_r in * by lia. change (2 ^ 31) with (2 * 2 ^ 30). nia. }
  apply Z.log2_lt_pow2 in H1; lia.
Qed.

Lemma pow10_le (n : nat) : (n <= 6)%nat -> 0 < 10 ^ Z.of_nat n <= 10 ^ 6.
Proof.
  intros Hn. split; [apply Z.pow_pos_nonneg; lia|]. apply Z.pow_le_mono_r; lia.
Qed.

(** [%f] of [D / 10^f] for the digits [I.F] writes the integer part
    without leading zeros and the decimals padded with zeros. *)
Lemma fixed6_plain (I F : list ascii) :
  Forall (fun c => is_digit c = true) (I ++ F) -> (List.length F <= 6)%nat ->
  fixed6 (digits_value (I ++ F) * 10 ^ Z.of_nat (6 - List.length F)) =
  Itoa (digits_value I) ++ "." ++ string_of_list_ascii F ++ digits_be (6 - List.length F) 0.
Proof.
  intros Hd Hf. apply Forall_app in Hd as [HI HF].
  pose proof (digits_value_bound F HF). pose proof (digits_value_bound I HI).
  pose proof (pow10_le (6 - List.length F) ltac:(lia)).
  assert (Hp : 10 ^ Z.of_nat (List.length F) * 10 ^ Z.of_nat (6 - List.length F) = 10 ^ 6)
    by (rewrite <- Z.pow_add_r by lia; f_equal; lia).
  rewrite digits_value_app.
  set (vF := digits_value F) in *. set (z := 10 ^ Z.of_nat (6 - List.length F)) in *.
  replace ((digits_value I * 10 ^ Z.of_nat (List.length F) + vF) * z)
    with (vF * z + 10 ^ Z.of_nat 6 * digits_value I)
    by (change (10 ^ Z.of_nat 6) with (10 ^ 6); rewrite <- Hp; ring).
  unfold fixed6. rewrite digits_be_add.
  assert (E6 : digits_be 6 = digits_be ((6 - List.length F) + List.length F)) by (f_equal; lia).
  rewrite E6, digits_be_shift, digits_be_value by done.
  change (10 ^ Z.of_nat 6) with (10 ^ 6).
  rewrite (Z.mul_comm (10 ^ 6)), Z.div_add, Z.div_small, Z.add_0_l by nia. done.
Qed.

(** The digits [I.F] of a coordinate: at least one digit, at most nine
    before the dot and six after it. *)
Definition coordinate (I F : list ascii) : Prop :=
  Forall (fun c => is_digit c = true) (I ++ F) /\ (I ++ F)%list <> [] /\
  (List.length I <= 9)%nat /\ (List.length F <= 6)%nat.

(** The text of the coordinate [I.F]: the sign, the integer part without
    leading zeros, the decimals padded with zeros to six. *)
Definition coord_text (neg : bool) (I F : list ascii) : string :=
  sign neg ++ Itoa (digits_value I) ++ "." ++ string_of_list_ascii F ++ digits_be (6 - List.length F) 0.

Lemma ParseFloat_coordinate (neg : bool) (I F : list ascii) :
  coordinate I F ->
  exists x, ParseFloat (plain_decimal neg I F) = (x, None) /\ fmt_f x = coord_text neg I F.
Proof.
  intros (Hd & Hne & HI & HF). unfold coord_text.
  pose proof (ParseFloat_plain neg I F Hd Hne) as HP. cbv zeta in HP.
  rewrite <- fixed6_plain by done.
  pose proof (digits_value_bound _ Hd) as HD.
  rewrite List.length_app, Nat2Z.inj_add, Z.pow_add_r in HD by lia.
  pose proof (pow10_le (List.length F) HF) as Hb.
  assert (10 ^ Z.of_nat (List.length I) <= 10 ^ 9) by (apply Z.pow_le_mono_r; lia).
  destruct (Z.eqb_spec (digits_value (I ++ F)) 0) as [H0|H0].
  - rewrite H0 in HP |- *. eexists; split; [exact HP|]. done.
  - rewrite float_value_dec in HP by lia.
    destruct (round_small neg (digits_value (I ++ F)) (10 ^ Z.of_nat (List.length F)))
      as (m & e & Hr & He & Herr); [lia|lia|apply log2_gap; nia|].
    rewrite Hr in HP. exists (F64finite neg m e). split; [done|].
    cbn [fmt_f]. do 2 f_equal.
    apply (div_rne_pow2_back m e _ (10 ^ Z.of_nat (List.length F))); [lia|lia| |lia|done].
    rewrite <- Z.pow_add_r by lia. f_equal. lia.
Qed.

(** C25: A coordinate written as an optional minus sign, at most nine
    integer digits, a dot and at most six decimals (at least one digit in
    all) is read by [strconv.ParseFloat] without error, and the verb [%f]
    prints it back with the same sign, the integer part without its
    leading zeros and the decimals padded with zeros to six. *)
Theorem ParseFloat_fmt_f (neg : bool) (I F : list ascii) :
  coordinate I F ->
  exists x, ParseFloat (plain_decimal neg I F) = (x, None) /\
    fmt_f x = sign neg ++ Itoa (digits_value I) ++ "." ++ string_of_list_ascii F ++
              digits_be (6 - List.length F) 0.
Proof. apply ParseFloat_coordinate. Qed.

Lemma coordinate_106_845 : coordinate ["1"; "0"; "6"]%char ["8"; "4"; "5"]%char.
Proof. split_and!; [repeat constructor|discriminate|simpl; lia|simpl; lia]. Qed.

Lemma ParseFloat_fmt_f_witness :
  coordinate ["1"; "0"; "6"]%char ["8"; "4"; "5"]%char /\
  exists x, ParseFloat "-106.845" = (x, None) /\ fmt_f x = "-106.845000".
Proof.
  split; [exact coordinate_106_845|].
  exact (ParseFloat_fmt_f true ["1"; "0"; "6"]%char ["8"; "4"; "5"]%char coordinate_106_845).
Defined.

(** ** NaN *)

Lemma to_lower_byte_cases (c l : ascii) :
  to_lower_byte c = l -> c = l \/ c = ascii_of_N (N_of_ascii l - 32).
Proof.
  unfold to_lower_byte. destruct (is_upper c) eqn:E; [|by left]. intros <-. right.
  unfold is_upper in E. apply andb_prop in E as [_ E]. apply N.leb_le in E.
  rewrite N_ascii_embedding by lia. rewrite N.add_sub. symmetry. apply ascii_N_embedding.
Qed.

(** C34: [strconv.ParseFloat] reads ["nan"] in any letter case as NaN
    without an error, and [%f] prints it ["NaN"]: a coordinate field
    "NaN" passes the checks of src/main.go:121-130 although it is not a
    number, and the query is sent with "is_in(NaN,...". *)
Theorem ParseFloat_nan (s : string) :
  map_bytes to_lower_byte s = "nan" -> ParseFloat s = (F64nan, None) /\ fmt_f (fst (ParseFloat s)) = "NaN".
Proof.
  destruct s as [|c1 [|c2 [|c3 [|c4 s]]]]; simpl; intros H; try discriminate H.
  injection H as H1 H2 H3.
  apply to_lower_byte_cases in H1, H2, H3.
  destruct H1 as [->| ->], H2 as [->| ->], H3 as [->| ->]; split; reflexivity.
Qed.

Lemma ParseFloat_nan_witness :
  map_bytes to_lower_byte "NaN" = "nan" /\ ParseFloat "NaN" = (F64nan, None) /\ fmt_f (fst (ParseFloat "NaN")) = "NaN".
Proof. split; [reflexivity|]. apply (ParseFloat_nan "NaN"). reflexivity. Defined.

(** A field that starts with a space is not a number for [ParseFloat]:
    neither [special] nor [readFloat] skips blanks. *)
Lemma ParseFloat_leading_space (s : string) :
  ParseFloat (String " " s) = (F64zero false, Some ErrSyntax).
Proof. destruct s as [|x [|y t]]; reflexivity. Qed.

(** ** The text of [strconv.Itoa] *)

Lemma uint_value_acc (d : Decimal.uint) (acc : positive) :
  fold_left dv_step (list_ascii_of_string (NilEmpty.string_of_uint d)) (Z.pos acc) =
  Z.pos (Pos.of_uint_acc d acc).
Proof.
  revert acc. induction d; intros acc; cbn [NilEmpty.string_of_uint list_ascii_of_string fold_left Pos.of_uint_acc];
    [done|rewrite <- IHd; f_equal; unfold dv_step, digit_val; simpl; lia ..].
Qed.

Lemma uint_value (d : Decimal.uint) :
  digits_value (list_ascii_of_string (NilEmpty.string_of_uint d)) = Z.of_N (Pos.of_uint d).
Proof.
  unfold digits_value. induction d; cbn [NilEmpty.string_of_uint list_ascii_of_string fold_left];
    [done|exact IHd|apply uint_value_acc ..].
Qed.

Lemma uint_digits (d : Decimal.uint) :
  Forall (fun c => is_digit c = true) (list_ascii_of_string (NilEmpty.string_of_uint d)).
Proof. induction d; simpl; constructor; done. Qed.

(** The digits [Itoa] writes for a positive number: at least one, the
    first not '0', their value the number. *)
Lemma to_uint_digits (p : positive) :
  let ds := list_ascii_of_string (NilEmpty.string_of_uint (Pos.to_uint p)) in
  ds <> [] /\ ds !! 0%nat <> Some "0"%char /\ digits_value ds = Z.pos p.
Proof.
  intros ds. pose proof (DecimalPos.Unsigned.of_to p) as Hv.
  pose proof (GoString.to_uint_nzhead p) as Hz. pose proof (DecimalPos.Unsigned.to_uint_nonnil p) as Hn.
  split_and!; unfold ds.
  - destruct (Pos.to_uint p); done.
  - destruct (Pos.to_uint p) as [|d|d|d|d|d|d|d|d|d|d]; try done. simpl in Hz.
    pose proof (GoString.usize_nzhead d) as H. rewrite Hz in H. simpl in H. lia.
  - rewrite uint_value, Hv. done.
Qed.

(** C17: [strconv.Itoa(z)] writes the decimal numeral of [z]: a '-' when
    [z] is negative, then one or more decimal digits, the first of them
    '0' only for the numeral "0", whose value is [|z|]. *)
Theorem Itoa_decimal (z : Z) :
  exists ds, Itoa z = sign (z <? 0) ++ string_of_list_ascii ds /\ ds <> [] /\
    Forall (fun c => is_digit c = true) ds /\ (ds !! 0%nat = Some "0"%char -> ds = ["0"%char]) /\
    digits_value ds = Z.abs z.
Proof.
  destruct z as [|p|p].
  - exists ["0"%char]. split_and!; [reflexivity|done|repeat constructor|done|reflexivity].
  - destruct (to_uint_digits p) as (Hne & H0 & Hv).
    eexists. split_and!; [|exact Hne|apply uint_digits|intros H; by destruct H0|exact Hv].
    unfold Itoa. simpl. by rewrite string_of_list_ascii_of_string.
  - destruct (to_uint_digits p) as (Hne & H0 & Hv).
    eexists. split_and!; [|exact Hne|apply uint_digits|intros H; by destruct H0|exact Hv].
    unfold Itoa. simpl. by rewrite string_of_list_ascii_of_string.
Qed.

End GoFloat.
