(* ===== verification/Csv.v ===== *)
(** * Csv: Go's encoding/csv as src/main.go uses it

    [csv.NewReader(csvFile)] then [ReadAll()] (src/main.go:105-108) and
    [csv.NewWriter(csvFile)] then [WriteAll(modifiedRecords)]
    (src/main.go:164-165), with the defaults the program keeps: [Comma] is
    ',', no [Comment], [FieldsPerRecord] 0 (set by the first record),
    [LazyQuotes] and [TrimLeadingSpace] false, [UseCRLF] false.  The
    functions follow encoding/csv's reader.go and writer.go:
    - the reader: [readLine] (bufio [ReadSlice('\n')], the trailing '\r'
      dropped before EOF, CR LF normalised to LF), [readRecord] (empty
      lines skipped; the [parseField] loop over non-quoted and quoted
      fields, a quoted field running over several lines; the errors
      [ErrBareQuote], [ErrQuote] and [ErrFieldCount] with their line and
      column), and [ReadAll];
    - the writer: [fieldNeedsQuotes] (empty, backslash-dot, a LF, CR,
      double quote or comma inside, or a first rune that is a Unicode
      space), the quoting loop over [strings.IndexAny] of the double
      quote, CR and LF, [Write] and [WriteAll].
    A file's content is a list of bytes ([bytes]); a field is a Go
    string.  The reader builds each field directly instead of one
    [recordBuffer] with [fieldIndexes] (the same strings), and does not
    keep [fieldPositions] (only [FieldPos] reads them).  I/O errors of
    the underlying file are not modelled: the reader sees the whole file,
    and the writer's errors are the [Runtime]'s.

    Every loop runs on fuel bounded by the input's length; each round
    consumes input, and the theorems show the fuel suffices
    ([parse_fuel], [quote_loop_esc], [ReadAll_fuel_enough]).  The other
    theorems here: the tables [ReadAll] returns are rectangular
    ([ReadAll_rectangular]); a bare quote is reported at its column
    ([ReadAll_bare_quote]); the
    id text of [GoString.Itoa] is written without quotes
    ([Itoa_written_plain]).  Reading back what the writer wrote in
    general is the file [CsvRoundTrip]. *)

From stdpp Require Import base list strings.
From Stdlib Require Import Ascii ZArith Lia.
From S2P Require Import Prelude GoString.

Module Csv.

Definition bytes := list ascii.

Definition DQ : ascii := ascii_of_nat 34.     (* double quote *)
Definition COMMA : ascii := ascii_of_nat 44.  (* ',' *)
Definition LF : ascii := ascii_of_nat 10.     (* '\n' *)
Definition CR : ascii := ascii_of_nat 13.     (* '\r' *)

(** [bytes.IndexByte(l, c)], with [None] for [-1]. *)
Fixpoint IndexByte (l : bytes) (c : ascii) : option nat :=
  match l with
  | [] => None
  | x :: l' => if Ascii.eqb x c then Some 0 else S <$> IndexByte l' c
  end.

(** [lengthNL(b)]: 1 when [b] ends with LF. *)
Definition lengthNL (b : bytes) : nat :=
  match last b with
  | Some x => if Ascii.eqb x LF then 1 else 0
  | None => 0
  end.

(** ** The reader *)

Inductive ParseErrKind :=
| ErrBareQuote     (* a bare quote in a non-quoted field *)
| ErrQuote         (* an extraneous or missing quote in a quoted field *)
| ErrFieldCount.   (* wrong number of fields *)

Record ParseError := mkParseError {
  StartLine : nat;
  Line : nat;
  Column : nat;
  Err : ParseErrKind
}.

(** The state of a [csv.Reader]: what is left of the file, [numLine], and
    [FieldsPerRecord]. *)
Record Reader := mkReader {
  rd_input : bytes;
  numLine : nat;
  FieldsPerRecord : Z
}.

Definition NewReader (input : bytes) : Reader := mkReader input 0 0.

(** bufio's [ReadSlice] with delimiter LF: the bytes up to and including
    the first LF, the rest, and whether a LF was found ([io.EOF] if not). *)
Fixpoint ReadSlice (l : bytes) : bytes * bytes * bool :=
  match l with
  | [] => ([], [], false)
  | x :: l' =>
      if Ascii.eqb x LF then ([x], l', true)
      else let '(a, b, f) := ReadSlice l' in (x :: a, b, f)
  end.

(** For backwards compatibility, a trailing CR is dropped before EOF. *)
Definition drop_trailing_CR (line : bytes) : bytes :=
  match reverse line with
  | x :: r => if Ascii.eqb x CR then reverse r else line
  | [] => line
  end.

(** CR LF is normalised to LF on all input lines. *)
Definition normalize_CRLF (line : bytes) : bytes :=
  match reverse line with
  | x :: y :: r => if Ascii.eqb x LF && Ascii.eqb y CR then reverse r ++ [LF] else line
  | _ => line
  end.

(** [readLine]: the next line and whether the read hit [io.EOF]. *)
Definition readLine (r : Reader) : bytes * bool * Reader :=
  let '(line, rest, found) := ReadSlice (rd_input r) in
  let '(line, eof) :=
    if negb (length line =? 0)%nat && negb found then (drop_trailing_CR line, false)
    else (line, negb found) in
  (normalize_CRLF line, eof, mkReader rest (S (numLine r)) (FieldsPerRecord r)).

(** The mode of the [parseField] loop: at the start of a field, or inside
    a quoted field whose bytes so far are [acc]. *)
Inductive pmode := PField | PQuoted (acc : bytes).

(** The state of the [parseField] loop: the mode, the rest of the current
    [line], the reader, [pos] ([ps_pline], [ps_pcol]) and the fields read. *)
Record pstate := mkPState {
  ps_mode : pmode;
  ps_line : bytes;
  ps_rd : Reader;
  ps_pline : nat;
  ps_pcol : nat;
  ps_fields : list string
}.

(** What [readRecord] has after the loop: the fields, the error, the reader. *)
Definition presult : Type := list string * option ParseError * Reader.

(** One round of the [parseField] loop of [readRecord]: [inr] is a
    [continue] with the next state, [inl] a [break parseField]. *)
Definition parse_step (recLine : nat) (s : pstate) : presult + pstate :=
  let '(mkPState m line rd pline pcol fields) := s in
  match m with
  | PField =>
    match line with
    | c :: line' =>
      if Ascii.eqb c DQ then inr (mkPState (PQuoted []) line' rd pline (S pcol) fields)
      else
        (* non-quoted field *)
        let i := IndexByte line COMMA in
        let field := match i with
                     | Some i => take i line
                     | None => take (length line - lengthNL line) line
                     end in
        match IndexByte field DQ with
        | Some j => inl (fields, Some (mkParseError recLine (numLine rd) (pcol + j) ErrBareQuote), rd)
        | None =>
          let fields := fields ++ [String.string_of_list_ascii field] in
          match i with
          | Some i => inr (mkPState PField (drop (S i) line) rd pline (pcol + S i) fields)
          | None => inl (fields, None, rd)
          end
        end
    | [] =>
        (* an empty non-quoted field at the end of the input *)
        inl (fields ++ [""], None, rd)
    end
  | PQuoted acc =>
    match IndexByte line DQ with
    | Some i =>
      (* hit next quote *)
      let acc := acc ++ take i line in
      let line := drop (S i) line in
      let pcol := pcol + S i in
      match line with
      | c :: line'' =>
        if Ascii.eqb c DQ then
          (* a doubled quote: append one quote *)
          inr (mkPState (PQuoted (acc ++ [DQ])) line'' rd pline (S pcol) fields)
        else if Ascii.eqb c COMMA then
          (* quote then comma: end of field *)
          inr (mkPState PField line'' rd pline (S pcol) (fields ++ [String.string_of_list_ascii acc]))
        else if (lengthNL line =? length line)%nat then
          inl (fields ++ [String.string_of_list_ascii acc], None, rd)
        else inl (fields, Some (mkParseError recLine (numLine rd) (pcol - 1) ErrQuote), rd)
      | [] => inl (fields ++ [String.string_of_list_ascii acc], None, rd)
      end
    | None =>
      match line with
      | _ :: _ =>
        (* hit end of line: keep the bytes, read the next line *)
        let acc := acc ++ line in
        let pcol := pcol + length line in
        let '(line', _, rd') := readLine rd in
        if (0 <? length line')%nat
        then inr (mkPState (PQuoted acc) line' rd' (S pline) 1 fields)
        else inr (mkPState (PQuoted acc) line' rd' pline pcol fields)
      | [] =>
        (* abrupt end of file *)
        inl (fields, Some (mkParseError recLine pline pcol ErrQuote), rd)
      end
    end
  end.

(** The [parseField] loop. *)
Fixpoint parseField (fuel recLine : nat) (s : pstate) : presult :=
  match fuel with
  | O => (ps_fields s, None, ps_rd s)
  | S fuel' =>
    match parse_step recLine s with
    | inl r => r
    | inr s' => parseField fuel' recLine s'
    end
  end.

(** The loop of [readRecord] that skips empty lines; [None] is [io.EOF]. *)
Fixpoint skipEmpty (fuel : nat) (rd : Reader) : option (bytes * Reader) :=
  match fuel with
  | O => None
  | S fuel' =>
    let '(line, eof, rd') := readLine rd in
    if eof then None
    else if (length line =? lengthNL line)%nat then skipEmpty fuel' rd'
    else Some (line, rd')
  end.

(** The end of [readRecord]: check [FieldsPerRecord] when it is set, set
    it from the first record otherwise. *)
Definition check_fields (recLine : nat) (res : presult) : presult :=
  let '(fields, err, rd2) := res in
  if (0 <? FieldsPerRecord rd2)%Z then
    if negb (Z.of_nat (length fields) =? FieldsPerRecord rd2)%Z && bool_decide (err = None)
    then (fields, Some (mkParseError recLine recLine 1 ErrFieldCount), rd2)
    else (fields, err, rd2)
  else if (FieldsPerRecord rd2 =? 0)%Z
  then (fields, err, mkReader (rd_input rd2) (numLine rd2) (Z.of_nat (length fields)))
  else (fields, err, rd2).

(** [readRecord]: [None] is [io.EOF]; otherwise the record, its error and
    the reader after it. *)
Definition readRecord (rd : Reader) : option presult :=
  match skipEmpty (S (length (rd_input rd))) rd with
  | None => None
  | Some (line, rd1) =>
    let recLine := numLine rd1 in
    Some (check_fields recLine
      (parseField (S (length line + length (rd_input rd1))) recLine (mkPState PField line rd1 recLine 1 [])))
  end.

(** [ReadAll]: records until [io.EOF]; the first error ends it. *)
Fixpoint ReadAll_loop (fuel : nat) (rd : Reader) (records : list (list string))
  : ParseError + list (list string) :=
  match fuel with
  | O => inr records
  | S fuel' =>
    match readRecord rd with
    | None => inr records
    | Some (_, Some e, _) => inl e
    | Some (record, None, rd') => ReadAll_loop fuel' rd' (records ++ [record])
    end
  end.

Definition ReadAll (input : bytes) : ParseError + list (list string) :=
  ReadAll_loop (S (length input)) (NewReader input) [].

(** ** The writer *)

(** [unicode.IsSpace] of the first rune of a non-empty field, decoded as
    UTF-8: the ASCII spaces, U+0085, U+00A0, U+1680, U+2000-U+200A,
    U+2028, U+2029, U+202F, U+205F and U+3000. *)
Definition first_rune_is_space (b : bytes) : bool :=
  match b with
  | c :: rest =>
    let n := nat_of_ascii c in
    if (n =? 9) || (n =? 10) || (n =? 11) || (n =? 12) || (n =? 13) || (n =? 32) then true
    else match n, map nat_of_ascii rest with
         | 194, c2 :: _ => (c2 =? 133) || (c2 =? 160)
         | 225, 154 :: 128 :: _ => true
         | 226, 128 :: c3 :: _ => ((128 <=? c3) && (c3 <=? 138)) || (c3 =? 168) || (c3 =? 169) || (c3 =? 175)
         | 226, 129 :: 159 :: _ => true
         | 227, 128 :: 128 :: _ => true
         | _, _ => false
         end
  | [] => false
  end%nat.

Definition backslash_dot : bytes := [ascii_of_nat 92; ascii_of_nat 46].

Definition special (c : ascii) : bool :=
  Ascii.eqb c LF || Ascii.eqb c CR || Ascii.eqb c DQ || Ascii.eqb c COMMA.

(** [fieldNeedsQuotes]. *)
Definition fieldNeedsQuotes (field : string) : bool :=
  let b := String.list_ascii_of_string field in
  match b with
  | [] => false
  | _ => bool_decide (b = backslash_dot) || existsb special b || first_rune_is_space b
  end.

(** [strings.IndexAny] of the double quote, CR and LF, with [None] for [-1]. *)
Fixpoint IndexAny_quote (l : bytes) : option nat :=
  match l with
  | [] => None
  | x :: l' => if Ascii.eqb x DQ || Ascii.eqb x CR || Ascii.eqb x LF then Some 0 else S <$> IndexAny_quote l'
  end.

(** The quoting loop of [Write] ([UseCRLF] false): copy up to the next
    special byte, then write it (a quote doubled, CR and LF as they are). *)
Fixpoint quote_loop (fuel : nat) (field : bytes) : bytes :=
  match fuel with
  | O => []
  | S fuel' =>
    match field with
    | [] => []
    | _ =>
      let i := default (length field) (IndexAny_quote field) in
      take i field ++
      match drop i field with
      | c :: field' => (if Ascii.eqb c DQ then [DQ; DQ] else [c]) ++ quote_loop fuel' field'
      | [] => []
      end
    end
  end.

(** The quoted form's body as a one-pass map: every quote doubled. *)
Fixpoint esc (b : bytes) : bytes :=
  match b with
  | [] => []
  | c :: b' => (if Ascii.eqb c DQ then [DQ; DQ] else [c]) ++ esc b'
  end.

Definition write_field (field : string) : bytes :=
  let b := String.list_ascii_of_string field in
  if fieldNeedsQuotes field then DQ :: quote_loop (S (length b)) b ++ [DQ] else b.

(** [for n, field := range record { if n > 0 { WriteRune(Comma) } ... }] *)
Fixpoint write_fields (n : nat) (record : list string) : bytes :=
  match record with
  | [] => []
  | field :: rest => (if (n =? 0)%nat then [] else [COMMA]) ++ write_field field ++ write_fields (S n) rest
  end.

(** [Write(record)]: the fields, then LF. *)
Definition Write (record : list string) : bytes := write_fields 0 record ++ [LF].

(** [WriteAll(records)]: every record, then [Flush]. *)
Definition WriteAll (records : list (list string)) : bytes := records ≫= Write.

(** ** Lemmas: bytes, [IndexByte], [readLine] *)

Lemma eqb_true (x y : ascii) : Ascii.eqb x y = true <-> x = y.
Proof. apply Ascii.eqb_eq. Qed.

Lemma eqb_refl_true (x : ascii) : Ascii.eqb x x = true.
Proof. apply Ascii.eqb_refl. Qed.

Lemma eqb_false (x y : ascii) : x <> y -> Ascii.eqb x y = false.
Proof. intros Hne. destruct (Ascii.eqb_spec x y); congruence. Qed.

#[export] Hint Rewrite eqb_refl_true : go_rw.

(** The special bytes are distinct. *)
Lemma DQ_LF : DQ <> LF. Proof. done. Qed.
Lemma DQ_COMMA : DQ <> COMMA. Proof. done. Qed.
Lemma LF_COMMA : LF <> COMMA. Proof. done. Qed.
Lemma LF_DQ : LF <> DQ. Proof. done. Qed.
Lemma COMMA_DQ : COMMA <> DQ. Proof. done. Qed.
Lemma COMMA_LF : COMMA <> LF. Proof. done. Qed.
Lemma CR_LF : CR <> LF. Proof. done. Qed.
Lemma LF_CR : LF <> CR. Proof. done. Qed.
Lemma DQ_CR : DQ <> CR. Proof. done. Qed.
Lemma COMMA_CR : COMMA <> CR. Proof. done. Qed.

#[export] Hint Resolve DQ_LF DQ_COMMA LF_COMMA LF_DQ COMMA_DQ COMMA_LF CR_LF LF_CR DQ_CR COMMA_CR : go.

(** Rewrite [Ascii.eqb] of two distinct special bytes to [false]. *)
Ltac eqb_simpl :=
  repeat match goal with
  | |- context [Ascii.eqb ?x ?x] => rewrite eqb_refl_true
  | |- context [Ascii.eqb ?x ?y] => rewrite (eqb_false x y) by (auto with go; done)
  end.

Lemma IndexByte_notin l c : c ∉ l -> IndexByte l c = None.
Proof.
  induction l as [|x l IH]; intros Hc; [done|]. simpl.
  rewrite eqb_false by (intros ->; apply Hc; left). rewrite IH; [done|]. intros H; apply Hc; by right.
Qed.

Lemma IndexByte_app l c r : c ∉ l -> IndexByte (l ++ c :: r) c = Some (length l).
Proof.
  induction l as [|x l IH]; intros Hc; simpl; [by rewrite ?eqb_refl_true|].
  rewrite eqb_false by (intros ->; apply Hc; left). rewrite IH; [done|]. intros H; apply Hc; by right.
Qed.

Lemma IndexByte_Some_lt l c i : IndexByte l c = Some i -> i < length l.
Proof.
  revert i. induction l as [|x l IH]; intros i; simpl; [done|].
  destruct (Ascii.eqb x c); [intros [= <-]; lia|].
  destruct (IndexByte l c) as [j|] eqn:E; simpl; [intros [= <-]|done]. specialize (IH j eq_refl). lia.
Qed.

Lemma ReadSlice_split l : (ReadSlice l).1.1 ++ (ReadSlice l).1.2 = l.
Proof.
  induction l as [|x l IH]; [done|]. simpl.
  destruct (Ascii.eqb x LF); [done|]. destruct (ReadSlice l) as [[a b] f]. simpl in *. by rewrite IH.
Qed.

Lemma ReadSlice_app p q : LF ∉ p -> ReadSlice (p ++ LF :: q) = (p ++ [LF], q, true).
Proof.
  induction p as [|x p IH]; intros Hp; simpl; [by rewrite ?eqb_refl_true|].
  rewrite eqb_false by (intros ->; apply Hp; left). rewrite IH; [done|]. intros H; apply Hp; by right.
Qed.

Lemma length_reverse_le_cons (x : ascii) r : length (reverse r) < length (x :: r).
Proof. rewrite length_reverse. simpl. lia. Qed.

Lemma drop_trailing_CR_length l : length (drop_trailing_CR l) <= length l.
Proof.
  unfold drop_trailing_CR. destruct (reverse l) as [|x r] eqn:E; [lia|].
  destruct (Ascii.eqb x CR); [|lia].
  rewrite <- (length_reverse l), E, length_reverse. simpl. lia.
Qed.

Lemma normalize_CRLF_length l : length (normalize_CRLF l) <= length l.
Proof.
  unfold normalize_CRLF. destruct (reverse l) as [|x [|y r]] eqn:E; try lia.
  destruct (_ && _); [|lia].
  rewrite <- (length_reverse l), E, length_app, !length_reverse. simpl. lia.
Qed.

(** A line of a file without CR is not changed by the normalisation. *)
Lemma normalize_CRLF_id l : CR ∉ l -> normalize_CRLF l = l.
Proof.
  intros Hl. unfold normalize_CRLF. destruct (reverse l) as [|x [|y r]] eqn:E; try done.
  destruct (Ascii.eqb_spec y CR) as [->|]; [|by rewrite andb_false_r].
  exfalso. apply Hl. rewrite <- elem_of_reverse, E. right; left.
Qed.

Lemma readLine_measure rd :
  length (readLine rd).1.1 + length (rd_input (readLine rd).2) <= length (rd_input rd).
Proof.
  unfold readLine. pose proof (ReadSlice_split (rd_input rd)) as Hs.
  destruct (ReadSlice (rd_input rd)) as [[a b] f]. simpl in *.
  rewrite <- Hs, length_app.
  destruct (negb _ && negb _); simpl;
    pose proof (normalize_CRLF_length (drop_trailing_CR a));
    pose proof (normalize_CRLF_length a); pose proof (drop_trailing_CR_length a); lia.
Qed.

(** [readLine] on a file whose next line has no CR. *)
Lemma readLine_app p q k F :
  LF ∉ p -> CR ∉ p ->
  readLine (mkReader (p ++ LF :: q) k F) = (p ++ [LF], false, mkReader q (S k) F).
Proof.
  intros Hp Hc. unfold readLine. simpl. rewrite ReadSlice_app by done. simpl.
  rewrite andb_false_r, normalize_CRLF_id; [done|].
  rewrite elem_of_app, list_elem_of_singleton. intros [?|?]; [done|]. by apply CR_LF.
Qed.

Lemma readLine_nil k F : readLine (mkReader [] k F) = ([], true, mkReader [] (S k) F).
Proof. done. Qed.

Lemma lengthNL_snoc p : lengthNL (p ++ [LF]) = 1.
Proof. unfold lengthNL. by rewrite last_snoc, eqb_refl_true. Qed.

(** The first LF of a list splits it. *)
Lemma first_LF l : LF ∈ l -> exists p q, l = p ++ LF :: q /\ LF ∉ p.
Proof. apply list_elem_of_split_l. Qed.

(** A prefix without LF of a list lies inside its first line. *)
Lemma LF_split p u a b :
  p ++ LF :: u = a ++ b -> LF ∉ p -> LF ∉ a -> exists p', p = a ++ p' /\ b = p' ++ LF :: u.
Proof.
  intros Heq Hp Ha. apply app_eq_app in Heq as [k [[-> Hb]|[-> Hk]]].
  - by exists k.
  - destruct k as [|x k]; simpl in Hk.
    + exists []. rewrite !app_nil_r. by subst.
    + injection Hk as Hx _. subst x. exfalso. apply Ha. rewrite elem_of_app. right. left.
Qed.

(** ** The parser's measure and its fuel *)

Definition pmeasure (s : pstate) : nat := length (ps_line s) + length (rd_input (ps_rd s)).

Lemma parse_step_measure rl s s' : parse_step rl s = inr s' -> pmeasure s' < pmeasure s.
Proof.
  destruct s as [m line rd pl pc fs]. unfold parse_step, pmeasure. simpl.
  destruct m as [|acc].
  - destruct line as [|c line']; [done|].
    destruct (Ascii.eqb c DQ); [intros [= <-]; simpl; lia|].
    destruct (IndexByte (c :: line') COMMA) as [i|] eqn:Ei;
      destruct (IndexByte _ DQ); try done.
    intros [= <-]. simpl. apply IndexByte_Some_lt in Ei. rewrite length_drop. lia.
  - destruct (IndexByte line DQ) as [i|] eqn:Ei.
    + apply IndexByte_Some_lt in Ei.
      destruct (drop (S i) line) as [|c line''] eqn:Ed; [done|].
      assert (Hl : length (drop (S i) line) = length line - S i) by apply length_drop.
      rewrite Ed in Hl. simpl in Hl.
      destruct (Ascii.eqb c DQ); [intros [= <-]; simpl; lia|].
      destruct (Ascii.eqb c COMMA); [intros [= <-]; simpl; lia|].
      by destruct (_ =? _)%nat.
    + destruct line as [|c line']; [done|].
      pose proof (readLine_measure rd) as Hr.
      destruct (readLine rd) as [[l' eof] rd']. simpl in Hr.
      destruct (0 <? length l')%nat; intros [= <-]; simpl; lia.
Qed.

(** The loop with enough fuel: any more gives the same result. *)
Lemma parseField_fuel rl s f1 f2 :
  pmeasure s < f1 -> pmeasure s < f2 -> parseField f1 rl s = parseField f2 rl s.
Proof.
  revert s f2. induction f1 as [|f1 IH]; intros s [|f2] H1 H2; try lia. simpl.
  destruct (parse_step rl s) as [r|s'] eqn:E; [done|].
  apply parse_step_measure in E. apply IH; lia.
Qed.

(** The loop run to its end. *)
Definition parse (rl : nat) (s : pstate) : presult := parseField (S (pmeasure s)) rl s.

Lemma parse_fuel rl s f : pmeasure s < f -> parseField f rl s = parse rl s.
Proof. intros H. apply parseField_fuel; [done|lia]. Qed.

Lemma parse_next rl s s' : parse_step rl s = inr s' -> parse rl s = parse rl s'.
Proof.
  intros E. unfold parse at 1. simpl. rewrite E. apply parse_fuel.
  apply parse_step_measure in E. lia.
Qed.

Lemma parse_done rl s r : parse_step rl s = inl r -> parse rl s = r.
Proof. intros E. unfold parse. simpl. by rewrite E. Qed.

(** ** The writer's quoting *)

Lemma esc_app a b : esc (a ++ b) = esc a ++ esc b.
Proof. induction a as [|c a IH]; [done|]. simpl. rewrite IH. by rewrite app_assoc. Qed.

Lemma esc_noDQ b : DQ ∉ b -> esc b = b.
Proof.
  induction b as [|c b IH]; intros Hb; [done|]. simpl.
  rewrite eqb_false by (intros ->; apply Hb; left). rewrite IH; [done|]. intros H; apply Hb; by right.
Qed.

Lemma esc_notin b x : x <> DQ -> x ∉ b -> x ∉ esc b.
Proof.
  intros Hx. induction b as [|c b IH]; intros Hb; [apply not_elem_of_nil|]. simpl.
  apply not_elem_of_cons in Hb as [Hc Hb]. rewrite elem_of_app. intros [H|H]; [|by apply IH].
  destruct (Ascii.eqb c DQ).
  - rewrite elem_of_cons, list_elem_of_singleton in H. by destruct H.
  - by rewrite list_elem_of_singleton in H.
Qed.

Lemma IndexAny_quote_prefix l : DQ ∉ take (default (length l) (IndexAny_quote l)) l.
Proof.
  induction l as [|x l IH]; [intros H; inversion H|]. simpl.
  destruct (Ascii.eqb x DQ || Ascii.eqb x CR || Ascii.eqb x LF) eqn:E; [intros H; inversion H|].
  destruct (IndexAny_quote l) as [i|]; simpl in *; intros H; apply elem_of_cons in H as [Hx|H];
    try (subst x; by rewrite eqb_refl_true in E).
  - by apply IH.
  - apply IH. by rewrite take_ge in * by lia.
Qed.

Lemma quote_loop_esc_fuel fuel b : length b < fuel -> quote_loop fuel b = esc b.
Proof.
  revert b. induction fuel as [|fuel IH]; intros b Hb; [lia|].
  destruct b as [|x b']; [done|]. set (b := x :: b'). cbn [quote_loop]. fold b.
  set (i := default (length b) (IndexAny_quote b)).
  rewrite <- (take_drop i b) at 2. rewrite esc_app, esc_noDQ by apply IndexAny_quote_prefix.
  f_equal. destruct (drop i b) as [|c r] eqn:Ed; [done|]. simpl. f_equal.
  apply IH. assert (length (drop i b) = length b - i) as Hl by apply length_drop.
  rewrite Ed in Hl. simpl in Hl. unfold b in *. simpl in *. lia.
Qed.

Lemma existsb_false_notin (f : ascii -> bool) l c : existsb f l = false -> f c = true -> c ∉ l.
Proof.
  intros Hl Hc Hin. apply list_elem_of_In in Hin.
  assert (existsb f l = true) by (apply existsb_exists; eauto). congruence.
Qed.

Lemma fieldNeedsQuotes_false f :
  fieldNeedsQuotes f = false ->
  let b := String.list_ascii_of_string f in (DQ ∉ b) /\ (LF ∉ b) /\ (CR ∉ b) /\ (COMMA ∉ b).
Proof.
  unfold fieldNeedsQuotes. simpl. destruct (String.list_ascii_of_string f) as [|x r].
  { intros _. split_and!; apply not_elem_of_nil. }
  rewrite !orb_false_iff. intros [[_ Hs] _].
  split_and!; apply (existsb_false_notin special _ _ Hs); done.
Qed.

(** ** The parser's steps *)

Lemma parse_same_step rl s1 s2 : parse_step rl s1 = parse_step rl s2 -> parse rl s1 = parse rl s2.
Proof.
  intros E. destruct (parse_step rl s2) as [r|s'] eqn:E2.
  - by rewrite (parse_done _ _ _ E), (parse_done _ _ _ E2).
  - by rewrite (parse_next _ _ _ E), (parse_next _ _ _ E2).
Qed.

Lemma drop_S_app (q : bytes) x r : drop (S (length q)) (q ++ x :: r) = r.
Proof. induction q as [|y q IH]; [done|]. exact IH. Qed.

Lemma IndexByte_hd c r : IndexByte (c :: r) c = Some 0.
Proof. simpl. by rewrite eqb_refl_true. Qed.

(** Membership in appended and consed lists of bytes. *)
Ltac elems :=
  repeat match goal with
  | H : context [_ ∈ _ ++ _] |- _ => rewrite elem_of_app in H
  | H : context [_ ∈ _ :: _] |- _ => rewrite elem_of_cons in H
  | H : context [_ ∈ []] |- _ => rewrite elem_of_nil in H
  | |- context [_ ∈ _ ++ _] => rewrite elem_of_app
  | |- context [_ ∈ _ :: _] => rewrite elem_of_cons
  | |- context [_ ∈ []] => rewrite elem_of_nil
  end;
  intuition (try first [done | solve [auto with go] |
    match goal with H : _ = _ |- _ => solve [revert H; done] end]).

(** Inside a quoted field, the bytes before the next quote are kept. *)
Lemma step_quoted_shift rl acc c r rd pl pc fs :
  DQ ∉ c ->
  parse_step rl (mkPState (PQuoted acc) (c ++ DQ :: r) rd pl pc fs) =
  parse_step rl (mkPState (PQuoted (acc ++ c)) (DQ :: r) rd pl (pc + length c) fs).
Proof.
  intros Hc. unfold parse_step. lazy beta iota.
  rewrite IndexByte_app, IndexByte_hd by done.
  rewrite take_app_length, drop_S_app. simpl take. simpl drop. rewrite app_nil_r.
  by replace (pc + length c + 1) with (pc + S (length c)) by lia.
Qed.

Lemma step_quoted_dq rl acc r rd pl pc fs :
  parse_step rl (mkPState (PQuoted acc) (DQ :: DQ :: r) rd pl pc fs) =
  inr (mkPState (PQuoted (acc ++ [DQ])) r rd pl (S (S pc)) fs).
Proof. unfold parse_step. lazy beta iota. rewrite IndexByte_hd. simpl. by rewrite app_nil_r, Nat.add_1_r. Qed.

Lemma step_quoted_comma rl acc r rd pl pc fs :
  parse_step rl (mkPState (PQuoted acc) (DQ :: COMMA :: r) rd pl pc fs) =
  inr (mkPState PField r rd pl (S (S pc)) (fs ++ [String.string_of_list_ascii acc])).
Proof. unfold parse_step. lazy beta iota. rewrite IndexByte_hd. simpl. by rewrite app_nil_r, Nat.add_1_r. Qed.

Lemma step_quoted_end rl acc rd pl pc fs :
  parse_step rl (mkPState (PQuoted acc) [DQ; LF] rd pl pc fs) =
  inl (fs ++ [String.string_of_list_ascii acc], None, rd).
Proof. unfold parse_step. lazy beta iota. rewrite IndexByte_hd. simpl. by rewrite app_nil_r. Qed.

(** A line without a quote ends inside a quoted field: the next line is read. *)
Lemma step_quoted_eol rl acc line rd pl pc fs :
  DQ ∉ line -> line <> [] ->
  parse_step rl (mkPState (PQuoted acc) line rd pl pc fs) =
  let '(line', _, rd') := readLine rd in
  if (0 <? length line')%nat then inr (mkPState (PQuoted (acc ++ line)) line' rd' (S pl) 1 fs)
  else inr (mkPState (PQuoted (acc ++ line)) line' rd' pl (pc + length line) fs).
Proof.
  intros Hq Hne. destruct line as [|c l]; [done|].
  unfold parse_step. lazy beta iota. by rewrite IndexByte_notin.
Qed.

Lemma step_field_quote rl r rd pl pc fs :
  parse_step rl (mkPState PField (DQ :: r) rd pl pc fs) = inr (mkPState (PQuoted []) r rd pl (S pc) fs).
Proof. done. Qed.

(** A non-quoted field followed by a comma. *)
Lemma step_field_comma rl b r rd pl pc fs :
  DQ ∉ b -> COMMA ∉ b ->
  parse_step rl (mkPState PField (b ++ COMMA :: r) rd pl pc fs) =
  inr (mkPState PField r rd pl (pc + S (length b)) (fs ++ [String.string_of_list_ascii b])).
Proof.
  intros Hq Hc. remember (b ++ COMMA :: r) as line eqn:El.
  destruct line as [|x l]; [by destruct b|].
  assert (x <> DQ) by (destruct b as [|y b]; simpl in El; injection El as -> _;
    [done|intros ->; apply Hq; left]).
  unfold parse_step. lazy beta iota. rewrite eqb_false by done. rewrite El, IndexByte_app by done.
  rewrite take_app_length, IndexByte_notin by done. by rewrite drop_S_app.
Qed.

(** The last, non-quoted, field of a line. *)
Lemma step_field_last rl b rd pl pc fs :
  DQ ∉ b -> COMMA ∉ b -> LF ∉ b ->
  parse_step rl (mkPState PField (b ++ [LF]) rd pl pc fs) =
  inl (fs ++ [String.string_of_list_ascii b], None, rd).
Proof.
  intros Hq Hc Hl. remember (b ++ [LF]) as line eqn:El.
  destruct line as [|x l]; [by destruct b|].
  assert (x <> DQ) by (destruct b as [|y b]; simpl in El; injection El as -> _;
    [done|intros ->; apply Hq; left]).
  unfold parse_step. lazy beta iota. rewrite eqb_false by done. rewrite El.
  rewrite (IndexByte_notin (b ++ [LF]) COMMA) by elems. rewrite lengthNL_snoc, length_app. simpl.
  replace (length b + 1 - 1) with (length b) by lia.
  rewrite take_app_length, IndexByte_notin by done. done.
Qed.

Lemma IndexByte_app_r l r c : c ∉ l -> IndexByte (l ++ r) c = (fun i => length l + i) <$> IndexByte r c.
Proof.
  induction l as [|x l IH]; intros Hc; simpl; [by destruct (IndexByte r c)|].
  rewrite eqb_false by (intros ->; apply Hc; left). rewrite IH by (intros H; apply Hc; by right).
  by destruct (IndexByte r c).
Qed.

Lemma IndexByte_take n l c j : IndexByte l c = Some j -> j < n -> IndexByte (take n l) c = Some j.
Proof.
  revert n j. induction l as [|x l IH]; intros [|n] j; simpl; try done; [lia|].
  destruct (Ascii.eqb x c); [done|].
  destruct (IndexByte l c) as [j'|] eqn:E; [|done]. intros [= <-] Hj.
  by rewrite (IH n j') by (done || lia).
Qed.

(** A quote inside a non-quoted field: [ErrBareQuote] at the quote's
    column, on the line just read. *)
Lemma step_field_bare rl b q rd pl pc fs :
  b <> [] -> DQ ∉ b -> COMMA ∉ b ->
  parse_step rl (mkPState PField (b ++ DQ :: q ++ [LF]) rd pl pc fs) =
  inl (fs, Some (mkParseError rl (numLine rd) (pc + length b) ErrBareQuote), rd).
Proof.
  intros Hne Hq Hc. remember (b ++ DQ :: q ++ [LF]) as line eqn:El.
  destruct line as [|x l]; [by destruct b|].
  assert (x <> DQ) by (destruct b as [|y b]; simpl in El; injection El as -> _;
    [done|intros ->; apply Hq; left]).
  unfold parse_step. lazy beta iota. rewrite eqb_false by done. rewrite El.
  assert (Hd : IndexByte (b ++ DQ :: q ++ [LF]) DQ = Some (length b)) by (by apply IndexByte_app).
  destruct (IndexByte (b ++ DQ :: q ++ [LF]) COMMA) as [i|] eqn:Ei.
  - rewrite IndexByte_app_r in Ei by done. simpl in Ei.
    destruct (IndexByte (q ++ [LF]) COMMA); [|done]. injection Ei as <-.
    by rewrite (IndexByte_take _ _ _ (length b)) by (done || lia).
  - replace (lengthNL (b ++ DQ :: q ++ [LF])) with 1
      by (rewrite (app_comm_cons q [LF] DQ), app_assoc; symmetry; apply lengthNL_snoc).
    rewrite (IndexByte_take _ _ _ (length b)); [done|done|].
    rewrite length_app. simpl. rewrite length_app. simpl. lia.
Qed.


(** Equations between appended lists of bytes. *)
Ltac app_done := simpl in *; rewrite <- ?app_assoc in *; simpl in *; (done || congruence).

Lemma check_fields_set rl r rd :
  FieldsPerRecord rd = 0%Z ->
  check_fields rl (r, None, rd) = (r, None, mkReader (rd_input rd) (numLine rd) (Z.of_nat (length r))).
Proof. intros H. unfold check_fields. by rewrite H. Qed.

Lemma check_fields_same rl r rd :
  FieldsPerRecord rd = Z.of_nat (length r) -> r <> [] -> check_fields rl (r, None, rd) = (r, None, rd).
Proof.
  intros H Hr. unfold check_fields. rewrite H.
  replace (0 <? Z.of_nat (length r))%Z with true by (symmetry; apply Z.ltb_lt; destruct r; [done|simpl; lia]).
  by rewrite Z.eqb_refl.
Qed.

Lemma check_fields_count rl r rd :
  (0 < FieldsPerRecord rd)%Z -> FieldsPerRecord rd <> Z.of_nat (length r) ->
  check_fields rl (r, None, rd) = (r, Some (mkParseError rl rl 1 ErrFieldCount), rd).
Proof.
  intros H1 H2. unfold check_fields.
  replace (0 <? FieldsPerRecord rd)%Z with true by (symmetry; by apply Z.ltb_lt).
  replace (Z.of_nat (length r) =? FieldsPerRecord rd)%Z with false by (symmetry; apply Z.eqb_neq; lia).
  done.
Qed.

(** ** The reader consumes its input *)

Lemma readLine_FPR rd : FieldsPerRecord (readLine rd).2 = FieldsPerRecord rd.
Proof.
  unfold readLine. destruct (ReadSlice (rd_input rd)) as [[a b] f].
  by destruct (negb _ && negb _).
Qed.

(** A step of [parseField] keeps [FieldsPerRecord] and does not give back
    input; a result is returned with the reader of the state. *)
Lemma parse_step_input rl s :
  match parse_step rl s with
  | inl r => r.2 = ps_rd s
  | inr s' => length (rd_input (ps_rd s')) <= length (rd_input (ps_rd s)) /\
              FieldsPerRecord (ps_rd s') = FieldsPerRecord (ps_rd s)
  end.
Proof.
  destruct s as [m line rd pl pc fs]. unfold parse_step. simpl.
  destruct m as [|acc].
  - destruct line as [|c line']; [done|].
    destruct (Ascii.eqb c DQ); [simpl; lia|].
    destruct (IndexByte (c :: line') COMMA); destruct (IndexByte _ DQ); simpl; try done; lia.
  - destruct (IndexByte line DQ) as [i|].
    + destruct (drop (S i) line) as [|c line'']; [done|].
      destruct (Ascii.eqb c DQ); [simpl; lia|]. destruct (Ascii.eqb c COMMA); [simpl; lia|].
      by destruct (_ =? _)%nat.
    + destruct line as [|c line']; [done|].
      pose proof (readLine_measure rd) as Hr. pose proof (readLine_FPR rd) as HF.
      destruct (readLine rd) as [[l' eof] rd']. simpl in Hr, HF.
      destruct (0 <? length l')%nat; simpl; lia.
Qed.

Lemma parseField_input fuel rl s :
  length (rd_input (parseField fuel rl s).2) <= length (rd_input (ps_rd s)) /\
  FieldsPerRecord (parseField fuel rl s).2 = FieldsPerRecord (ps_rd s).
Proof.
  revert s. induction fuel as [|fuel IH]; intros s; [done|]. simpl.
  pose proof (parse_step_input rl s) as H. destruct (parse_step rl s) as [r|s']; [by rewrite H|].
  specialize (IH s'). lia.
Qed.

Lemma skipEmpty_input fuel rd line rd1 :
  skipEmpty fuel rd = Some (line, rd1) ->
  length (rd_input rd1) < length (rd_input rd) /\ FieldsPerRecord rd1 = FieldsPerRecord rd.
Proof.
  revert rd. induction fuel as [|fuel IH]; intros rd; [done|]. simpl.
  pose proof (readLine_measure rd) as Hr. pose proof (readLine_FPR rd) as HF.
  destruct (readLine rd) as [[l eof] rd']. simpl in Hr, HF.
  destruct eof; [done|]. destruct (Nat.eqb_spec (length l) (lengthNL l)) as [_|Hl].
  - intros H. specialize (IH rd' H). lia.
  - intros [= <- <-]. destruct l; [done|]. simpl in Hr. lia.
Qed.

Lemma check_fields_input rl r : rd_input (check_fields rl r).2 = rd_input r.2.
Proof.
  destruct r as [[fs err] rd]. unfold check_fields.
  destruct (0 <? _)%Z; [by destruct (_ && _)|by destruct (_ =? _)%Z].
Qed.

(** Every record read consumes input. *)
Lemma readRecord_input rd r : readRecord rd = Some r -> length (rd_input r.2) < length (rd_input rd).
Proof.
  unfold readRecord. destruct (skipEmpty _ rd) as [[line rd1]|] eqn:E; [|done].
  intros [= <-]. rewrite check_fields_input.
  pose proof (proj1 (skipEmpty_input _ _ _ _ E)). pose proof (proj1 (parseField_input
    (S (length line + length (rd_input rd1))) (numLine rd1) (mkPState PField line rd1 (numLine rd1) 1 []))).
  simpl in *. lia.
Qed.

Lemma ReadAll_loop_fuel f1 f2 rd acc :
  length (rd_input rd) < f1 -> length (rd_input rd) < f2 ->
  ReadAll_loop f1 rd acc = ReadAll_loop f2 rd acc.
Proof.
  revert f2 rd acc. induction f1 as [|f1 IH]; intros [|f2] rd acc H1 H2; try lia. simpl.
  destruct (readRecord rd) as [[[r [e|]] rd']|] eqn:E; try done.
  apply readRecord_input in E. simpl in E. apply IH; lia.
Qed.

(** ** [ReadAll] returns a rectangular table *)

(** A result of [parseField] has a field, or is an error. *)
Lemma parse_step_result rl s :
  match parse_step rl s with
  | inl r => r.1.1 <> [] \/ r.1.2 <> None
  | inr _ => True
  end.
Proof.
  destruct s as [m line rd pl pc fs]. unfold parse_step. simpl.
  repeat case_match; simplify_eq/=; first [exact I | left; by intros [_ ?]%app_eq_nil | right; done].
Qed.

Lemma parse_result rl s : (parse rl s).1.1 <> [] \/ (parse rl s).1.2 <> None.
Proof.
  remember (pmeasure s) as n eqn:Hn. revert s Hn.
  induction n as [n IH] using lt_wf_ind. intros s ->.
  pose proof (parse_step_result rl s) as H.
  destruct (parse_step rl s) as [r|s'] eqn:E.
  - by rewrite (parse_done _ _ _ E).
  - rewrite (parse_next _ _ _ E). eapply IH; [apply (parse_step_measure _ _ _ E)|done].
Qed.

(** [FieldsPerRecord] after a record read without error: set (positive)
    to the record's number of fields, and kept when it was already set. *)
Lemma check_fields_ok rl r fs rd' :
  check_fields rl r = (fs, None, rd') -> r.1.1 <> [] \/ r.1.2 <> None -> (0 <= FieldsPerRecord r.2)%Z ->
  (0 < FieldsPerRecord rd')%Z /\ Z.of_nat (length fs) = FieldsPerRecord rd' /\
  ((0 < FieldsPerRecord r.2)%Z -> FieldsPerRecord rd' = FieldsPerRecord r.2).
Proof.
  destruct r as [[fs0 err] [inp k F]]. unfold check_fields. simpl.
  destruct (Z.ltb_spec 0 F) as [HF|HF].
  - destruct err as [e|]; simpl.
    + rewrite andb_false_r. by intros [= _ _].
    + rewrite andb_true_r. destruct (Z.eqb_spec (Z.of_nat (length fs0)) F); simpl; [|done].
      intros [= <- <-] _ _. simpl. lia.
  - destruct (Z.eqb_spec F 0) as [->|]; [|lia]. intros [= <- -> <-] [Hne|Hne] _; [|done].
    destruct fs0; [done|]. simpl. lia.
Qed.

Lemma readRecord_fields rd fs rd' :
  readRecord rd = Some (fs, None, rd') -> (0 <= FieldsPerRecord rd)%Z ->
  (0 < FieldsPerRecord rd')%Z /\ Z.of_nat (length fs) = FieldsPerRecord rd' /\
  ((0 < FieldsPerRecord rd)%Z -> FieldsPerRecord rd' = FieldsPerRecord rd).
Proof.
  unfold readRecord. destruct (skipEmpty _ rd) as [[line rd1]|] eqn:E; [|done].
  intros [= Hr] HF0. destruct (skipEmpty_input _ _ _ _ E) as [_ HF1].
  set (s0 := mkPState PField line rd1 (numLine rd1) 1 []).
  assert (HF2 : FieldsPerRecord (parse (numLine rd1) s0).2 = FieldsPerRecord rd1)
    by exact (proj2 (parseField_input _ _ _)).
  apply (check_fields_ok _ (parse (numLine rd1) s0)) in Hr; [|apply parse_result|lia].
  rewrite HF2, HF1 in Hr. done.
Qed.

Lemma ReadAll_loop_rect fuel rd acc rs :
  ReadAll_loop fuel rd acc = inr rs ->
  (FieldsPerRecord rd = 0%Z /\ acc = []) \/
  ((0 < FieldsPerRecord rd)%Z /\ Forall (fun r => Z.of_nat (length r) = FieldsPerRecord rd) acc) ->
  rs = [] \/ exists F, Forall (fun r => Z.of_nat (length r) = F) rs.
Proof.
  revert rd acc. induction fuel as [|fuel IH]; intros rd acc.
  - intros [= <-] [[_ ->]|[_ Hacc]]; [by left|right; eauto].
  - simpl. destruct (readRecord rd) as [[[fs [e|]] rd']|] eqn:E; [done| |].
    + intros Hl Hinv. apply (IH rd' (acc ++ [fs])); [done|]. right.
      destruct (readRecord_fields _ _ _ E) as (Hpos & Hlen & Hkeep); [lia|].
      split; [done|]. destruct Hinv as [[_ ->]|[Hp Hacc]]; [by constructor|].
      rewrite Hkeep by done. apply Forall_app. split; [done|]. constructor; [|constructor].
      by rewrite Hlen, Hkeep.
    + intros [= <-] [[_ ->]|[_ Hacc]]; [by left|right; eauto].
Qed.

Lemma ReadAll_rows_length input rs :
  ReadAll input = inr rs -> rs = [] \/ exists n, Forall (fun r => length r = n) rs.
Proof.
  intros Hr. destruct (ReadAll_loop_rect _ _ _ _ Hr) as [->|[F HF]]; [by left|by left|].
  right. exists (Z.to_nat F). apply (Forall_impl _ _ _ HF). lia.
Qed.

(** C31: [ReadAll] with the default [FieldsPerRecord] returns a
    rectangular table: the first record sets the number of fields and
    every later one is checked against it, so all the rows it returns
    have the same number of fields. *)
Theorem ReadAll_rectangular input rs :
  ReadAll input = inr rs -> forall r1 r2, r1 ∈ rs -> r2 ∈ rs -> length r1 = length r2.
Proof.
  intros Hr r1 r2 H1 H2.
  destruct (ReadAll_rows_length _ _ Hr) as [->|[n Hn]]; [by apply not_elem_of_nil in H1|].
  rewrite Forall_forall in Hn. rewrite (Hn r1), (Hn r2); done.
Qed.

(** C36: [ReadAll]'s fuel is enough: every record read consumes input, so
    with more fuel than the file has bytes the loop has reached [io.EOF]
    or an error, and any more fuel gives the same result. *)
Theorem ReadAll_fuel_enough input k :
  ReadAll_loop (S (length input) + k) (NewReader input) [] = ReadAll input.
Proof. apply ReadAll_loop_fuel; simpl; lia. Qed.

Lemma ReadAll_loop_S fuel rd acc :
  ReadAll_loop (S fuel) rd acc =
  match readRecord rd with
  | None => inr acc
  | Some (_, Some e, _) => inl e
  | Some (record, None, rd') => ReadAll_loop fuel rd' (acc ++ [record])
  end.
Proof. reflexivity. Qed.

(** C35: a quote inside a non-quoted field of the first line (a field
    that does not start with a quote) is an error of the reader
    ([LazyQuotes] is false): [ReadAll] fails with [ErrBareQuote] on line 1,
    at the column of the quote, 1-based, in bytes. *)
Theorem ReadAll_bare_quote p q rest :
  p <> [] -> existsb special p = false -> LF ∉ q -> CR ∉ q ->
  ReadAll (p ++ DQ :: q ++ LF :: rest) = inl (mkParseError 1 1 (S (length p)) ErrBareQuote).
Proof.
  intros Hne Hp Hl Hc.
  assert (HDQ : DQ ∉ p) by (by apply (existsb_false_notin special)).
  assert (HCO : COMMA ∉ p) by (by apply (existsb_false_notin special)).
  assert (HLF : LF ∉ p) by (by apply (existsb_false_notin special)).
  assert (HCR : CR ∉ p) by (by apply (existsb_false_notin special)).
  set (input := p ++ DQ :: q ++ LF :: rest).
  assert (Hs : skipEmpty (S (length input)) (mkReader input 0 0) =
               Some (p ++ DQ :: q ++ [LF], mkReader rest 1 0)).
  { unfold input. replace (p ++ DQ :: q ++ LF :: rest) with ((p ++ DQ :: q) ++ LF :: rest)
      by app_done. simpl. rewrite readLine_app by elems. simpl. rewrite lengthNL_snoc.
    destruct (Nat.eqb_spec (length ((p ++ DQ :: q) ++ [LF])) 1) as [Hl1|_].
    - rewrite !length_app in Hl1. destruct p; [done|simpl in Hl1; lia].
    - f_equal. f_equal. app_done. }
  unfold ReadAll. rewrite ReadAll_loop_S. unfold readRecord, NewReader. cbn [rd_input].
  rewrite Hs. lazy beta iota.
  cbn [parseField]. rewrite step_field_bare by done. done.
Qed.

(** C37: the quoting loop of [Write] (copy up to [strings.IndexAny] of a
    quote, CR or LF, then write that byte, a quote doubled) writes the
    field's bytes with every quote doubled, whatever they contain. *)
Theorem quote_loop_esc (b : bytes) : quote_loop (S (length b)) b = esc b.
Proof. apply quote_loop_esc_fuel. lia. Qed.

(** ** The id field in the output file *)

Lemma itoa_alphabet_plain c rest :
  c ∈ GoString.itoa_alphabet -> first_rune_is_space (c :: rest) = false /\ special c = false.
Proof.
  unfold GoString.itoa_alphabet. simpl. intros H.
  repeat (apply elem_of_cons in H as [->|H]; [split; reflexivity|]).
  by apply not_elem_of_nil in H.
Qed.

(** The id [strconv.Itoa] appends to a matched row needs no quoting
    in [csv.Writer] (no comma, quote, CR or LF, no leading space, never
    [\.]): it is written as its own bytes, and it puts no CR in the row. *)
Theorem Itoa_written_plain (z : Z) :
  fieldNeedsQuotes (GoString.Itoa z) = false /\
  write_field (GoString.Itoa z) = String.list_ascii_of_string (GoString.Itoa z) /\
  CR ∉ String.list_ascii_of_string (GoString.Itoa z).
Proof.
  assert (Hq : fieldNeedsQuotes (GoString.Itoa z) = false).
  { pose proof (GoString.Itoa_alphabet z) as Ha. unfold fieldNeedsQuotes.
    destruct (String.list_ascii_of_string (GoString.Itoa z)) as [|c rest]; [done|].
    apply Forall_cons in Ha as [Hc Ha]. destruct (itoa_alphabet_plain c rest Hc) as [H1 H2].
    rewrite H1, orb_false_r. apply orb_false_iff. split.
    - apply bool_decide_eq_false. intros [= -> _]. unfold GoString.itoa_alphabet in Hc. simpl in Hc.
      repeat (apply elem_of_cons in Hc as [Hc|Hc]; [discriminate|]). by apply not_elem_of_nil in Hc.
    - simpl. rewrite H2. simpl. apply not_true_iff_false. intros (x & Hx & Hs)%existsb_elem.
      rewrite Forall_forall in Ha. rewrite (proj2 (itoa_alphabet_plain x [] (Ha x Hx))) in Hs. done. }
  split_and!; [done|unfold write_field; by rewrite Hq|].
  by apply (fieldNeedsQuotes_false (GoString.Itoa z) Hq).
Qed.

(** ** Witnesses and examples *)

Lemma ReadAll_rectangular_witness :
  ReadAll (WriteAll [["a"; "b"]; ["c"; "d"]]) = inr [["a"; "b"]; ["c"; "d"]] /\
  length ["a"; "b"] = length ["c"; "d"].
Proof.
  split; [vm_compute; reflexivity|].
  apply (ReadAll_rectangular (WriteAll [["a"; "b"]; ["c"; "d"]]) [["a"; "b"]; ["c"; "d"]]);
    [vm_compute; reflexivity|left|right; left].
Defined.

Lemma ReadAll_bare_quote_witness :
  [ascii_of_nat 97] <> [] /\ existsb special [ascii_of_nat 97] = false /\ LF ∉ [] /\ CR ∉ [] /\
  ReadAll ([ascii_of_nat 97] ++ DQ :: [] ++ LF :: []) = inl (mkParseError 1 1 2 ErrBareQuote).
Proof.
  split; [done|]. split; [reflexivity|]. split; [apply not_elem_of_nil|]. split; [apply not_elem_of_nil|].
  apply (ReadAll_bare_quote [ascii_of_nat 97] [] []); [done|reflexivity|apply not_elem_of_nil..].
Defined.

End Csv.
