(* ===== verification/CsvRoundTrip.v ===== *)
(** * CsvRoundTrip: reading back what [csv.Writer] wrote

    The reader of [Csv] run on the bytes the writer of [Csv] produced.
    A quoted field is read back through its doubled quotes, commas and
    line feeds ([parse_quoted]); a record that is [writable] (at least one
    field, not the single empty field, no CR in a field) is read back as
    itself and the reader stops at the next line ([readRecord_write]);
    and a file is read back as its rows when they all have the first
    row's number of fields ([ReadAll_WriteAll]), and refused with
    [ErrFieldCount] when one has another ([ReadAll_WriteAll_ragged]).
    The restrictions of [writable] are needed: the record of one empty
    field is written as an empty line, which the reader skips
    ([ReadAll_WriteAll_drops_empty]), and a CR in a field is read back as
    written only inside quotes, the reader normalising CR LF to LF. *)

From stdpp Require Import base list strings.
From Stdlib Require Import Ascii ZArith Lia.
From S2P Require Import Prelude Csv.

Module CsvRoundTrip.
Import Csv.

(** ** The parser on what the writer wrote *)

(** A line as [readLine] returns it inside a file: up to its first LF. *)
Definition lined (line : bytes) : Prop := exists p, line = p ++ [LF] /\ LF ∉ p.

Lemma LF_unique p u q v : p ++ LF :: u = q ++ LF :: v -> LF ∉ p -> LF ∉ q -> p = q /\ u = v.
Proof.
  intros E Hp Hq. destruct (LF_split _ _ _ _ E Hp Hq) as (p' & -> & Hv).
  destruct p' as [|y p']; simpl in Hv.
  - injection Hv as ->. by rewrite app_nil_r.
  - injection Hv as Hy _. subst y. exfalso. apply Hp. elems.
Qed.

(** The first quote or LF of a field's bytes, if any. *)
Lemma first_special (c : bytes) :
  (DQ ∉ c /\ LF ∉ c) \/
  exists q x c', c = q ++ x :: c' /\ DQ ∉ q /\ LF ∉ q /\ (x = DQ \/ x = LF).
Proof.
  induction c as [|y c IH]; [left; split; apply not_elem_of_nil|].
  destruct (decide (y = DQ \/ y = LF)) as [Hy|Hy].
  { right. exists [], y, c. split_and!; [done|apply not_elem_of_nil..|done]. }
  destruct IH as [[H1 H2]|(q & x & c' & -> & H1 & H2 & Hx)].
  - left. split; elems.
  - right. exists (y :: q), x, c'. split_and!; [done|elems..|done].
Qed.

Lemma esc_LF c' : esc (LF :: c') = LF :: esc c'.
Proof. done. Qed.

Lemma esc_DQ c' : esc (DQ :: c') = DQ :: DQ :: esc c'.
Proof. done. Qed.

(** Bytes without quote or LF up to the closing quote. *)
Lemma parse_quoted_base rl c acc p rd pl pc fs after :
  DQ ∉ c -> LF ∉ c -> LF ∉ p -> (p ++ [LF]) ++ rd_input rd = c ++ DQ :: after ->
  exists line' pc', lined line' /\ line' ++ rd_input rd = DQ :: after /\
    parse rl (mkPState (PQuoted acc) (p ++ [LF]) rd pl pc fs) =
    parse rl (mkPState (PQuoted (acc ++ c)) line' rd pl pc' fs).
Proof.
  intros Hq Hlf Hp Ht.
  destruct (LF_split p (rd_input rd) (c ++ [DQ]) after) as (p' & -> & ->); [app_done|done|elems|].
  exists (DQ :: p' ++ [LF]), (pc + length c). split_and!; [exists (DQ :: p'); split; [done|elems]|app_done|].
  apply parse_same_step. rewrite <- !app_assoc. apply step_quoted_shift; done.
Qed.

(** Inside a quoted field, the loop reads the escaped bytes [esc c] of the
    field, over as many lines as [c] has, up to its closing quote. *)
Lemma parse_quoted rl n c acc line rd pl pc fs after :
  length c <= n -> CR ∉ c -> CR ∉ after -> LF ∈ after ->
  lined line -> line ++ rd_input rd = esc c ++ DQ :: after ->
  exists line' rd' pl' pc', lined line' /\ line' ++ rd_input rd' = DQ :: after /\
    FieldsPerRecord rd' = FieldsPerRecord rd /\
    parse rl (mkPState (PQuoted acc) line rd pl pc fs) =
    parse rl (mkPState (PQuoted (acc ++ c)) line' rd' pl' pc' fs).
Proof.
  revert c acc line rd pl pc. induction n as [|n IH]; intros c acc line rd pl pc Hn Hcr Hacr Haf Hl Ht;
    destruct Hl as (p & -> & Hp);
    destruct (first_special c) as [[Hq Hlf]|(q & x & c' & -> & Hq & Hlf & [->| ->])].
  1,4: rewrite esc_noDQ in Ht by done;
    destruct (parse_quoted_base rl c acc p rd pl pc fs after) as (line' & pc' & ? & ? & ?); try done;
    by exists line', rd, pl, pc'.
  1,2: rewrite length_app in Hn; simpl in Hn; lia.
  (* a quote inside: it is doubled *)
  - rewrite esc_app, esc_noDQ, esc_DQ in Ht by done. rewrite <- !app_assoc in Ht. simpl in Ht.
    destruct (LF_split p (rd_input rd) (q ++ [DQ; DQ]) (esc c' ++ DQ :: after)) as (p' & -> & Ht');
      [app_done|done|elems|].
    rewrite (parse_next _ _ (mkPState (PQuoted ((acc ++ q) ++ [DQ])) (p' ++ [LF]) rd pl (S (S (pc + length q))) fs)).
    2:{ replace (((q ++ [DQ; DQ]) ++ p') ++ [LF]) with (q ++ DQ :: DQ :: p' ++ [LF]) by app_done.
        rewrite step_quoted_shift by done. apply step_quoted_dq. }
    destruct (IH c' ((acc ++ q) ++ [DQ]) (p' ++ [LF]) rd pl (S (S (pc + length q))))
      as (line' & rd' & pl' & pc' & ?&?&?& ->); [rewrite length_app in Hn; simpl in Hn; lia|elems|done|done|
       exists p'; split; [done|elems]|app_done|].
    exists line', rd', pl', pc'. split_and!; try done. f_equal. f_equal. app_done.
  (* a LF inside: the line ends, the next one is read *)
  - rewrite esc_app, esc_noDQ, esc_LF in Ht by done. rewrite <- !app_assoc in Ht. simpl in Ht.
    destruct (LF_unique p (rd_input rd) q (esc c' ++ DQ :: after)) as [-> Hin]; [done|done|done|].
    destruct rd as [input k F]. simpl in Hin. subst input.
    destruct (first_LF (esc c' ++ DQ :: after)) as (p2 & q2 & Hs & Hp2); [elems|].
    assert (Hcr2 : CR ∉ p2).
    { assert (CR ∉ esc c' ++ DQ :: after) as Hc by (pose proof (esc_notin c' CR); elems).
      rewrite Hs in Hc. elems. }
    rewrite (parse_next _ _ (mkPState (PQuoted (acc ++ q ++ [LF])) (p2 ++ [LF]) (mkReader q2 (S k) F) (S pl) 1 fs)).
    2:{ rewrite step_quoted_eol; [|elems|by destruct q]. rewrite Hs, readLine_app by done.
        rewrite length_app. simpl. by replace (0 <? length p2 + 1)%nat with true by (symmetry; apply Nat.ltb_lt; lia). }
    destruct (IH c' (acc ++ q ++ [LF]) (p2 ++ [LF]) (mkReader q2 (S k) F) (S pl) 1)
      as (line' & rd' & pl' & pc' & ?&?&?& ->); [rewrite length_app in Hn; simpl in Hn; lia|elems|done|done|
       by exists p2|simpl; rewrite Hs; app_done|].
    exists line', rd', pl', pc'. split_and!; try done. f_equal. f_equal. app_done.
Qed.

(** ** Reading back a written record *)

Definition fbytes (f : string) : bytes := String.list_ascii_of_string f.

Lemma string_of_fbytes f : String.string_of_list_ascii (fbytes f) = f.
Proof. apply String.string_of_list_ascii_of_string. Qed.

Lemma write_field_quoted f :
  fieldNeedsQuotes f = true -> write_field f = DQ :: esc (fbytes f) ++ [DQ].
Proof. intros H. unfold write_field. rewrite H, quote_loop_esc_fuel by lia. done. Qed.

Lemma write_field_plain f : fieldNeedsQuotes f = false -> write_field f = fbytes f.
Proof. intros H. unfold write_field. by rewrite H. Qed.

Lemma write_fields_S n fs : write_fields (S n) fs = write_fields 1 fs.
Proof.
  revert n. induction fs as [|f fs IH]; intros n; [done|]. simpl. by rewrite (IH (S n)), (IH 1).
Qed.

Lemma write_fields_cons1 g gs : write_fields 1 (g :: gs) = COMMA :: write_field g ++ write_fields 1 gs.
Proof. simpl. by rewrite write_fields_S. Qed.

Lemma write_field_noCR f : CR ∉ fbytes f -> CR ∉ write_field f.
Proof.
  intros H. unfold write_field. destruct (fieldNeedsQuotes f); [|done].
  rewrite quote_loop_esc_fuel by lia. pose proof (esc_notin (fbytes f) CR). elems.
Qed.

Lemma write_fields_noCR n fs : Forall (fun f => CR ∉ fbytes f) fs -> CR ∉ write_fields n fs.
Proof.
  revert n. induction fs as [|f fs IH]; intros n Hf; [apply not_elem_of_nil|].
  apply Forall_cons in Hf as [Hf Hfs]. simpl. pose proof (write_field_noCR f Hf).
  pose proof (IH (S n) Hfs). destruct (n =? 0)%nat; elems.
Qed.

(** The fields of a record, from the start of a field on a line of the
    file, up to the record's LF: the parser returns them and stops after
    that LF. *)
(** A quoted field at the start of a line is read up to its closing
    quote, over as many lines as it spans. *)
Lemma parse_field_quoted rl f fs0 p rd pl pc after :
  fieldNeedsQuotes f = true -> CR ∉ fbytes f -> CR ∉ after -> LF ∈ after -> LF ∉ p ->
  (p ++ [LF]) ++ rd_input rd = write_field f ++ after ->
  exists line' rd' pl' pc', lined line' /\ line' ++ rd_input rd' = DQ :: after /\
    FieldsPerRecord rd' = FieldsPerRecord rd /\
    parse rl (mkPState PField (p ++ [LF]) rd pl pc fs0) =
    parse rl (mkPState (PQuoted (fbytes f)) line' rd' pl' pc' fs0).
Proof.
  intros Eq Hf Ha Hlf Hp Ht. rewrite write_field_quoted in Ht by done. simpl in Ht.
  destruct p as [|x p0]; [exfalso; simpl in Ht; injection Ht; intros; discriminate|].
  injection Ht as -> Ht.
  rewrite (parse_next _ _ (mkPState (PQuoted []) (p0 ++ [LF]) rd pl (S pc) fs0)) by apply step_field_quote.
  apply (parse_quoted rl (length (fbytes f)) (fbytes f) []); [lia|done|done|done|exists p0; split; [done|elems]|app_done].
Qed.

Lemma parse_record rl f fs fs0 line rd pl pc rest :
  Forall (fun f => CR ∉ fbytes f) (f :: fs) -> CR ∉ rest ->
  lined line -> line ++ rd_input rd = write_field f ++ write_fields 1 fs ++ LF :: rest ->
  exists k, parse rl (mkPState PField line rd pl pc fs0) =
            (fs0 ++ f :: fs, None, mkReader rest k (FieldsPerRecord rd)).
Proof.
  revert f fs0 line rd pl pc. induction fs as [|g gs IH]; intros f fs0 line rd pl pc Hcr Hrest Hl Ht;
    apply Forall_cons in Hcr as [Hf Hfs]; destruct Hl as (p & -> & Hp);
    destruct (fieldNeedsQuotes f) eqn:Eq.
  (* last field, quoted *)
  - destruct (parse_field_quoted rl f fs0 p rd pl pc (LF :: rest))
      as (line' & rd' & pl' & pc' & [p' [-> Hp']] & Ht' & HF & ->); [done|done|elems|elems|done|app_done|].
    destruct (LF_unique p' (rd_input rd') [DQ] rest) as [-> Hin]; [app_done|done|elems|].
    destruct rd' as [input' k' F']. simpl in *. subst input' F'.
    exists k'. rewrite (parse_done _ _ _ (step_quoted_end _ _ _ _ _ _)). simpl. by rewrite string_of_fbytes.
  (* last field, not quoted *)
  - rewrite write_field_plain in Ht by done. simpl in Ht.
    destruct (fieldNeedsQuotes_false f Eq) as (Hq & Hlf & _ & Hc).
    destruct (LF_unique p (rd_input rd) (fbytes f) rest) as [-> Hin]; [app_done|done|done|].
    destruct rd as [input k F]. simpl in Hin. subst input. exists k.
    rewrite (parse_done _ _ _ (step_field_last _ _ _ _ _ _ Hq Hc Hlf)). by rewrite string_of_fbytes.
  (* a quoted field, then a comma *)
  - rewrite write_fields_cons1 in Ht.
    pose proof (write_field_noCR g (proj1 (Forall_cons_1 _ _ _ Hfs))).
    pose proof (write_fields_noCR 1 gs (proj2 (Forall_cons_1 _ _ _ Hfs))).
    destruct (parse_field_quoted rl f fs0 p rd pl pc (COMMA :: write_field g ++ write_fields 1 gs ++ LF :: rest))
      as (line' & rd' & pl' & pc' & [p' [-> Hp']] & Ht' & HF & ->); [done|done|elems|elems|done|app_done|].
    destruct (LF_split p' (rd_input rd') [DQ; COMMA] (write_field g ++ write_fields 1 gs ++ LF :: rest))
      as (p3 & -> & Ht3); [app_done|done|elems|].
    rewrite (parse_next _ _ (mkPState PField (p3 ++ [LF]) rd' pl' (S (S pc'))
      (fs0 ++ [String.string_of_list_ascii (fbytes f)]))) by apply step_quoted_comma.
    destruct (IH g (fs0 ++ [String.string_of_list_ascii (fbytes f)]) (p3 ++ [LF]) rd' pl' (S (S pc')))
      as [k' ->]; [done|done|exists p3; split; [done|elems]|app_done|].
    exists k'. rewrite string_of_fbytes, <- app_assoc, HF. done.
  (* a non-quoted field, then a comma *)
  - rewrite write_field_plain, write_fields_cons1 in Ht by done.
    destruct (fieldNeedsQuotes_false f Eq) as (Hq & Hlf & _ & Hc).
    destruct (LF_split p (rd_input rd) (fbytes f ++ [COMMA]) (write_field g ++ write_fields 1 gs ++ LF :: rest))
      as (p3 & -> & Ht3); [app_done|done|elems|].
    rewrite (parse_next _ _ (mkPState PField (p3 ++ [LF]) rd pl (pc + S (length (fbytes f)))
      (fs0 ++ [String.string_of_list_ascii (fbytes f)]))).
    2:{ rewrite <- !app_assoc. apply step_field_comma; done. }
    destruct (IH g (fs0 ++ [String.string_of_list_ascii (fbytes f)]) (p3 ++ [LF]) rd pl (pc + S (length (fbytes f))))
      as [k' ->]; [done|done|exists p3; split; [done|elems]|app_done|].
    exists k'. rewrite string_of_fbytes, <- app_assoc. done.
Qed.

(** ** Reading back a written file *)

(** A record that reads back as written: at least one field, not the
    single empty field (written as an empty line, which the reader skips),
    and no CR in a field (the reader turns CR LF inside a quoted field
    into LF). *)
Definition writable (record : list string) : bool :=
  bool_decide (record <> []) && bool_decide (record <> [""]) &&
  forallb (fun f => bool_decide (CR ∉ fbytes f)) record.

Lemma writable_spec r :
  writable r = true -> r <> [] /\ r <> [""] /\ Forall (fun f => CR ∉ fbytes f) r.
Proof.
  unfold writable. rewrite !andb_true_iff, !bool_decide_eq_true, forallb_forall.
  intros [[H1 H2] H3]. split_and!; [done|done|]. apply Forall_forall. intros f Hf.
  assert (In f r) as Hin by (first [exact Hf | by apply list_elem_of_In in Hf]).
  specialize (H3 f Hin). by apply bool_decide_eq_true in H3.
Qed.

Lemma Write_cons f fs : Write (f :: fs) = write_field f ++ write_fields 1 fs ++ [LF].
Proof. unfold Write. simpl. by rewrite <- app_assoc. Qed.

Lemma Write_noCR r : Forall (fun f => CR ∉ fbytes f) r -> CR ∉ Write r.
Proof. intros H. unfold Write. pose proof (write_fields_noCR 0 r H). elems. Qed.

(** The first line of a written record is not empty. *)
Lemma Write_first_line r :
  writable r = true -> exists p x, Write r = p ++ LF :: x /\ LF ∉ p /\ p <> [].
Proof.
  intros Hw. destruct (writable_spec r Hw) as (Hne & Hne1 & Hcr).
  destruct (first_LF (Write r)) as (p & x & E & Hp); [unfold Write; elems|].
  exists p, x. split_and!; [done|done|]. intros ->. simpl in E.
  destruct r as [|f fs]; [done|]. rewrite Write_cons in E.
  destruct (fieldNeedsQuotes f) eqn:Eq.
  - rewrite write_field_quoted in E by done. simpl in E. injection E. intros. discriminate.
  - rewrite write_field_plain in E by done.
    destruct (fbytes f) as [|y b] eqn:Eb.
    + assert (f = "") as -> by (rewrite <- (string_of_fbytes f), Eb; done).
      destruct fs as [|g gs]; [done|]. rewrite write_fields_cons1 in E. simpl in E.
      injection E. intros. discriminate.
    + destruct (fieldNeedsQuotes_false f Eq) as (_ & Hlf & _). change (String.list_ascii_of_string f) with (fbytes f) in Hlf. rewrite Eb in Hlf.
      simpl in E. injection E as Ey _. apply Hlf. rewrite Ey. left.
Qed.

(** [readRecord] on a written record reads exactly that record. *)
Lemma readRecord_write rd r rest :
  writable r = true -> CR ∉ rest -> rd_input rd = Write r ++ rest ->
  exists rl k, readRecord rd = Some (check_fields rl (r, None, mkReader rest k (FieldsPerRecord rd))).
Proof.
  intros Hw Hrest Hin. destruct (writable_spec r Hw) as (Hne & _ & Hcr).
  destruct (Write_first_line r Hw) as (p & x & E & Hp & Hpne).
  assert (Hcrp : CR ∉ p) by (pose proof (Write_noCR r Hcr) as Hc; rewrite E in Hc; elems).
  destruct rd as [input k0 F]. simpl in Hin. subst input.
  assert (Hs : skipEmpty (S (length (Write r ++ rest))) (mkReader (Write r ++ rest) k0 F) =
               Some (p ++ [LF], mkReader (x ++ rest) (S k0) F)).
  { rewrite E, <- app_assoc. simpl. rewrite readLine_app by done. simpl.
    rewrite lengthNL_snoc, length_app. simpl.
    destruct (Nat.eqb_spec (length p + 1) 1) as [Hl|_]; [destruct p; [done|simpl in Hl; lia]|done]. }
  destruct r as [|f fs]; [done|].
  destruct (parse_record (S k0) f fs [] (p ++ [LF]) (mkReader (x ++ rest) (S k0) F) (S k0) 1 rest)
    as [k Hk]; [done|done|by exists p|
      transitivity (Write (f :: fs) ++ rest); [rewrite E; app_done|rewrite Write_cons; app_done]|].
  exists (S k0), k. unfold readRecord. simpl rd_input. rewrite Hs. lazy beta iota. exact (f_equal _ (f_equal _ Hk)).
Qed.

Lemma WriteAll_cons r rows : WriteAll (r :: rows) = Write r ++ WriteAll rows.
Proof. done. Qed.

Lemma WriteAll_noCR rows : Forall (fun r => writable r = true) rows -> CR ∉ WriteAll rows.
Proof.
  induction rows as [|r rows IH]; intros H; [apply not_elem_of_nil|].
  apply Forall_cons in H as [Hr H]. rewrite WriteAll_cons.
  pose proof (Write_noCR r (proj2 (proj2 (writable_spec r Hr)))). pose proof (IH H). elems.
Qed.

Lemma Write_length r : 0 < length (Write r).
Proof. unfold Write. rewrite length_app. simpl. lia. Qed.

Lemma readRecord_eof k F : readRecord (mkReader [] k F) = None.
Proof. done. Qed.

(** The record of one empty field is written as a lone LF. *)
Lemma Write_empty_record : Write [""] = [LF].
Proof. reflexivity. Qed.

(** [readRecord] skips a lone LF at the start of its input, counting the line. *)
Lemma readRecord_skip_LF rest k F : readRecord (mkReader (LF :: rest) k F) = readRecord (mkReader rest (S k) F).
Proof. reflexivity. Qed.

Lemma ReadAll_loop_same_record fuel rd rd' acc :
  readRecord rd = readRecord rd' -> ReadAll_loop fuel rd acc = ReadAll_loop fuel rd' acc.
Proof. intros H. destruct fuel; simpl; [done|]. by rewrite H. Qed.

Lemma WriteAll_noCR_empty rows :
  Forall (fun r => r = [""] \/ writable r = true) rows -> CR ∉ WriteAll rows.
Proof.
  induction rows as [|r rows IH]; intros H; [apply not_elem_of_nil|].
  apply Forall_cons in H as [[->|Hr] H]; rewrite WriteAll_cons; pose proof (IH H).
  - rewrite Write_empty_record. elems.
  - pose proof (Write_noCR r (proj2 (proj2 (writable_spec r Hr)))). elems.
Qed.

(** Once [FieldsPerRecord] is [n], records of [n] fields are read back,
    and records of one empty field are skipped. *)
Lemma ReadAll_loop_write_empty rows n rd acc fuel :
  Forall (fun r => r = [""] \/ (writable r = true /\ length r = n)) rows -> FieldsPerRecord rd = Z.of_nat n ->
  rd_input rd = WriteAll rows -> length (rd_input rd) < fuel ->
  ReadAll_loop fuel rd acc = inr (acc ++ filter (fun r => r <> [""]) rows).
Proof.
  revert rd acc fuel. induction rows as [|r rows IH]; intros rd acc [|fuel] Hr HF Hin Hf; try lia.
  - destruct rd as [input k F]. simpl in Hin. subst input. simpl. by rewrite app_nil_r.
  - assert (Hcr : CR ∉ WriteAll rows).
    { apply WriteAll_noCR_empty. apply (Forall_impl _ _ _ (Forall_inv_tail Hr)). intros ? [|[]]; auto. }
    apply Forall_cons in Hr as [[->|[Hw Hl]] Hr].
    + destruct rd as [input k F]. cbn [rd_input FieldsPerRecord] in Hin, HF, Hf. subst input.
      rewrite WriteAll_cons, Write_empty_record in Hf |- *.
      rewrite (ReadAll_loop_same_record _ _ (mkReader (WriteAll rows) (S k) F)) by apply readRecord_skip_LF.
      rewrite filter_cons_False by (intros Hne; by apply Hne). apply IH; [done|done|done|]. simpl in Hf |- *. lia.
    + destruct (readRecord_write rd r (WriteAll rows)) as (rl & k & Hrd); [done|done|done|].
      simpl. rewrite Hrd, check_fields_same by (simpl; try rewrite HF, Hl; try done; by apply writable_spec).
      simpl. rewrite (IH _ _ fuel); [|done|simpl; by rewrite HF|done|].
      * rewrite filter_cons_True by apply writable_spec, Hw. by rewrite <- app_assoc.
      * simpl. rewrite Hin, WriteAll_cons, length_app in Hf. pose proof (Write_length r). lia.
Qed.

Lemma filter_nonempty_id (rows : list (list string)) :
  Forall (fun r => r <> [""]) rows -> filter (fun r => r <> [""]) rows = rows.
Proof. induction 1 as [|r rows Hr _ IH]; [done|]. rewrite filter_cons_True by done. by f_equal. Qed.

Lemma ReadAll_loop_write rows n rd acc fuel :
  Forall (fun r => writable r = true /\ length r = n) rows -> FieldsPerRecord rd = Z.of_nat n ->
  rd_input rd = WriteAll rows -> length (rd_input rd) < fuel ->
  ReadAll_loop fuel rd acc = inr (acc ++ rows).
Proof.
  intros Hr HF Hin Hf. rewrite (ReadAll_loop_write_empty rows n); [|by eapply Forall_impl; eauto|done..].
  rewrite filter_nonempty_id; [done|]. apply (Forall_impl _ _ _ Hr). intros r [Hw _]. by apply writable_spec.
Qed.

(** Once [FieldsPerRecord] is [n], the first record of another length is an
    [ErrFieldCount]. *)
Lemma ReadAll_loop_ragged rows n rd acc fuel :
  Forall (fun r => writable r = true) rows -> 0 < n -> FieldsPerRecord rd = Z.of_nat n ->
  (exists r, r ∈ rows /\ length r <> n) ->
  rd_input rd = WriteAll rows -> length (rd_input rd) < fuel ->
  exists e, ReadAll_loop fuel rd acc = inl e /\ Err e = ErrFieldCount.
Proof.
  revert rd acc fuel. induction rows as [|r rows IH]; intros rd acc [|fuel] Hr Hn HF Hex Hin Hf; try lia.
  - destruct Hex as (r & Hr' & _). by apply not_elem_of_nil in Hr'.
  - apply Forall_cons in Hr as [Hw Hr].
    destruct (readRecord_write rd r (WriteAll rows)) as (rl & k & Hrd); [done|by apply WriteAll_noCR|done|].
    simpl. rewrite Hrd. destruct (decide (length r = n)) as [Hl|Hl].
    + rewrite check_fields_same by (simpl; try rewrite HF, Hl; try done; by apply writable_spec).
      apply (IH _ _ fuel); [done|done|simpl; by rewrite HF| |done|].
      * destruct Hex as (r' & Hr' & Hl'). apply elem_of_cons in Hr' as [->|Hr']; [done|by exists r'].
      * simpl. rewrite Hin, WriteAll_cons, length_app in Hf. pose proof (Write_length r). lia.
    + rewrite check_fields_count by (simpl; lia). by eexists.
Qed.

Lemma WriteAll_roundtrip r0 rows :
  Forall (fun r => writable r = true) (r0 :: rows) -> Forall (fun r => length r = length r0) rows ->
  ReadAll (WriteAll (r0 :: rows)) = inr (r0 :: rows).
Proof.
  intros [Hw0 Hw]%Forall_cons Hl.
  assert (Hrows : Forall (fun r => writable r = true /\ length r = length r0) rows)
    by (apply Forall_and; done).
  unfold ReadAll. set (input := WriteAll (r0 :: rows)).
  destruct (readRecord_write (NewReader input) r0 (WriteAll rows)) as (rl & k & Hrd);
    [done|by apply WriteAll_noCR|done|].
  cbn [ReadAll_loop]. rewrite Hrd, check_fields_set by done. simpl.
  apply (ReadAll_loop_write _ (length r0) _ [r0]); [done|done|done|].
  simpl. unfold input. rewrite WriteAll_cons, length_app. pose proof (Write_length r0). lia.
Qed.

Lemma WriteAll_ragged r0 rows :
  Forall (fun r => writable r = true) (r0 :: rows) ->
  (exists r, r ∈ rows /\ length r <> length r0) ->
  exists e, ReadAll (WriteAll (r0 :: rows)) = inl e /\ Err e = ErrFieldCount.
Proof.
  intros [Hw0 Hrows]%Forall_cons Hex.
  unfold ReadAll. set (input := WriteAll (r0 :: rows)).
  destruct (readRecord_write (NewReader input) r0 (WriteAll rows)) as (rl & k & Hrd);
    [done|by apply WriteAll_noCR|done|].
  cbn [ReadAll_loop]. rewrite Hrd, check_fields_set by done. simpl.
  apply (ReadAll_loop_ragged rows (length r0) _ [r0]); [done| |done|done|done|].
  - destruct (writable_spec r0 Hw0) as [Hne _]. destruct r0; [done|simpl; lia].
  - simpl. unfold input. rewrite WriteAll_cons, length_app. pose proof (Write_length r0). lia.
Qed.

(** C28: the round trip of the spec's section 8: [csv.Writer.WriteAll]
    then [csv.Reader.ReadAll] gives back the rows, when they all have the
    first row's number of fields and each is [writable]. *)
Theorem ReadAll_WriteAll r0 rows :
  forallb writable (r0 :: rows) = true ->
  forallb (fun r => length r =? length r0) rows = true ->
  ReadAll (WriteAll (r0 :: rows)) = inr (r0 :: rows).
Proof.
  rewrite !forallb_Forall_true. intros Hw Hl. apply WriteAll_roundtrip; [done|].
  apply (Forall_impl _ _ _ Hl). intros r. apply Nat.eqb_eq.
Qed.

(** C30: the program's output is a ragged table (matched rows have two
    more fields), and [csv.Reader.ReadAll] with its default
    [FieldsPerRecord] refuses it: when a row after the first has another
    number of fields, reading back what [WriteAll] wrote fails with
    [ErrFieldCount].  The spec's round trip does not hold for it. *)
Theorem ReadAll_WriteAll_ragged r0 rows :
  forallb writable (r0 :: rows) = true ->
  existsb (fun r => negb (length r =? length r0)) rows = true ->
  exists e, ReadAll (WriteAll (r0 :: rows)) = inl e /\ Err e = ErrFieldCount.
Proof.
  rewrite forallb_Forall_true, existsb_elem. intros Hw (r & Hr & Hn). apply WriteAll_ragged; [done|].
  exists r. split; [done|]. by apply negb_true_iff, Nat.eqb_neq in Hn.
Qed.

(** C38: a record made of one empty field is written by
    [csv.Writer.WriteAll] as an empty line, and [csv.Reader.ReadAll]
    skips empty lines: reading back a written file gives its rows without
    every such record, the others in order.  A data row of the input
    whose only field is empty cannot occur (ReadAll skips it too, and
    the rows have the header's number of fields), but the writer does not
    guard against it. *)
Theorem ReadAll_WriteAll_drops_empty r0 rows :
  writable r0 = true ->
  Forall (fun r => r = [""] \/ (writable r = true /\ length r = length r0)) rows ->
  ReadAll (WriteAll (r0 :: rows)) = inr (r0 :: filter (fun r => r <> [""]) rows).
Proof.
  intros Hw0 Hrows. unfold ReadAll. set (input := WriteAll (r0 :: rows)).
  destruct (readRecord_write (NewReader input) r0 (WriteAll rows)) as (rl & k & Hrd);
    [done| |done|].
  { apply WriteAll_noCR_empty. apply (Forall_impl _ _ _ Hrows). intros ? [|[]]; auto. }
  cbn [ReadAll_loop]. rewrite Hrd, check_fields_set by done. simpl.
  apply (ReadAll_loop_write_empty _ (length r0) _ [r0]); [done|done|done|].
  simpl. unfold input. rewrite WriteAll_cons, length_app. pose proof (Write_length r0). lia.
Qed.

(** ** Witnesses and examples *)

Lemma ReadAll_WriteAll_witness :
  forallb writable (["Admin 1"; "4,5"] :: [[String.String "q" (String.String DQ "x"); " lead"]]) = true /\
  forallb (fun r => length r =? length ["Admin 1"; "4,5"]) [[String.String "q" (String.String DQ "x"); " lead"]] = true /\
  ReadAll (WriteAll (["Admin 1"; "4,5"] :: [[String.String "q" (String.String DQ "x"); " lead"]])) =
    inr (["Admin 1"; "4,5"] :: [[String.String "q" (String.String DQ "x"); " lead"]]).
Proof.
  split; [reflexivity|]. split; [reflexivity|].
  apply ReadAll_WriteAll; reflexivity.
Defined.

Lemma ReadAll_WriteAll_ragged_witness :
  forallb writable (["lat"; "lon"] :: [["-6.19"; "106.77"; "12"; "Kebon Jeruk"]]) = true /\
  existsb (fun r => negb (length r =? length ["lat"; "lon"]))
    [["-6.19"; "106.77"; "12"; "Kebon Jeruk"]] = true /\
  exists e, ReadAll (WriteAll (["lat"; "lon"] :: [["-6.19"; "106.77"; "12"; "Kebon Jeruk"]])) = inl e /\
    Err e = ErrFieldCount.
Proof.
  split; [reflexivity|]. split; [reflexivity|].
  apply ReadAll_WriteAll_ragged; reflexivity.
Defined.

Lemma ReadAll_WriteAll_drops_empty_witness :
  writable ["a"] = true /\
  ReadAll (WriteAll (["a"] :: [[""]; ["c"]])) = inr (["a"] :: [["c"]]).
Proof.
  assert (Hw : writable ["a"] = true) by reflexivity. split; [exact Hw|].
  rewrite (ReadAll_WriteAll_drops_empty ["a"] [[""]; ["c"]] Hw); [reflexivity|].
  constructor; [left; reflexivity|constructor; [right; split; reflexivity|constructor]].
Defined.

End CsvRoundTrip.
