(* ===== verification/Overpass.v ===== *)
(** * Overpass: the data of src/main.go and the Overpass client

    The Go structs of src/main.go:24-60 as Records ([Node], [kelurahanDb],
    [OverpassResponse], [Osm3sData], [Relation] = [OverpassElement],
    [Bounds]); a Go [map[string]string] as a [gmap string string], read
    with Go's zero-value default ([tag]); the query template of
    src/main.go:93-98 and its formatting at src/main.go:132 with the verb
    [%f] of [GoFloat];
    [sendOverpassRequest] (src/main.go:192-202) and [fetchOverpassData]
    (src/main.go:173-190).

    The HTTP client, the body read and [json.Unmarshal] are what the code
    calls and does not define: they are the interface [Transport].  The
    [n]-th request of a run is answered by [http_do n req], so a run sees
    the network as a fixed sequence of answers. *)

From stdpp Require Import base gmap strings list.
From Stdlib Require Import Ascii String ZArith.
From S2P Require Import Prelude GoString GoFloat.

Local Open Scope string_scope.

Module Overpass.

(** Go's [float64], as [GoFloat] models it. *)
Definition float64 : Set := GoFloat.float64.

(** ** The structs of src/main.go:24-60 *)

Record Node := mkNode { Lat : float64; Lon : float64 }.

(** A row of [daftar_kelurahan]: [id int], [name string]. *)
Record kelurahanDb := mkKelurahan { id : Z; name : string }.

Record Bounds := mkBounds { Minlat : float64; Minlon : float64; Maxlat : float64; Maxlon : float64 }.

(** [Relation]; its field [Type] is [type_] here. *)
Record Relation := mkRelation {
  type_ : string;
  ID : Z;
  bounds : Bounds;
  Tags : gmap string string
}.

(** [type OverpassElement Relation]. *)
Definition OverpassElement : Type := Relation.

Record Osm3sData := mkOsm3s {
  TimestampOsmBase : string;
  TimestampAreasBase : string;
  Copyright : string
}.

Record OverpassResponse := mkResponse {
  Version : float64;
  Generator : string;
  Osm3s : Osm3sData;
  Elements : list OverpassElement
}.

(** [m[k]] on a Go [map[string]string]: the zero value [""] when [k] is
    absent (a [nil] map, from a JSON object without [tags], reads the
    same way). *)
Definition tag (m : gmap string string) (k : string) : string := default "" (m !! k).

(** ** The query of src/main.go:93-98 and src/main.go:132 *)

Definition nl : string := String (ascii_of_nat 10) "".
Definition tab : string := String (ascii_of_nat 9) "".

(** The raw string literal [query] of src/main.go:93-98 with the texts
    [a] and [b] in place of its two verbs. *)
Definition fill_query (a b : string) : string :=
  nl ++ tab ++ tab ++ "[out:json];" ++ nl ++
  tab ++ tab ++ "is_in(" ++ a ++ "," ++ b ++ ")->.a;" ++ nl ++
  tab ++ tab ++ "relation(pivot.a)[admin_level=7];" ++ nl ++
  tab ++ tab ++ "out tags bb;" ++ nl ++ "    ".

(** [fmt.Sprintf(query, float64(lat), float64(lon))] (src/main.go:132):
    both verbs are [%f]. *)
Definition KelurahanQuery (lat lon : float64) : string :=
  fill_query (GoFloat.fmt_f lat) (GoFloat.fmt_f lon).

(** ** [sendOverpassRequest] and [fetchOverpassData] *)

Definition overpassURL : string := "https://overpass-api.de/api/interpreter".

Record Request := mkRequest {
  method : string;
  url : string;
  content_type : string;
  body : string
}.

(** The response of [client.Do]: its status (never checked by the code)
    and its body, whose [io.ReadAll] may fail ([None]). *)
Record Response := mkHttpResponse { StatusCode : Z; Body : option string }.

(** [http.NewRequest("POST", overpassURL, "data=" + query)] with the
    [Content-Type] header set; [NewRequest] cannot fail on this constant
    method and URL, so its error branch is dead. *)
Definition sendOverpassRequest (query : string) : Request :=
  {| method := "POST"; url := overpassURL;
     content_type := "application/x-www-form-urlencoded";
     body := "data=" ++ query |}.

(** What the code calls and does not define. *)
Class Transport := {
  (** [client.Do(req)] for the [n]-th request of the run; [None] is a
      transport error. *)
  http_do : nat -> Request -> option Response;
  (** [json.Unmarshal(body, &response)]; [None] is a decoding error. *)
  json_unmarshal : string -> option OverpassResponse
}.

(** The three wrapped errors of [fetchOverpassData]. *)
Inductive FetchError :=
| ErrSendRequest       (* "failed to send request: %w" *)
| ErrReadBody          (* "failed to read response body: %w" *)
| ErrUnmarshal.        (* "failed to unmarshal JSON: %w" *)

Section Fetch.
Context `{Transport}.

(** [fetchOverpassData(query)] as the [n]-th request of the run. *)
Definition fetchOverpassData (n : nat) (query : string) : FetchError + OverpassResponse :=
  match http_do n (sendOverpassRequest query) with
  | None => inl ErrSendRequest
  | Some resp =>
      match Body resp with
      | None => inl ErrReadBody
      | Some b =>
          match json_unmarshal b with
          | None => inl ErrUnmarshal
          | Some r => inr r
          end
      end
  end.
End Fetch.

End Overpass.
