(* ===== verification/Matcher.v ===== *)
(** * Matcher: the element loop of src/main.go:139-151

    [slices.IndexFunc] (Go's generic slices package: the first index whose
    element satisfies [f], or [-1]); the predicate of src/main.go:141-143
    ([kelurahan_match]: equal keys [GoString.norm]); the loop over the
    response's elements, written as the code has it, in the monad [M] of
    the driver, with the action on a match ([on_match]: the two appends
    of src/main.go:147-148) and the out-of-range panic of
    [resultRows[kelurhanIndex]] as parameters of the Section;
    the reference [find_match] (the first pair, in order, of a level-7
    element and a reference record with the same key); and the matcher the
    spec describes in its section 4.4 ([spec_match]: only the first
    level-7 element is tried).

    Theorems: the functional specification of [IndexFunc]; the loop is
    [find_match] (refinement, no panic reachable); the loop runs the match
    action on the first qualifying pair, the tests of src/main.go:140-143
    written out ([element_loop_first_match]); the loop does what the
    spec's matcher says when at most one element is at level 7, and
    passes over a first level-7 element with no reference, where the
    spec's matcher answers "no match". *)

From stdpp Require Import base gmap strings list.
From Stdlib Require Import Ascii String ZArith Lia.
From S2P Require Import Prelude GoString GoFloat Overpass.

Local Open Scope string_scope.
Local Open Scope go_scope.

Module Matcher.
Import GoString Overpass.

(** ** [slices.IndexFunc] *)

(** [for i := range s { if f(s[i]) { return i } }; return -1], the loop
    counter starting at [i]. *)
Fixpoint IndexFunc_from {A} (s : list A) (f : A -> bool) (i : Z) : Z :=
  match s with
  | [] => (-1)%Z
  | x :: s' => if f x then i else IndexFunc_from s' f (i + 1)
  end.

Definition IndexFunc {A} (s : list A) (f : A -> bool) : Z := IndexFunc_from s f 0.

(** ** The predicates of src/main.go:140-143 *)

Section Keys.
Context `{CR : CaseRanges}.

(** [element.Tags["admin_level"] == "7"] *)
Definition is_admin7 (element : OverpassElement) : bool :=
  String.eqb (tag (Tags element) "admin_level") "7".

(** The closure passed to [IndexFunc]:
    [ReplaceAll(ToLower(kelurahan.name), " ", "") ==
     ReplaceAll(ToLower(element.Tags["name"]), " ", "")]. *)
Definition kelurahan_match (element : OverpassElement) (kelurahan : kelurahanDb) : bool :=
  String.eqb (norm (name kelurahan)) (norm (tag (Tags element) "name")).

(** ** The loop of src/main.go:139-151 *)

Section ElementLoop.
Context {St Ex : Type}.
(** The panic of an out-of-range [resultRows[i]]. *)
Variable panic_index : Z -> Ex.
(** [modifiedRecords[i] = append(record, Itoa(k.id));
     modifiedRecords[i] = append(modifiedRecords[i], k.name)] *)
Variable on_match : kelurahanDb -> M St Ex unit.
Variable resultRows : list kelurahanDb.

(** [resultRows[i]], with Go's bounds check. *)
Definition index_or_panic (i : Z) : M St Ex kelurahanDb :=
  if (i <? 0)%Z then stop (panic_index i)
  else match resultRows !! Z.to_nat i with
       | Some k => ret k
       | None => stop (panic_index i)
       end.

(** One round: [if admin_level == "7" { idx := IndexFunc(...); if idx ==
    -1 { continue }; ...append...; break }]; the result is [true] on
    [break]. *)
Definition element_body (element : OverpassElement) : M St Ex bool :=
  if is_admin7 element then
    let kelurhanIndex := IndexFunc resultRows (kelurahan_match element) in
    if (kelurhanIndex =? -1)%Z then ret false
    else
      let* k := index_or_panic kelurhanIndex in
      let* _ := on_match k in
      ret true
  else ret false.

Definition element_loop (elements : list OverpassElement) : M St Ex unit :=
  for_break element_body elements.
End ElementLoop.

(** ** Reference and specification matchers *)

(** The first level-7 element, in order, that has a reference with the
    same key, and its first such reference. *)
Fixpoint find_match (rows : list kelurahanDb) (elements : list OverpassElement)
  : option kelurahanDb :=
  match elements with
  | [] => None
  | e :: es =>
      if is_admin7 e then
        match list_find (fun k => kelurahan_match e k = true) rows with
        | Some (_, k) => Some k
        | None => find_match rows es
        end
      else find_match rows es
  end.

(** The matcher of the spec (section 4.4), written from its words: "the
    first element whose tags contain an administrative-level marker equal
    to" 7; its name tag normalised (lowercase, spaces removed) against the
    reference names normalised the same way, the first equal one; "no
    match" when there is no such element or no reference name matches. *)
Definition spec_level7 (e : OverpassElement) : bool :=
  String.eqb (tag (Tags e) "admin_level") "7".

Definition spec_match (rows : list kelurahanDb) (elements : list OverpassElement)
  : option kelurahanDb :=
  match list_find (fun e => spec_level7 e = true) elements with
  | Some (_, e) =>
      snd <$> list_find (fun k => String.eqb (norm (name k)) (norm (tag (Tags e) "name")) = true) rows
  | None => None
  end.

End Keys.

(** ** Lemmas *)

Lemma IndexFunc_from_find {A} (s : list A) (f : A -> bool) (i : Z) :
  IndexFunc_from s f i =
  match list_find (fun x => f x = true) s with
  | Some (j, _) => (i + Z.of_nat j)%Z
  | None => (-1)%Z
  end.
Proof.
  revert i. induction s as [|x s IH]; intros i; simpl; [done|].
  case_decide as Hf.
  - rewrite Hf. simpl. lia.
  - apply not_true_is_false in Hf. rewrite Hf, IH.
    destruct (list_find _ s) as [[j y]|]; simpl; [lia|done].
Qed.

Lemma IndexFunc_find {A} (s : list A) (f : A -> bool) :
  IndexFunc s f =
  match list_find (fun x => f x = true) s with
  | Some (j, _) => Z.of_nat j
  | None => (-1)%Z
  end.
Proof. unfold IndexFunc. rewrite IndexFunc_from_find. by destruct list_find as [[]|]. Qed.

Lemma index_or_panic_lookup {St Ex} (panic : Z -> Ex) rows j k (s : St) :
  rows !! j = Some k -> index_or_panic panic rows (Z.of_nat j) s = (Cont k, s).
Proof.
  intros H. unfold index_or_panic. destruct (Z.ltb_spec (Z.of_nat j) 0); [lia|].
  rewrite Nat2Z.id, H. done.
Qed.

(** The first match of an element among the references, as the loop sees
    it through [IndexFunc]. *)
Lemma element_body_find `{CR : CaseRanges} {St Ex} (panic : Z -> Ex) (on_match : kelurahanDb -> M St Ex unit) rows e s :
  element_body panic on_match rows e s =
  if is_admin7 e then
    match list_find (fun k => kelurahan_match e k = true) rows with
    | Some (_, k) => bind (on_match k) (fun _ => ret true) s
    | None => (Cont false, s)
    end
  else (Cont false, s).
Proof.
  unfold element_body. destruct (is_admin7 e); [|done].
  rewrite IndexFunc_find. destruct (list_find _ rows) as [[j k]|] eqn:Hf; [|done].
  apply list_find_Some in Hf as (Hj & _ & _).
  destruct (Z.eqb_spec (Z.of_nat j) (-1)); [lia|].
  unfold bind at 1. rewrite (index_or_panic_lookup panic rows j k s Hj). reflexivity.
Qed.

Lemma bind_true_ret {St Ex} (m : M St Ex unit) (k : bool -> M St Ex unit) s :
  bind (bind m (fun _ => ret true)) k s = bind m (fun _ => k true) s.
Proof. unfold bind. destruct (m s) as [[]?]; done. Qed.

(** The element at a position of the list and everything before it. *)
Lemma lookup_cons_lt {A} (x : A) (l : list A) i y :
  (x :: l) !! S i = Some y -> l !! i = Some y.
Proof. done. Qed.

Lemma bind_ret_tt {St Ex} (m : M St Ex unit) (s : St) : bind m (fun _ => ret tt) s = m s.
Proof. unfold bind. destruct (m s) as [[[]|x] s']; done. Qed.

Lemma is_admin7_true `{CR : CaseRanges} e : is_admin7 e = true <-> tag (Tags e) "admin_level" = "7".
Proof. apply String.eqb_eq. Qed.

Lemma kelurahan_match_true `{CR : CaseRanges} e k :
  kelurahan_match e k = true <-> norm (name k) = norm (tag (Tags e) "name").
Proof. apply String.eqb_eq. Qed.

Lemma kelurahan_match_false `{CR : CaseRanges} e k :
  kelurahan_match e k = false <-> norm (name k) <> norm (tag (Tags e) "name").
Proof. unfold kelurahan_match. rewrite String.eqb_neq. done. Qed.

(** ** Theorems *)

(** C19: [slices.IndexFunc(s, f)] returns [-1] when no element satisfies
    [f], and otherwise the index of the first element that does. *)
Theorem IndexFunc_spec {A} (s : list A) (f : A -> bool) :
  (IndexFunc s f = (-1)%Z /\ Forall (fun x => f x = false) s) \/
  (exists i x, IndexFunc s f = Z.of_nat i /\ s !! i = Some x /\ f x = true /\
     forall j y, (j < i)%nat -> s !! j = Some y -> f y = false).
Proof.
  rewrite IndexFunc_find. destruct (list_find _ s) as [[i x]|] eqn:Hf.
  - right. apply list_find_Some in Hf as (Hi & Hx & Hlt).
    exists i, x. split_and!; [done..|]. intros j y Hj Hy.
    apply not_true_is_false. eapply Hlt; eauto.
  - left. split; [done|]. apply list_find_None in Hf.
    eapply Forall_impl; [exact Hf|]. intros x. apply not_true_is_false.
Qed.

(** The element loop of src/main.go:139-151 as a [match] on [find_match]. *)
Lemma element_loop_eq `{CR : CaseRanges} {St Ex} (panic : Z -> Ex) (on_match : kelurahanDb -> M St Ex unit)
    rows els (s : St) :
  element_loop panic on_match rows els s =
  match find_match rows els with
  | Some k => bind (on_match k) (fun _ => ret tt) s
  | None => (Cont tt, s)
  end.
Proof.
  revert s. induction els as [|e es IH]; intros s; [done|].
  unfold element_loop. cbn [for_break find_match].
  unfold bind at 1. rewrite element_body_find.
  destruct (is_admin7 e); [destruct (list_find _ rows) as [[j k]|]|]; [|apply IH..].
  unfold bind. destruct (on_match k s) as [[[]|x] s'']; done.
Qed.

(** A reference [find_match] returns is one of the table. *)
Lemma find_match_in `{CR : CaseRanges} rows els k : find_match rows els = Some k -> k ∈ rows.
Proof.
  induction els as [|e es IH]; [done|]. simpl.
  destruct (is_admin7 e); [destruct (list_find _ rows) as [[j k0]|] eqn:Hf|]; [|done..].
  intros [= <-]. apply list_find_Some in Hf as (Hj & _). eapply list_elem_of_lookup_2; eauto.
Qed.

(** C6: the element loop of src/main.go:139-151 (with its [continue] on
    [-1], its index into [resultRows] and its [break]) runs the action of a
    match exactly once, on the reference [find_match] chooses, and then
    stops; with no match it changes nothing; its index into [resultRows]
    never panics. *)
Theorem element_loop_find_match `{CR : CaseRanges} {St Ex} (panic : Z -> Ex) (on_match : kelurahanDb -> M St Ex unit)
    rows els (s : St) :
  element_loop panic on_match rows els s =
  match find_match rows els with
  | Some k => on_match k s
  | None => (Cont tt, s)
  end.
Proof.
  rewrite element_loop_eq. destruct (find_match rows els) as [k|]; [|done].
  apply bind_ret_tt.
Qed.

(** [find_match] returns [k] exactly when some level-7 element at
    position [i] has [k] as its first reference with the same key, and no
    level-7 element before [i] has any reference with the same key. *)
Lemma find_match_spec `{CR : CaseRanges} rows els k :
  find_match rows els = Some k <->
  exists i e j, els !! i = Some e /\ is_admin7 e = true /\
    rows !! j = Some k /\ kelurahan_match e k = true /\
    (forall j' k', (j' < j)%nat -> rows !! j' = Some k' -> kelurahan_match e k' = false) /\
    (forall i' e', (i' < i)%nat -> els !! i' = Some e' -> is_admin7 e' = true ->
       forall k', k' ∈ rows -> kelurahan_match e' k' = false).
Proof.
  induction els as [|e es IH]; simpl.
  - split; [done|]. intros (i & e & _ & He & _). done.
  - destruct (is_admin7 e) eqn:Ha;
      [destruct (list_find _ rows) as [[j k0]|] eqn:Hf|].
    + apply list_find_Some in Hf as (Hj & Hk & Hlt). split.
      * intros [= <-]. exists 0%nat, e, j. split_and!; try done; [|lia].
        intros j' k' ? ?. apply not_true_is_false. eapply Hlt; eauto.
      * intros (i & e' & j' & Hi & Ha' & Hj' & Hk' & Hfirst & Hbefore).
        destruct i as [|i]; [|exfalso].
        -- injection Hi as <-. destruct (Nat.lt_trichotomy j j') as [Hlt'|[<-|Hlt']].
           ++ rewrite (Hfirst j k0) in Hk; done.
           ++ congruence.
           ++ exfalso. eapply Hlt; eauto.
        -- rewrite (Hbefore 0%nat e) in Hk; [done|lia|done|done|].
           eapply list_elem_of_lookup_2; eauto.
    + apply list_find_None in Hf. rewrite IH. split.
      * intros (i & e' & j & ? & ? & ? & ? & ? & Hb). exists (S i), e', j. split_and!; try done.
        intros [|i'] e'' Hi' He''; simpl in He''; [injection He'' as <-|].
        -- intros _ k' Hk'. eapply Forall_forall in Hf; [|exact Hk']. by apply not_true_is_false.
        -- apply (Hb i'); [lia|done].
      * intros (i & e' & j & Hi & ? & ? & Hk & ? & Hb). destruct i as [|i].
        -- injection Hi as <-. eapply Forall_forall in Hf; [|eapply list_elem_of_lookup_2; eauto].
           done.
        -- exists i, e', j. split_and!; try done. intros i' e'' ? ?. apply (Hb (S i')); [lia|done].
    + rewrite IH. split.
      * intros (i & e' & j & ? & ? & ? & ? & ? & Hb). exists (S i), e', j. split_and!; try done.
        intros [|i'] e'' Hi' He''; simpl in He''; [injection He'' as <-; congruence|].
        apply (Hb i'); [lia|done].
      * intros (i & e' & j & Hi & ? & ? & Hk & ? & Hb). destruct i as [|i].
        -- injection Hi as <-. congruence.
        -- exists i, e', j. split_and!; try done. intros i' e'' ? ?. apply (Hb (S i')); [lia|done].
Qed.

Lemma find_match_no_admin7 `{CR : CaseRanges} rows els :
  (forall i e, els !! i = Some e -> is_admin7 e = false) -> find_match rows els = None.
Proof.
  induction els as [|e es IH]; intros H; [done|]. simpl.
  rewrite (H 0%nat e) by done. apply IH. intros i e' He'. apply (H (S i)). done.
Qed.

Lemma find_match_app `{CR : CaseRanges} rows l1 l2 :
  find_match rows (l1 ++ l2) =
  match find_match rows l1 with Some k => Some k | None => find_match rows l2 end.
Proof.
  induction l1 as [|e es IH]; [done|]. simpl.
  destruct (is_admin7 e); [destruct (list_find _ rows) as [[]|]|]; done.
Qed.

(** A level-7 element with no reference of its key, after elements of
    other levels, is passed over: the search goes on after it. *)
Lemma find_match_skip `{CR : CaseRanges} rows els i e :
  els !! i = Some e -> is_admin7 e = true ->
  (forall i' e', (i' < i)%nat -> els !! i' = Some e' -> is_admin7 e' = false) ->
  (forall k, k ∈ rows -> kelurahan_match e k = false) ->
  find_match rows els = find_match rows (drop (S i) els).
Proof.
  intros Hi Ha Hb Hk. pose proof (lookup_lt_Some _ _ _ Hi) as Hl.
  rewrite <- (take_drop_middle els i e Hi) at 1. rewrite find_match_app, find_match_no_admin7.
  - simpl. rewrite Ha.
    destruct (list_find _ rows) as [[j k]|] eqn:Hf; [|done].
    apply list_find_Some in Hf as (Hj & Hm & _). rewrite Hk in Hm; [done|].
    eapply list_elem_of_lookup_2; eauto.
  - intros i' e' He'. pose proof (lookup_lt_Some _ _ _ He') as Hl'.
    rewrite length_take in Hl'. rewrite lookup_take_lt in He' by lia. apply (Hb i'); [lia|done].
Qed.

Lemma find_match_single_admin7 `{CR : CaseRanges} rows els :
  (forall i j e e', els !! i = Some e -> els !! j = Some e' ->
     is_admin7 e = true -> is_admin7 e' = true -> i = j) ->
  find_match rows els = spec_match rows els.
Proof.
  unfold spec_match. induction els as [|e es IH]; intros Huniq; [done|]. simpl.
  change (spec_level7 e) with (is_admin7 e).
  destruct (is_admin7 e) eqn:Ha.
  - rewrite decide_True by done. simpl.
    destruct (list_find _ rows) as [[j k]|]; [done|].
    apply find_match_no_admin7. intros i e' He'. apply not_true_is_false. intros Ha'.
    specialize (Huniq 0%nat (S i) e e' eq_refl He' Ha Ha'). discriminate.
  - rewrite decide_False by congruence. rewrite IH.
    + destruct (list_find _ es) as [[i e']|]; done.
    + intros i j e1 e2 H1 H2 Ha1 Ha2. specialize (Huniq (S i) (S j) e1 e2 H1 H2 Ha1 Ha2). lia.
Qed.

(** C7: the element loop of src/main.go:139-151 runs the action of a
    match on [k] when [k] is the first pair, in stored order, of an
    element tagged [admin_level = "7"] and a reference whose name, lowered
    and stripped of spaces, equals the element's [name] tag lowered and
    stripped the same way: no level-7 element before that one has a
    reference with its key, and no reference before [k] has it.  When no
    level-7 element has a reference with its key, the loop does nothing. *)
Theorem element_loop_first_match `{CR : CaseRanges} {St Ex} (panic : Z -> Ex)
    (on_match : kelurahanDb -> M St Ex unit) rows els (s : St) :
  (forall i e j k, els !! i = Some e -> tag (Tags e) "admin_level" = "7" ->
     rows !! j = Some k -> norm (name k) = norm (tag (Tags e) "name") ->
     (forall j' k', (j' < j)%nat -> rows !! j' = Some k' -> norm (name k') <> norm (tag (Tags e) "name")) ->
     (forall i' e', (i' < i)%nat -> els !! i' = Some e' -> tag (Tags e') "admin_level" = "7" ->
        forall k', k' ∈ rows -> norm (name k') <> norm (tag (Tags e') "name")) ->
     element_loop panic on_match rows els s = on_match k s) /\
  ((forall i e, els !! i = Some e -> tag (Tags e) "admin_level" = "7" ->
      forall k, k ∈ rows -> norm (name k) <> norm (tag (Tags e) "name")) ->
   element_loop panic on_match rows els s = (Cont tt, s)).
Proof.
  rewrite element_loop_eq. split.
  - intros i e j k Hi Ha Hj Hk Hfirst Hbefore.
    replace (find_match rows els) with (Some k); [apply bind_ret_tt|]. symmetry.
    apply find_match_spec. exists i, e, j. rewrite is_admin7_true, kelurahan_match_true.
    split_and!; try done.
    + intros j' k' ? ?. apply kelurahan_match_false. eauto.
    + intros i' e' ? ? ?%is_admin7_true k' ?. apply kelurahan_match_false. eauto.
  - intros Hnone. destruct (find_match rows els) as [k|] eqn:Hf; [|done]. exfalso.
    apply find_match_spec in Hf as (i & e & j & Hi & Ha & Hj & Hk & _).
    apply is_admin7_true in Ha. apply kelurahan_match_true in Hk.
    apply (Hnone i e Hi Ha k); [eapply list_elem_of_lookup_2; eauto|done].
Qed.

(** C20: when at most one element of the response is tagged
    [admin_level = "7"], the element loop of src/main.go:139-151 does what
    the spec's matcher says: it runs the action of a match on the
    reference [spec_match] returns, and nothing when it returns "no
    match". *)
Theorem element_loop_single_admin7 `{CR : CaseRanges} {St Ex} (panic : Z -> Ex)
    (on_match : kelurahanDb -> M St Ex unit) rows els (s : St) :
  (forall i j e e', els !! i = Some e -> els !! j = Some e' ->
     tag (Tags e) "admin_level" = "7" -> tag (Tags e') "admin_level" = "7" -> i = j) ->
  element_loop panic on_match rows els s =
  match spec_match rows els with
  | Some k => on_match k s
  | None => (Cont tt, s)
  end.
Proof.
  intros Huniq. rewrite element_loop_eq, find_match_single_admin7.
  - destruct (spec_match rows els); [apply bind_ret_tt|done].
  - intros i j e e' Hi Hj Ha Ha'. apply is_admin7_true in Ha, Ha'. eauto.
Qed.

(** C12: the code and the spec's matcher differ.  When the first element
    tagged [admin_level = "7"] has no reference with its key, the spec
    says "no match", but the loop [continue]s on [kelurhanIndex == -1]:
    it goes on with the elements after that one, as if it were not
    there, and matches a later level-7 element that has a reference. *)
Theorem element_loop_diverges_from_spec `{CR : CaseRanges} {St Ex} (panic : Z -> Ex)
    (on_match : kelurahanDb -> M St Ex unit) rows els (s : St) i e :
  els !! i = Some e -> tag (Tags e) "admin_level" = "7" ->
  (forall i' e', (i' < i)%nat -> els !! i' = Some e' -> tag (Tags e') "admin_level" <> "7") ->
  (forall k, k ∈ rows -> norm (name k) <> norm (tag (Tags e) "name")) ->
  spec_match rows els = None /\
  element_loop panic on_match rows els s = element_loop panic on_match rows (drop (S i) els) s.
Proof.
  intros Hi Ha Hb Hk. split.
  - unfold spec_match. rewrite (proj2 (list_find_Some _ els i e)).
    + destruct (list_find _ rows) as [[j k]|] eqn:Hf; [|done].
      apply list_find_Some in Hf as (Hj & Hm & _). apply String.eqb_eq in Hm.
      exfalso. apply (Hk k); [eapply list_elem_of_lookup_2; eauto|done].
    + split_and!; [done|by apply String.eqb_eq|].
      intros i' e' He' Hlt Ha'. apply String.eqb_eq in Ha'. eapply Hb; eauto.
  - rewrite !element_loop_eq, (find_match_skip rows els i e); [done|done|by apply is_admin7_true| |].
    + intros i' e' ? ?. apply not_true_iff_false. rewrite is_admin7_true. eauto.
    + intros k ?. apply kelurahan_match_false. eauto.
Qed.

(** Sample data for the scenarios of the spec (section 8). *)
Definition zero_bounds : Bounds :=
  mkBounds (GoFloat.F64zero false) (GoFloat.F64zero false) (GoFloat.F64zero false) (GoFloat.F64zero false).

Definition admin7_element (rel_id : Z) (nm : string) : OverpassElement :=
  mkRelation "relation" rel_id zero_bounds (<["admin_level" := "7"]> (<["name" := nm]> ∅)).

Definition kebon_jeruk : kelurahanDb := mkKelurahan 12 "Kebon Jeruk".

(** The action of a match, recording the reference. *)
Definition record_match (k : kelurahanDb) : M (option kelurahanDb) Z unit :=
  fun _ => (Cont tt, Some k).

(** C21: a level-7 element without a [name] tag is matched to the first
    reference whose name is blank (empty or only ' '), since Go's map read
    gives [""] for the missing tag; the spec does not cover this case. *)
Theorem unnamed_element_matches_blank `{CR : CaseRanges} (e : OverpassElement) (k : kelurahanDb) :
  Tags e !! "name" = None -> norm (name k) = "" -> kelurahan_match e k = true.
Proof.
  intros Hn Hk. unfold kelurahan_match, tag. rewrite Hn, Hk. reflexivity.
Qed.

Lemma unnamed_element_matches_blank_witness :
  let CR : CaseRanges := latin1_case_ranges in
  kelurahan_match (mkRelation "relation" 3 zero_bounds (<["admin_level" := "7"]> ∅))
    (mkKelurahan 5 "  ") = true.
Proof. intros CR. apply unnamed_element_matches_blank; vm_compute; reflexivity. Defined.

Lemma element_loop_first_match_witness :
  let CR : CaseRanges := latin1_case_ranges in
  element_loop (fun _ => 0%Z) record_match [kebon_jeruk]
    [admin7_element 1 "Palmerah"; admin7_element 2 "kebon  jeruk"] None = (Cont tt, Some kebon_jeruk).
Proof.
  intros CR.
  apply (proj1 (element_loop_first_match (fun _ => 0%Z) record_match [kebon_jeruk]
           [admin7_element 1 "Palmerah"; admin7_element 2 "kebon  jeruk"] None)
           1 (admin7_element 2 "kebon  jeruk") 0 kebon_jeruk);
    [reflexivity|vm_compute; reflexivity|reflexivity|vm_compute; reflexivity|intros; lia|].
  intros [|i'] e' Hi' He' _ k' Hk'; [|lia]. injection He' as <-.
  apply list_elem_of_singleton in Hk' as ->. vm_compute. discriminate.
Defined.

Lemma element_loop_single_admin7_witness :
  let CR : CaseRanges := latin1_case_ranges in
  element_loop (fun _ => 0%Z) record_match [kebon_jeruk] [admin7_element 1 "kebon jeruk"] None =
    (Cont tt, Some kebon_jeruk).
Proof.
  intros CR. rewrite (element_loop_single_admin7 (fun _ => 0%Z) record_match [kebon_jeruk]
                        [admin7_element 1 "kebon jeruk"] None).
  - vm_compute. reflexivity.
  - intros [|[|i]] [|[|j]] e e' Hi Hj _ _; simpl in *; try done.
Defined.

Lemma element_loop_diverges_from_spec_witness :
  let CR : CaseRanges := latin1_case_ranges in
  spec_match [kebon_jeruk] [admin7_element 1 "Palmerah"; admin7_element 2 "kebon jeruk"] = None /\
  element_loop (fun _ => 0%Z) record_match [kebon_jeruk]
    [admin7_element 1 "Palmerah"; admin7_element 2 "kebon jeruk"] None = (Cont tt, Some kebon_jeruk).
Proof.
  intros CR.
  destruct (element_loop_diverges_from_spec (fun _ => 0%Z) record_match [kebon_jeruk]
     [admin7_element 1 "Palmerah"; admin7_element 2 "kebon jeruk"] None 0 (admin7_element 1 "Palmerah"))
    as [H1 H2]; [reflexivity|vm_compute; reflexivity|intros; lia| |].
  - intros k Hk. apply list_elem_of_singleton in Hk as ->. vm_compute. discriminate.
  - split; [exact H1|]. rewrite H2. vm_compute. reflexivity.
Defined.

End Matcher.
