(* ===== verification/GoSlice.v ===== *)
(** * GoSlice: Go slices over a heap of backing arrays

    What src/main.go:115-148 needs of Go's slices to be modelled as the
    code behaves: a slice is a header (pointer to a backing array, offset,
    [len], [cap]) and several headers may share one array.
    [modifiedRecords := records] (src/main.go:115) copies a header, so the
    two names share the outer array of row headers; [append(record, x)]
    (src/main.go:147-148) writes in place when [len < cap] and otherwise
    copies into a fresh array of a larger capacity.

    - [heap]: a [gmap] from locations to arrays of values ([VStr] for a
      [string], [VSlice] for a slice header);
    - [load]/[store]: [s[i]] and [s[i] = v] with Go's bounds check
      ([None]: index out of range);
    - [append]: the runtime's [growslice], with the capacity policy as the
      interface [GrowPolicy] (any capacity at least the new length); Go's
      [nextslicecap] is the instance [go_growth];
    - [contents]: the [len] values a slice shows.
    - [table]: the invariant of a [[][]string] as [csv.Reader.ReadAll]
      returns it (each row well formed, rows' capacity regions pairwise
      disjoint and apart from the outer array); [ReadAll_heap]: the heap
      shape of [ReadAll]'s result (a fresh array per row, then the outer
      array); [set_append]: [modifiedRecords[i] = append(x, v)].
    Theorems: [append] adds exactly one value at the end of what the slice
    shows, and changes nothing another slice shows when their capacity
    regions are disjoint (the frame lemmas the driver's loop invariant
    is built on); [ReadAll] establishes the table invariant and
    [set_append] keeps it; the growth loop's fuel is enough; an [append]
    into spare capacity overwrites the element another slice of the same
    array shows at that position. *)

From stdpp Require Import base gmap strings list.
From Stdlib Require Import ZArith Lia.
From S2P Require Import Prelude.

#[local] Set Warnings "-clear-no-such-hyp".
Module GoSlice.

Definition loc : Type := positive.

Record slice := mkSlice { ptr : loc; off : nat; len : nat; cap : nat }.

Inductive val :=
| VStr (s : string)
| VSlice (sl : slice).

Abbreviation heap := (gmap loc (list val)).

(** The zero value of a [string] element, which fills the unused capacity
    of a fresh array. *)
Definition zero_string : val := VStr "".

(** The backing array of a header ([nil] when there is none). *)
Definition array_of (h : heap) (s : slice) : list val := default [] (h !! ptr s).

(** What a slice shows: [s[0:len]]. *)
Definition contents (h : heap) (s : slice) : list val := take (len s) (drop (off s) (array_of h s)).

(** [s[i]]: [None] is Go's "index out of range" panic. *)
Definition load (h : heap) (s : slice) (i : nat) : option val :=
  if (i <? len s)%nat then array_of h s !! (off s + i) else None.

(** [s[i] = v]. *)
Definition store (h : heap) (s : slice) (i : nat) (v : val) : option heap :=
  if (i <? len s)%nat then Some (<[ptr s := <[off s + i := v]> (array_of h s)]> h) else None.

(** The capacity the runtime gives a grown slice: [nextcap newLen oldCap]
    is at least [newLen]. *)
Class GrowPolicy := {
  nextcap : nat -> nat -> nat;
  nextcap_ge : forall newLen oldCap, newLen <= nextcap newLen oldCap
}.

(** [append(s, v)]: in place when [len < cap], else [growslice] into a
    fresh array holding the old [len] values, [v], and zero values up to
    the new capacity. *)
Definition append `{GrowPolicy} (h : heap) (s : slice) (v : val) : heap * slice :=
  if (len s <? cap s)%nat then
    (<[ptr s := <[off s + len s := v]> (array_of h s)]> h,
     mkSlice (ptr s) (off s) (S (len s)) (cap s))
  else
    let newcap := nextcap (S (len s)) (cap s) in
    let l := fresh (dom h) in
    (<[l := contents h s ++ [v] ++ replicate (newcap - S (len s)) zero_string]> h,
     mkSlice l 0 (S (len s)) newcap).

(** ** Go's [nextslicecap] (runtime/slice.go) *)

(** [for { newcap += (newcap + 3*threshold) >> 2; if newcap >= newLen
    { break } }], with [newLen] rounds of fuel (each round adds at least
    192); the fuel never runs out, and if it did the result would still be
    [newLen]. *)
Fixpoint grow_loop (fuel newcap newLen : nat) : nat :=
  match fuel with
  | O => newLen
  | S f =>
      let newcap' := newcap + (newcap + 3 * 256) / 4 in
      if (newLen <=? newcap')%nat then newcap' else grow_loop f newcap' newLen
  end.

Definition nextslicecap (newLen oldCap : nat) : nat :=
  let doublecap := oldCap + oldCap in
  if (doublecap <? newLen)%nat then newLen
  else if (oldCap <? 256)%nat then doublecap
  else grow_loop newLen oldCap newLen.

Lemma grow_loop_ge fuel newcap newLen : newLen <= grow_loop fuel newcap newLen.
Proof.
  revert newcap. induction fuel as [|f IH]; intros newcap; simpl; [lia|].
  destruct (Nat.leb _ _) eqn:E; [apply Nat.leb_le in E; exact E|apply IH].
Qed.

Lemma nextslicecap_ge newLen oldCap : newLen <= nextslicecap newLen oldCap.
Proof.
  unfold nextslicecap.
  destruct (Nat.ltb_spec (oldCap + oldCap) newLen); [lia|].
  destruct (Nat.ltb_spec oldCap 256); [lia|apply grow_loop_ge].
Qed.

(** Each round adds at least 192: once the rounds left could reach
    [newLen], more fuel changes nothing. *)
Lemma grow_loop_stable f k c n :
  n <= c + 192 * S f -> grow_loop (S f + k) c n = grow_loop (S f) c n.
Proof.
  revert c. induction f as [|f IH]; intros c Hn; cbn -[Nat.div].
  all: assert (192 <= (c + 768) / 4) by (apply Nat.div_le_lower_bound; lia).
  all: destruct (Nat.leb_spec n (c + (c + 768) / 4)); [done|].
  - lia.
  - apply IH. lia.
Qed.

(** C11: the fuel [newLen] that [nextslicecap] gives its growth loop is
    enough: any more fuel gives the same capacity, so the model computes
    what Go's unbounded [for] loop computes. *)
Theorem nextslicecap_fuel_enough newLen oldCap k :
  1 <= newLen -> grow_loop (newLen + k) oldCap newLen = grow_loop newLen oldCap newLen.
Proof.
  intros Hn. destruct newLen as [|f]; [lia|]. apply grow_loop_stable. lia.
Qed.

Lemma nextslicecap_fuel_enough_witness :
  1 <= 600 /\ grow_loop (600 + 1000) 300 600 = grow_loop 600 300 600.
Proof. split; [lia|]. apply nextslicecap_fuel_enough. lia. Defined.

#[export] Instance go_growth : GrowPolicy := {| nextcap := nextslicecap; nextcap_ge := nextslicecap_ge |}.

(** ** Well-formedness and separation *)

(** A header whose capacity lies inside its array. *)
Definition wf_slice (h : heap) (s : slice) : Prop :=
  len s <= cap s /\ off s + cap s <= length (array_of h s).

(** Two headers whose capacity regions do not overlap (an empty region
    overlaps nothing). *)
Definition disjoint (s t : slice) : Prop :=
  cap s = 0 \/ cap t = 0 \/ ptr s <> ptr t \/ off s + cap s <= off t \/ off t + cap t <= off s.

(** ** Lemmas on windows of a list *)

Lemma window_insert_outside {A} (l : list A) o n p (x : A) :
  p < o \/ o + n <= p -> take n (drop o (<[p := x]> l)) = take n (drop o l).
Proof.
  intros [Hp|Hp].
  - rewrite drop_insert_lt; done.
  - rewrite drop_insert_ge by lia. rewrite take_insert_ge by lia. done.
Qed.

Lemma take_S_insert {A} (l : list A) n (x : A) :
  n < length l -> take (S n) (<[n := x]> l) = take n l ++ [x].
Proof.
  revert l. induction n as [|n IH]; intros [|y l] Hn; simpl in *; try lia; [done|].
  rewrite IH by lia. done.
Qed.

Lemma window_insert_end {A} (l : list A) o n (x : A) :
  o + n < length l -> take (S n) (drop o (<[o + n := x]> l)) = take n (drop o l) ++ [x].
Proof.
  intros Hl. rewrite drop_insert_ge by lia. replace (o + n - o) with n by lia.
  apply take_S_insert. rewrite length_drop. lia.
Qed.

Lemma length_contents h s : wf_slice h s -> length (contents h s) = len s.
Proof. intros [Hlc Hc]. unfold contents. rewrite length_take, length_drop. lia. Qed.

Lemma window_insert_inside {A} (l : list A) o n i (x : A) :
  i < n -> take n (drop o (<[o + i := x]> l)) = <[i := x]> (take n (drop o l)).
Proof.
  intros Hi. rewrite drop_insert_ge by lia. replace (o + i - o) with i by lia.
  apply take_insert_lt. done.
Qed.

Lemma disjoint_sym s t : disjoint s t -> disjoint t s.
Proof. unfold disjoint. intuition. Qed.

(** ** Reading, writing and appending *)

(** [s[i]] reads what the slice shows at [i]; out of range is [None]. *)
Lemma load_contents h s i : load h s i = contents h s !! i.
Proof.
  unfold load, contents. destruct (Nat.ltb_spec i (len s)).
  - rewrite lookup_take, decide_True by done. rewrite lookup_drop. done.
  - symmetry. apply lookup_ge_None_2. rewrite length_take. lia.
Qed.

Lemma store_Some h s i v : i < len s -> store h s i v = Some (<[ptr s := <[off s + i := v]> (array_of h s)]> h).
Proof. intros Hi. unfold store. destruct (Nat.ltb_spec i (len s)); [done|lia]. Qed.

Lemma array_of_insert_eq h s t a : ptr t = ptr s -> array_of (<[ptr s := a]> h) t = a.
Proof. intros Heq. unfold array_of. rewrite Heq, lookup_insert_eq. done. Qed.

Lemma array_of_insert_ne h s t a : ptr t <> ptr s -> array_of (<[ptr s := a]> h) t = array_of h t.
Proof. intros Hne. unfold array_of. rewrite lookup_insert_ne by congruence. done. Qed.

(** A store shows the new value at [i] and keeps the length. *)
Lemma store_contents h s i v h' :
  wf_slice h s -> store h s i v = Some h' ->
  contents h' s = <[i := v]> (contents h s) /\ wf_slice h' s.
Proof.
  intros [Hlc Hc] Hst. unfold store in Hst. destruct (Nat.ltb_spec i (len s)); [|done].
  injection Hst as <-. unfold contents, wf_slice. rewrite !array_of_insert_eq, length_insert by done.
  split; [|lia]. apply window_insert_inside. done.
Qed.

(** A store leaves every other array as it was. *)
Lemma store_frame h s i v h' t :
  store h s i v = Some h' -> ptr t <> ptr s -> array_of h' t = array_of h t.
Proof.
  intros Hst Hne. unfold store in Hst. destruct (i <? len s)%nat; [|done].
  injection Hst as <-. apply array_of_insert_ne. done.
Qed.

Section Append.
Context `{GrowPolicy}.

(** [append] shows one more value, [v], at the end. *)
Lemma append_contents h s v :
  wf_slice h s ->
  contents (append h s v).1 (append h s v).2 = contents h s ++ [v] /\
  wf_slice (append h s v).1 (append h s v).2.
Proof.
  intros [Hlc Hc]. unfold append. destruct (Nat.ltb_spec (len s) (cap s)) as [Hlt|Hge]; simpl.
  - unfold contents, wf_slice; simpl. rewrite !array_of_insert_eq, length_insert by done.
    split; [|lia]. apply window_insert_end. lia.
  - assert (len s = cap s) as Heq by lia.
    unfold contents at 1, wf_slice, array_of; simpl. rewrite lookup_insert_eq. simpl.
    pose proof (length_contents h s (conj Hlc Hc)) as Hl.
    pose proof (nextcap_ge (S (len s)) (cap s)).
    rewrite length_app. simpl. rewrite length_replicate. split; [|lia].
    rewrite drop_0, take_app, Hl, take_ge by lia. replace (S (len s) - len s) with 1 by lia. done.
Qed.

(** [append] changes nothing a disjoint slice shows. *)
Lemma append_frame h s v t :
  wf_slice h s -> wf_slice h t -> disjoint s t ->
  contents (append h s v).1 t = contents h t /\ wf_slice (append h s v).1 t.
Proof.
  intros [Hlc Hc] [Hlt' Hct] Hd. unfold append.
  destruct (Nat.ltb_spec (len s) (cap s)) as [Hlt|Hge]; simpl.
  - destruct (decide (ptr t = ptr s)) as [Heq|Hne].
    + unfold contents, wf_slice. rewrite !array_of_insert_eq, length_insert by done.
      assert (array_of h s = array_of h t) as Ha by (unfold array_of; rewrite Heq; done).
      rewrite Ha. split; [|lia].
      apply window_insert_outside. unfold disjoint in Hd. lia.
    + unfold contents, wf_slice. rewrite !array_of_insert_ne by done. done.
  - destruct (decide (ptr t = fresh (dom h))) as [Heq|Hne].
    + assert (array_of h t = []) as Ha.
      { unfold array_of. rewrite Heq, (not_elem_of_dom_1 h (fresh (dom h))) by apply is_fresh. done. }
      rewrite Ha in Hct. simpl in Hct.
      unfold contents, wf_slice. rewrite Ha. replace (len t) with 0 by lia. simpl. split; [done|lia].
    + unfold contents, wf_slice, array_of. rewrite lookup_insert_ne by congruence. done.
Qed.
End Append.

Lemma same_array_contents h h' t :
  array_of h' t = array_of h t -> contents h' t = contents h t /\ (wf_slice h' t <-> wf_slice h t).
Proof. intros Ha. unfold contents, wf_slice. rewrite Ha. done. Qed.

Lemma wf_in_dom h t : wf_slice h t -> 0 < cap t -> ptr t ∈ dom h.
Proof.
  intros [_ Hc] Hpos. apply elem_of_dom. unfold array_of in Hc.
  destruct (h !! ptr t); [done|]. simpl in Hc. lia.
Qed.

Section AppendSep.
Context `{GrowPolicy}.

Lemma append_disjoint h s v t :
  wf_slice h t -> disjoint s t -> disjoint (append h s v).2 t.
Proof.
  intros Ht Hd. unfold append. destruct (len s <? cap s)%nat; simpl; [exact Hd|].
  destruct (decide (cap t = 0)) as [|Hc]; [unfold disjoint; tauto|].
  right; right; left. simpl. intros Heq.
  apply (is_fresh (dom h)). rewrite Heq. apply wf_in_dom; [done|lia].
Qed.

Lemma append_apart h s v t :
  wf_slice h t -> 0 < cap t -> ptr s <> ptr t -> ptr (append h s v).2 <> ptr t.
Proof.
  intros Ht Hc Hne. unfold append. destruct (len s <? cap s)%nat; simpl; [exact Hne|].
  intros Heq. apply (is_fresh (dom h)). rewrite Heq. apply wf_in_dom; done.
Qed.
End AppendSep.

(** ** A table: a slice of rows, as [csv.Reader.ReadAll] returns it *)

(** The outer slice [o] shows the row headers [rs]; row [i] is well formed
    and shows the strings [abs !! i]; the rows' capacity regions are
    pairwise disjoint and none lies in the outer array. *)
Record table (h : heap) (o : slice) (rs : list slice) (abs : list (list string)) : Prop := {
  table_outer : contents h o = VSlice <$> rs;
  table_outer_wf : wf_slice h o;
  table_len : length rs = length abs;
  table_rows : forall i r a, rs !! i = Some r -> abs !! i = Some a ->
    wf_slice h r /\ contents h r = VStr <$> a;
  table_sep : forall i j ri rj, i <> j -> rs !! i = Some ri -> rs !! j = Some rj -> disjoint ri rj;
  table_apart : forall i r, rs !! i = Some r -> ptr r <> ptr o
}.

(** [modifiedRecords[i] = append(x, v)] *)
Definition set_append `{GrowPolicy} (h : heap) (o : slice) (i : nat) (x : slice) (v : val) : option heap :=
  store (append h x v).1 o i (VSlice (append h x v).2).

Section TableUpdate.
Context `{GrowPolicy}.

Lemma table_outer_len h o rs abs : table h o rs abs -> len o = length rs.
Proof.
  intros Tb. rewrite <- (length_contents h o) by apply Tb.
  rewrite (table_outer _ _ _ _ Tb), length_fmap. done.
Qed.

(** Appending one string to row [i] and storing the new header back into
    the outer slice keeps the table, with row [i] one string longer. *)
Lemma table_set_append h o rs abs i r a x h' :
  table h o rs abs -> rs !! i = Some r -> abs !! i = Some a ->
  set_append h o i r (VStr x) = Some h' ->
  table h' o (<[i := (append h r (VStr x)).2]> rs) (<[i := a ++ [x]]> abs).
Proof.
  intros Tb Hr Ha Hst. unfold set_append in Hst.
  destruct (table_rows _ _ _ _ Tb i r a Hr Ha) as [Hwr Hcr].
  pose proof (table_apart _ _ _ _ Tb i r Hr) as Hro.
  assert (Hcap : 0 < cap o).
  { pose proof (table_outer_len _ _ _ _ Tb). pose proof (lookup_lt_Some _ _ _ Hr).
    destruct (table_outer_wf _ _ _ _ Tb). lia. }
  assert (Hdo : disjoint r o) by (unfold disjoint; tauto).
  destruct (append_frame h r (VStr x) o Hwr (table_outer_wf _ _ _ _ Tb) Hdo) as [Hco1 Hwo1].
  destruct (store_contents _ _ _ _ _ Hwo1 Hst) as [Hco2 Hwo2].
  assert (Hs1o : ptr (append h r (VStr x)).2 <> ptr o)
    by (apply append_apart; [apply Tb|done|done]).
  split.
  - rewrite Hco2, Hco1, (table_outer _ _ _ _ Tb), list_fmap_insert. done.
  - done.
  - rewrite !length_insert. apply Tb.
  - intros j r' a' [(<- & <- & _)|(Hne & Hr')]%list_lookup_insert_Some
      [(? & <- & _)|(? & Ha')]%list_lookup_insert_Some; try congruence.
    + destruct (same_array_contents _ _ (append h r (VStr x)).2
        (store_frame _ _ _ _ _ _ Hst Hs1o)) as [-> ->].
      destruct (append_contents h r (VStr x) Hwr) as [-> ?].
      rewrite Hcr, fmap_app. done.
    + destruct (table_rows _ _ _ _ Tb j r' a' Hr' Ha') as [Hwj Hcj].
      pose proof (table_sep _ _ _ _ Tb i j r r' Hne Hr Hr') as Hd.
      destruct (append_frame h r (VStr x) r' Hwr Hwj Hd) as [Hcj1 Hwj1].
      destruct (same_array_contents _ _ r'
        (store_frame _ _ _ _ _ _ Hst (table_apart _ _ _ _ Tb j r' Hr'))) as [-> ->].
      rewrite Hcj1, Hcj. done.
  - assert (Hsep : forall m rm, i <> m -> rs !! m = Some rm ->
              disjoint (append h r (VStr x)).2 rm).
    { intros m rm Hm Hrm. apply append_disjoint; [apply (table_rows _ _ _ _ Tb m rm
        (default [] (abs !! m))); [done|]|].
      - destruct (abs !! m) eqn:E; [done|]. exfalso.
        apply lookup_ge_None_1 in E. apply lookup_lt_Some in Hrm.
        rewrite (table_len _ _ _ _ Tb) in Hrm. lia.
      - apply (table_sep _ _ _ _ Tb i m); done. }
    intros j k rj rk Hjk [(<- & <- & _)|(? & Hj)]%list_lookup_insert_Some
      [(<- & <- & _)|(? & Hk)]%list_lookup_insert_Some; [done|by eapply Hsep| |].
    + apply disjoint_sym. by eapply Hsep.
    + apply (table_sep _ _ _ _ Tb j k); done.
  - intros j rj [(<- & <- & _)|(_ & Hj)]%list_lookup_insert_Some; [done|].
    apply (table_apart _ _ _ _ Tb j); done.
Qed.
End TableUpdate.

(** ** Reading a table back *)

Definition as_str (v : val) : option string :=
  match v with VStr x => Some x | VSlice _ => None end.

(** The strings a [[]string] shows. *)
Definition deref_strings (h : heap) (s : slice) : option (list string) := mapM as_str (contents h s).

(** The rows a [[][]string] shows, as [csv.Writer.WriteAll] reads them. *)
Definition deref_table (h : heap) (o : slice) : option (list (list string)) :=
  mapM (fun v => match v with VSlice r => deref_strings h r | VStr _ => None end) (contents h o).

Lemma mapM_as_str (a : list string) : mapM as_str (VStr <$> a) = Some a.
Proof. apply mapM_Some_2, Forall2_fmap_l, Forall_Forall2_diag, Forall_forall. done. Qed.

Lemma table_deref h o rs abs : table h o rs abs -> deref_table h o = Some abs.
Proof.
  intros Tb. unfold deref_table. rewrite (table_outer _ _ _ _ Tb).
  apply mapM_Some_2. apply Forall2_fmap_l. apply Forall2_lookup. intros i.
  destruct (rs !! i) as [r|] eqn:Hr, (abs !! i) as [a|] eqn:Ha; try constructor.
  - destruct (table_rows _ _ _ _ Tb i r a Hr Ha) as [_ Hc].
    simpl. unfold deref_strings. rewrite Hc. apply mapM_as_str.
  - apply lookup_lt_Some in Hr. apply lookup_ge_None_1 in Ha. pose proof (table_len _ _ _ _ Tb). lia.
  - apply lookup_lt_Some in Ha. apply lookup_ge_None_1 in Hr. pose proof (table_len _ _ _ _ Tb). lia.
Qed.

(** Row [i] of a table, read through the outer slice: [records[i]]. *)
Lemma table_load h o rs abs i r :
  table h o rs abs -> rs !! i = Some r -> load h o i = Some (VSlice r).
Proof.
  intros Tb Hr. rewrite load_contents, (table_outer _ _ _ _ Tb), list_lookup_fmap, Hr. done.
Qed.

(** A field of row [i]: [record[j]]. *)
Lemma table_field h o rs abs i r a j :
  table h o rs abs -> rs !! i = Some r -> abs !! i = Some a ->
  load h r j = VStr <$> (a !! j).
Proof.
  intros Tb Hr Ha. rewrite load_contents.
  destruct (table_rows _ _ _ _ Tb i r a Hr Ha) as [_ ->]. apply list_lookup_fmap.
Qed.

(** ** The heap [csv.Reader.ReadAll] returns *)

(** [readRecord] makes each record with [make([]string, n)]: a fresh array
    of exactly its fields ([len = cap]); [ReadAll] collects the headers in
    the outer slice. *)
Fixpoint alloc_rows (h : heap) (rows : list (list string)) : heap * list slice :=
  match rows with
  | [] => (h, [])
  | row :: rest =>
      let l := fresh (dom h) in
      let h1 := <[l := VStr <$> row]> h in
      let res := alloc_rows h1 rest in
      (res.1, mkSlice l 0 (length row) (length row) :: res.2)
  end.

Definition ReadAll_heap (h : heap) (rows : list (list string)) : heap * slice :=
  let res := alloc_rows h rows in
  let o := fresh (dom res.1) in
  (<[o := VSlice <$> res.2]> res.1, mkSlice o 0 (length res.2) (length res.2)).

Lemma alloc_rows_spec h rows :
  let res := alloc_rows h rows in
  (forall l, l ∈ dom h -> res.1 !! l = h !! l) /\
  dom h ⊆ dom res.1 /\
  length res.2 = length rows /\
  (forall i r row, res.2 !! i = Some r -> rows !! i = Some row ->
     res.1 !! ptr r = Some (VStr <$> row) /\ off r = 0 /\ len r = length row /\
     cap r = length row /\ (ptr r ∉ dom h) /\ (ptr r ∈ dom res.1)) /\
  (forall i j ri rj, i <> j -> res.2 !! i = Some ri -> res.2 !! j = Some rj -> ptr ri <> ptr rj).
Proof.
  revert h. induction rows as [|row rest IH]; intros h; simpl.
  - split_and!; try done.
  - set (l := fresh (dom h)).
    destruct (IH (<[l := VStr <$> row]> h)) as (Hkeep & Hdom & Hlen & Hrows & Hdist).
    assert (Hl : l ∉ dom h) by apply is_fresh.
    assert (Hldom : l ∈ dom (alloc_rows (<[l := VStr <$> row]> h) rest).1)
      by (apply Hdom; rewrite dom_insert_L; set_solver).
    split_and!.
    + intros l' Hl'. rewrite Hkeep by (rewrite dom_insert_L; set_solver).
      rewrite lookup_insert_ne; [done|]. intros ->. done.
    + intros l' Hl'. apply Hdom. rewrite dom_insert_L. set_solver.
    + simpl. rewrite Hlen. done.
    + intros [|i] r row' Hr Hrow; simpl in Hr, Hrow.
      * injection Hr as <-. injection Hrow as <-. simpl. split_and!; try done.
        rewrite Hkeep by (rewrite dom_insert_L; set_solver). apply lookup_insert_eq.
      * destruct (Hrows i r row' Hr Hrow) as (? & ? & ? & ? & Hnot & ?). split_and!; try done.
        rewrite dom_insert_L in Hnot. set_solver.
    + assert (Hfresh : forall i r, (alloc_rows (<[l := VStr <$> row]> h) rest).2 !! i = Some r -> ptr r <> l).
      { intros i r Hr. destruct (lookup_lt_is_Some_2 rest i) as [row' Hrow'].
        - rewrite <- Hlen. eapply lookup_lt_Some; eauto.
        - destruct (Hrows i r row' Hr Hrow') as (_ & _ & _ & _ & Hnot & _).
          rewrite dom_insert_L in Hnot. intros Heq. apply Hnot. rewrite Heq. set_solver. }
      intros [|i] [|j] ri rj Hij Hi Hj; simpl in Hi, Hj; try done.
      * injection Hi as <-. simpl. intros Heq. symmetry in Heq. eapply Hfresh; eauto.
      * injection Hj as <-. simpl. eapply Hfresh; eauto.
      * apply (Hdist i j); [lia|done|done].
Qed.

(** What [ReadAll] returns satisfies the table invariant. *)
Lemma ReadAll_heap_table h rows :
  exists rs, table (ReadAll_heap h rows).1 (ReadAll_heap h rows).2 rs rows.
Proof.
  destruct (alloc_rows_spec h rows) as (_ & _ & Hlen & Hrows & Hdist).
  set (res := alloc_rows h rows) in *. set (o := fresh (dom res.1)).
  assert (Ho : o ∉ dom res.1) by apply is_fresh.
  assert (Hne : forall i r, res.2 !! i = Some r -> ptr r <> o).
  { intros i r Hr. destruct (lookup_lt_is_Some_2 rows i) as [row Hrow].
    - apply lookup_lt_Some in Hr. lia.
    - destruct (Hrows i r row Hr Hrow) as (_ & _ & _ & _ & _ & Hin).
      intros Heq. apply Ho. rewrite <- Heq. done. }
  exists res.2. unfold ReadAll_heap. fold res. fold o. split.
  - unfold contents, array_of; simpl. rewrite lookup_insert_eq. simpl.
    rewrite drop_0, take_ge; [done|]. rewrite length_fmap. lia.
  - unfold wf_slice, array_of; simpl. rewrite lookup_insert_eq. simpl. rewrite length_fmap. lia.
  - done.
  - intros i r a Hr Ha. destruct (Hrows i r a Hr Ha) as (Hl & Hoff & Hlr & Hcr & _).
    unfold wf_slice, contents, array_of. simpl. rewrite lookup_insert_ne by (eapply not_eq_sym, Hne; eauto).
    rewrite Hl, Hoff, Hlr, Hcr. simpl. rewrite length_fmap, drop_0, take_ge by (rewrite length_fmap; lia).
    split; [lia|done].
  - intros i j ri rj Hij Hi Hj. right; right; left. eapply Hdist; eauto.
  - intros i r Hr. simpl. eapply Hne; eauto.
Qed.

(** C10: Go's [append(s, v)] returns a slice that shows the elements of
    [s] followed by [v], well formed in the new heap, whether it wrote in
    place (spare capacity) or into a fresh array (full); and every well
    formed slice whose capacity region is disjoint from that of [s] shows
    what it showed before. *)
Theorem append_spec `{GrowPolicy} h s v :
  wf_slice h s ->
  contents (append h s v).1 (append h s v).2 = contents h s ++ [v] /\
  wf_slice (append h s v).1 (append h s v).2 /\
  forall t, wf_slice h t -> disjoint s t ->
    contents (append h s v).1 t = contents h t /\ wf_slice (append h s v).1 t.
Proof.
  intros Hs. destruct (append_contents h s v Hs) as [Hc Hw].
  split_and!; [done|done|]. intros t Ht Hd. apply append_frame; done.
Qed.

Lemma append_spec_witness :
  let h : heap := {[ 1%positive := [VStr "a"; VStr "b"] ]} in
  let s := mkSlice 1%positive 0 1 2 in
  wf_slice h s /\
  contents (append h s (VStr "x")).1 (append h s (VStr "x")).2 = contents h s ++ [VStr "x"] /\
  wf_slice (append h s (VStr "x")).1 (append h s (VStr "x")).2 /\
  forall t, wf_slice h t -> disjoint s t ->
    contents (append h s (VStr "x")).1 t = contents h t /\ wf_slice (append h s (VStr "x")).1 t.
Proof.
  intros h s. assert (Hw : wf_slice h s) by (vm_compute; lia).
  split; [exact Hw|]. apply (append_spec h s (VStr "x") Hw).
Defined.

(** C9: the table invariant holds of what [csv.Reader.ReadAll] returns and
    is kept by [modifiedRecords[i] = append(x, v)] on the current header
    [x] of row [i], which then shows one more string; so no append of
    src/main.go:147-148 ever changes a row other than its own. *)
Theorem table_invariant `{GrowPolicy} h rows :
  (exists rs, table (ReadAll_heap h rows).1 (ReadAll_heap h rows).2 rs rows) /\
  (forall h o rs abs i r a x h', table h o rs abs -> rs !! i = Some r -> abs !! i = Some a ->
     set_append h o i r (VStr x) = Some h' ->
     table h' o (<[i := (append h r (VStr x)).2]> rs) (<[i := a ++ [x]]> abs)).
Proof. split; [apply ReadAll_heap_table|]. intros. eapply table_set_append; eauto. Qed.

Lemma table_invariant_witness :
  exists rs, table (ReadAll_heap ∅ [["a"; "b"]; ["c"]]).1 (ReadAll_heap ∅ [["a"; "b"]; ["c"]]).2
               rs [["a"; "b"]; ["c"]].
Proof. apply (proj1 (table_invariant ∅ [["a"; "b"]; ["c"]])). Defined.

(** C22: [append] writes into capacity it shares with another slice.
    When [s] has spare capacity ([len s < cap s]), [append(s, v)] stores
    [v] in its array just past [s]'s last element; any other slice of the
    same array whose window covers that position now shows [v] there,
    every other element of it unchanged.  In src/main.go:147-148 this
    would let [append(record, ...)] overwrite a neighbouring row; rows
    that [csv.Reader.ReadAll] returns never share ([ReadAll_heap_table]),
    and this is the case the table invariant's separation excludes. *)
Theorem append_clobbers_shared_capacity `{GrowPolicy} h s t v :
  wf_slice h s -> ptr t = ptr s -> len s < cap s ->
  off t <= off s + len s < off t + len t ->
  contents (append h s v).1 t = <[off s + len s - off t := v]> (contents h t).
Proof.
  intros _ Hp Hlt Hw. unfold append. destruct (Nat.ltb_spec (len s) (cap s)); [|lia]. simpl.
  unfold contents. rewrite array_of_insert_eq by done.
  assert (array_of h s = array_of h t) as -> by (unfold array_of; rewrite Hp; done).
  rewrite drop_insert_ge, take_insert_lt by lia. done.
Qed.

Lemma append_clobbers_shared_capacity_witness :
  let h : heap := {[ 1%positive := [VStr "a"; VStr "b"] ]} in
  let row0 := mkSlice 1%positive 0 1 2 in
  let row1 := mkSlice 1%positive 1 1 1 in
  contents h row1 = [VStr "b"] /\
  contents (append h row0 (VStr "x")).1 row1 = [VStr "x"].
Proof.
  intros h row0 row1. split; [reflexivity|].
  rewrite (append_clobbers_shared_capacity h row0 row1 (VStr "x")); [reflexivity|vm_compute; lia..].
Defined.

End GoSlice.
