(* ===== verification/Loader.v ===== *)
(** * Loader: the reference table (src/db/db.go, src/main.go:64-91)

    [db.ConnectDb] (src/db/db.go:9-26: [pgxpool.New], then [Ping]) and the
    loop of src/main.go:82-91 ([for resultKelurahan.Next() { Scan; append
    }]) that fills [resultRows].  PostgreSQL is the interface [Database]:
    whether the pool opens and answers the ping for the program's fixed
    connection string (whose constants, a credential among them, are not
    reproduced), and the rows of [SELECT * FROM daftar_kelurahan] as pgx
    delivers them: the outcome of [Scan] for each row [Next] reported,
    and the error [Rows.Err()] would return once [Next] is false.

    Theorems: the loader returns the scanned rows in order; it stops at
    the first failed [Scan]; and it never consults [Rows.Err()], so a
    stream that breaks after some rows yields those rows as a complete
    reference table. *)

From stdpp Require Import base strings list.
From Stdlib Require Import String ZArith.
From S2P Require Import Prelude Overpass.

Local Open Scope string_scope.

Module Loader.
Import Overpass.

Inductive DbError :=
| DbConnectError     (* pgxpool.New *)
| DbPingError        (* conn.Ping *)
| DbQueryError       (* db.Query *)
| DbScanError.       (* resultKelurahan.Scan *)

(** The outcome of [Scan(&row.id, &row.name)] on one delivered row. *)
Inductive ScanResult :=
| ScanOk (id : Z) (name : string)
| ScanFailed.

(** What pgx delivers: one [Scan] outcome per [Next() == true], then the
    error [Rows.Err()] reports ([None] for a normal end). *)
Record Rows := mkRows { delivered : list ScanResult; rows_err : option string }.

Class Database := {
  pool_new_ok : bool;                  (* pgxpool.New(ctx, dsn) *)
  ping_ok : bool;                      (* conn.Ping(ctx) *)
  db_query : string -> option Rows     (* db.Query(ctx, sql); None: error *)
}.

Definition select_kelurahan : string := "SELECT * FROM daftar_kelurahan".

Section Loader.
Context `{Database}.

(** [db.ConnectDb]: [None] on success (the pool is then used). *)
Definition ConnectDb : option DbError :=
  if negb pool_new_ok then Some DbConnectError
  else if negb ping_ok then Some DbPingError
  else None.

(** [for resultKelurahan.Next() { row := kelurahanDb{}; err =
    Scan(&row.id, &row.name); if err != nil { return };
    resultRows = append(resultRows, row) }] *)
Fixpoint scan_rows (rs : list ScanResult) (resultRows : list kelurahanDb)
  : DbError + list kelurahanDb :=
  match rs with
  | [] => inr resultRows
  | ScanOk i n :: rs' => scan_rows rs' (resultRows ++ [mkKelurahan i n])%list
  | ScanFailed :: _ => inl DbScanError
  end.

(** src/main.go:64-91, after [ConnectDb] succeeded: the query, then the
    loop from an empty [resultRows]; [Rows.Err()] is not read. *)
Definition load_rows : DbError + list kelurahanDb :=
  match db_query select_kelurahan with
  | None => inl DbQueryError
  | Some r => scan_rows (delivered r) []
  end.

(** The [Scan] outcome of a well-formed row. *)
Definition to_scan (k : kelurahanDb) : ScanResult := ScanOk (id k) (name k).

Lemma scan_rows_ok ks acc : scan_rows (to_scan <$> ks) acc = inr (acc ++ ks)%list.
Proof.
  revert acc. induction ks as [|k ks IH]; intros acc; simpl; [by rewrite app_nil_r|].
  rewrite IH, <- app_assoc. destruct k. done.
Qed.

(** C13: the loader never reads [Rows.Err()]: when pgx delivers the rows
    [ks] and then stops, with or without an error, [resultRows] is [ks]
    in order and no error is reported; a stream broken after some rows
    silently yields a truncated reference table. *)
Theorem load_rows_ignores_rows_err ks (err : option string) :
  db_query select_kelurahan = Some (mkRows (to_scan <$> ks) err) ->
  load_rows = inr ks.
Proof. intros Hq. unfold load_rows. rewrite Hq. simpl. apply scan_rows_ok. Qed.

(** C14: the first row whose [Scan] fails ends the load with the scan
    error, whatever follows it. *)
Theorem load_rows_scan_error ks rest err :
  db_query select_kelurahan = Some (mkRows ((to_scan <$> ks) ++ ScanFailed :: rest)%list err) ->
  load_rows = inl DbScanError.
Proof.
  intros Hq. unfold load_rows. rewrite Hq. simpl. clear Hq. generalize (@nil kelurahanDb).
  induction ks as [|k ks IH]; intros acc; [done|]. destruct k. simpl. apply IH.
Qed.
End Loader.

(** A database whose stream breaks after one row. *)
Definition broken_stream_db : Database := {|
  pool_new_ok := true; ping_ok := true;
  db_query := fun _ => Some (mkRows [ScanOk 12 "Kebon Jeruk"] (Some "unexpected EOF"))
|}.

Lemma load_rows_ignores_rows_err_witness :
  @load_rows broken_stream_db = inr [mkKelurahan 12 "Kebon Jeruk"].
Proof.
  apply (@load_rows_ignores_rows_err broken_stream_db [mkKelurahan 12 "Kebon Jeruk"]
           (Some "unexpected EOF")).
  reflexivity.
Defined.

Lemma load_rows_scan_error_witness :
  @load_rows {| pool_new_ok := true; ping_ok := true;
               db_query := fun _ => Some (mkRows [ScanOk 12 "Kebon Jeruk"; ScanFailed] None) |}
  = inl DbScanError.
Proof.
  apply (@load_rows_scan_error _ [mkKelurahan 12 "Kebon Jeruk"] [] None). reflexivity.
Defined.

End Loader.
