(* ===== verification/Driver.v ===== *)
(** * Driver: [main] of src/main.go:62-171

    [main] as the code has it, in the state-and-exit monad [M] of the
    prelude, over a world that holds the heap of [GoSlice] (where the
    CSV rows live), the progress bar's counter, the lines printed, the
    queries sent to Overpass, and the output file.  What [main] calls and
    does not define is the interface [Runtime]: the database and the
    transport of the other components, the Unicode case table of
    [strings.ToLower], [os.Open]/[os.Create], the bytes
    of the input file and how many bytes the created file takes before a
    write fails ([file_limit]; [write_file] is what [WriteAll] leaves in
    the file through [csv.Writer]'s [bufio] buffer).  The CSV reader and writer are those of [Csv]: [read_all] is
    [Csv.ReadAll] of the input bytes, and the output file holds
    [Csv.WriteAll] of the rows, or a prefix of it when a write fails; the coordinates are read with
    [GoFloat.ParseFloat] and printed into the query with [GoFloat.fmt_f].

    The loop of src/main.go:116-152 reads [records[i]] through the outer
    slice each round; on a match the element loop of [Matcher] runs
    [on_match], the two [modifiedRecords[i] = append(...)] of
    src/main.go:147-148, through the same outer array ([records] and
    [modifiedRecords] are one header).

    [spec_step]/[spec_loop] are the enrichment the spec describes
    (section 4.5), on plain lists of rows: a data row is parsed, queried,
    matched with [find_match], and gets [Itoa id; name] appended on a
    match.  The simulation [loop_sim] shows the heap loop implements it;
    the theorems about [main] follow: what a run writes and prints, that
    it reaches its end when nothing fails ([main_completes]), and what
    re-reading its output file gives ([main_output_reread]). *)

From stdpp Require Import base gmap strings list.
From Stdlib Require Import ZArith Lia Ascii.
From S2P Require Import Prelude GoString GoFloat Overpass Matcher GoSlice Loader Csv CsvRoundTrip.

Local Open Scope go_scope.

Module Driver.
Import GoString GoFloat Overpass Matcher GoSlice Loader.

(** ** Errors, panics, output *)

(** The errors [main] prints with ["Error: %v\n"] before returning. *)
Inductive Err :=
| EDb (e : DbError)
| EOpen                          (* os.Open *)
| ECsvRead (e : Csv.ParseError)  (* csvReader.ReadAll *)
| EParseFloat (field : string) (e : NumErr)  (* strconv.ParseFloat *)
| EFetch (e : FetchError)        (* fetchOverpassData *)
| ECreate                        (* os.Create *)
| EWrite.                        (* csvWriter.WriteAll *)

(** Go's runtime panic "index out of range [i] with length n". *)
Inductive Panic := PIndexOutOfRange (i : Z) (n : Z).

(** How [main] ends early: [return] after printing, or a panic. *)
Inductive Exit := ExitReturn | ExitPanic (p : Panic).

(** The process's exit status: [main] returns normally (0) on success and
    after every printed error; an unrecovered panic exits with 2. *)
Definition exit_code (o : outcome Exit unit) : Z :=
  match o with
  | Cont _ | Stop ExitReturn => 0
  | Stop (ExitPanic _) => 2
  end.

(** The lines [main] prints (the progress bar's drawing is not modelled,
    only its counter). *)
Inductive Line :=
| LConnected          (* "Success connect Database" in db.ConnectDb *)
| LError (e : Err)    (* "Error: %v" *)
| LBlank              (* fmt.Println() *)
| LWriting.           (* "WRITING" *)

(** ** The world *)

(** [rows] is where the CSV rows live: the heap for [main], a plain list
    for the spec; [bar] the progress bar's counter; [stdout] the lines
    printed; [sent] the queries sent to Overpass, in order; [created]
    whether [os.Create] has truncated "public places_mapped.csv"; [output]
    the rows a completed [WriteAll] put in it ([None]: none by this run). *)
Record world (R : Type) := mkWorld {
  rows : R;
  bar : nat;
  stdout : list Line;
  sent : list string;
  created : bool;
  output : option Csv.bytes
}.
Arguments mkWorld {R}.
Arguments rows {R}.
Arguments bar {R}.
Arguments stdout {R}.
Arguments sent {R}.
Arguments created {R}.
Arguments output {R}.

Definition set_rows {R R'} (r : R') (w : world R) : world R' :=
  mkWorld r (bar w) (stdout w) (sent w) (created w) (output w).
Definition bar_inc {R} (w : world R) : world R :=
  mkWorld (rows w) (S (bar w)) (stdout w) (sent w) (created w) (output w).
Definition set_bar0 {R} (w : world R) : world R :=
  mkWorld (rows w) 0 (stdout w) (sent w) (created w) (output w).
Definition add_line {R} (l : Line) (w : world R) : world R :=
  mkWorld (rows w) (bar w) (stdout w ++ [l]) (sent w) (created w) (output w).
Definition add_sent {R} (q : string) (w : world R) : world R :=
  mkWorld (rows w) (bar w) (stdout w) (sent w ++ [q]) (created w) (output w).
Definition set_created {R} (w : world R) : world R :=
  mkWorld (rows w) (bar w) (stdout w) (sent w) true (output w).
Definition set_output {R} (o : Csv.bytes) (w : world R) : world R :=
  mkWorld (rows w) (bar w) (stdout w) (sent w) (created w) (Some o).

Abbreviation World := (world heap).

(** ** What [main] calls *)

Class Runtime := {
  rt_db :: Database;
  rt_net :: Transport;
  rt_case :: CaseRanges;                       (* unicode's case table, for strings.ToLower *)
  open_ok : bool;                              (* os.Open("public places.csv") *)
  input_csv : Csv.bytes;                       (* the bytes of "public places.csv" *)
  create_ok : bool;                            (* os.Create("public places_mapped.csv") *)
  file_limit : option nat                      (* the bytes the created file takes before its
                                                  writes fail (a full disk, a quota); None: all *)
}.

Abbreviation DM R := (M (world R) Exit).
Abbreviation L := (list (list string)).

Section Main.
Context `{Runtime}.

Definition print {R} (l : Line) : DM R unit := modify (add_line l).

(** [csv.NewReader(csvFile).ReadAll()] on the file's bytes. *)
Definition read_all : Csv.ParseError + L := Csv.ReadAll input_csv.

(** [fmt.Printf("Error: %v\n", err); return] *)
Definition fail {R A} (e : Err) : DM R A := fun w => (Stop ExitReturn, add_line (LError e) w).

(** [s[i]] on a [[][]string]. *)
Definition load_slice (s : slice) (i : nat) : DM heap slice := fun w =>
  match load (rows w) s i with
  | Some (VSlice r) => (Cont r, w)
  | _ => (Stop (ExitPanic (PIndexOutOfRange (Z.of_nat i) (Z.of_nat (len s)))), w)
  end.

(** [s[i]] on a [[]string]. *)
Definition load_string (s : slice) (i : nat) : DM heap string := fun w =>
  match load (rows w) s i with
  | Some (VStr x) => (Cont x, w)
  | _ => (Stop (ExitPanic (PIndexOutOfRange (Z.of_nat i) (Z.of_nat (len s)))), w)
  end.

(** [modifiedRecords[i] = append(x, v)] *)
Definition set_append_M (o : slice) (i : nat) (x : slice) (v : string) : DM heap unit := fun w =>
  match set_append (rows w) o i x (VStr v) with
  | Some h' => (Cont tt, set_rows h' w)
  | None => (Stop (ExitPanic (PIndexOutOfRange (Z.of_nat i) (Z.of_nat (len o)))), w)
  end.

(** [strconv.ParseFloat(field, 64)] and its [err != nil] check. *)
Definition parse_float {R} (field : string) : DM R float64 :=
  match ParseFloat field with
  | (x, None) => ret x
  | (_, Some e) => fail (EParseFloat field e)
  end.

(** [fetchOverpassData(KelurahanQuery)]: the request is the next one of
    the run. *)
Definition fetch {R} (q : string) : DM R OverpassResponse := fun w =>
  match fetchOverpassData (length (sent w)) q with
  | inl e => fail (EFetch e) (add_sent q w)
  | inr r => (Cont r, add_sent q w)
  end.

(** src/main.go:147-148 for the matched reference [k]. *)
Definition on_match (modifiedRecords record : slice) (i : nat) (k : kelurahanDb) : DM heap unit :=
  let* _ := set_append_M modifiedRecords i record (Itoa (id k)) in
  let* cur := load_slice modifiedRecords i in
  set_append_M modifiedRecords i cur (name k).

(** The panic of [resultRows[i]] out of range. *)
Definition panic_rows (resultRows : list kelurahanDb) (i : Z) : Exit :=
  ExitPanic (PIndexOutOfRange i (Z.of_nat (length resultRows))).

(** One round of src/main.go:116-152, for index [i]. *)
Definition loop_body (resultRows : list kelurahanDb) (records modifiedRecords : slice) (i : nat)
  : DM heap unit :=
  let* record := load_slice records i in
  let* _ := modify bar_inc in
  if (i =? 0)%nat then ret tt
  else
    let* f13 := load_string record 13 in
    let* lat := parse_float f13 in
    let* f14 := load_string record 14 in
    let* lon := parse_float f14 in
    let* result := fetch (KelurahanQuery lat lon) in
    element_loop (panic_rows resultRows) (on_match modifiedRecords record i) resultRows
      (Elements result).

(** src/main.go:64-68 with db.ConnectDb. *)
Definition connect {R} : DM R unit :=
  match ConnectDb with
  | Some e => fail (EDb e)
  | None => print LConnected
  end.

(** src/main.go:70-91. *)
Definition load_reference {R} : DM R (list kelurahanDb) :=
  match load_rows with
  | inl e => fail (EDb e)
  | inr rs => ret rs
  end.

(** src/main.go:100-112: [os.Open], then [ReadAll], whose rows land in
    fresh arrays of the heap. *)
Definition read_records : DM heap slice := fun w =>
  if negb open_ok then fail EOpen w
  else match read_all with
       | inl pe => fail (ECsvRead pe) w
       | inr rs =>
           let res := ReadAll_heap (rows w) rs in
           (Cont res.2, set_rows res.1 w)
       end.

(** [csvWriter.WriteAll] on the created file: [csv.Writer] hands the
    bytes [b] of the records to a [bufio.Writer], which passes them on
    to the file in order (whenever its 4096-byte buffer fills, and at the
    final [Flush]); the file keeps what it accepts, and the first write
    it refuses is the error [WriteAll] returns.  The file ends with the
    bytes it took, a prefix of [b], and the error is reported exactly
    when that prefix is shorter than [b]. *)
Definition write_file (b : Csv.bytes) : Csv.bytes * bool :=
  match file_limit with
  | None => (b, true)
  | Some k => (take k b, bool_decide (length b <= k))
  end.

(** src/main.go:154-170: the four lines, [os.Create], [WriteAll]. *)
Definition write_output {R} (out : list (list string)) : DM R unit :=
  let* _ := print LBlank in
  let* _ := print LBlank in
  let* _ := print LBlank in
  let* _ := print LWriting in
  if negb create_ok then fail ECreate
  else
    let* _ := modify set_created in
    let (f, ok) := write_file (Csv.WriteAll out) in
    let* _ := modify (set_output f) in
    if ok then ret tt else fail EWrite.

(** [main] *)
Definition main : DM heap unit :=
  let* _ := connect in
  let* resultRows := load_reference in
  let* records := read_records in
  let* _ := modify set_bar0 in
  let modifiedRecords := records in
  let* _ := for_range (loop_body resultRows records modifiedRecords) 0 (len records) in
  let* w := get in
  write_output (default [] (deref_table (rows w) modifiedRecords)).

(** ** The spec's enrichment (section 4.5), on a list of rows *)

(** On a match, "the matched id and name as two new trailing fields";
    on no match, the row as it was. *)
Definition enrich_row (m : option kelurahanDb) (row : list string) : list string :=
  match m with
  | Some k => row ++ [Itoa (id k); name k]
  | None => row
  end.

(** A field of a row, with the panic when the row is too short. *)
Definition spec_field (row : list string) (j : nat) : DM L string :=
  match row !! j with
  | Some x => ret x
  | None => stop (ExitPanic (PIndexOutOfRange (Z.of_nat j) (Z.of_nat (length row))))
  end.

(** Row [i]: progress, skip the header, parse, query, then replace the
    row by its enrichment with the first match of the response. *)
Definition spec_step (resultRows : list kelurahanDb) (i : nat) : DM L unit :=
  let* _ := modify bar_inc in
  if (i =? 0)%nat then ret tt
  else
    let* w := get in
    let row := default [] (rows w !! i) in
    let* f13 := spec_field row 13 in
    let* lat := parse_float f13 in
    let* f14 := spec_field row 14 in
    let* lon := parse_float f14 in
    let* result := fetch (KelurahanQuery lat lon) in
    modify (fun w' => set_rows (<[i := enrich_row (find_match resultRows (Elements result)) row]>
                                  (rows w')) w').

(** The whole run, at the level of the spec. *)
Definition spec_main : DM L unit :=
  let* _ := connect in
  let* resultRows := load_reference in
  if negb open_ok then fail EOpen
  else match read_all with
       | inl pe => fail (ECsvRead pe)
       | inr rs =>
           let* _ := modify (set_rows rs) in
           let* _ := modify set_bar0 in
           let* _ := for_range (spec_step resultRows) 0 (length rs) in
           let* w := get in
           write_output (rows w)
       end.

End Main.

(** What a run shows besides the rows: the world with its rows erased. *)
Definition erase {R} (w : world R) : world unit := set_rows tt w.

(** ** The simulation of the spec by [main] *)

Section Sim.
Context `{Runtime}.


Lemma erase_fields {R R'} (w : world R) (sw : world R') :
  erase w = erase sw <->
  bar w = bar sw /\ stdout w = stdout sw /\ sent w = sent sw /\
  created w = created sw /\ output w = output sw.
Proof.
  destruct w, sw. unfold erase, set_rows. simpl. split; [intros [=]; done|].
  intros (-> & -> & -> & -> & ->). done.
Qed.

(** Equal worlds up to the rows, after the same updates. *)
Ltac erase_eq :=
  match goal with
  | He : erase _ = erase _ |- erase _ = erase _ =>
      apply erase_fields in He; apply erase_fields; simpl;
      destruct He as (? & ? & ? & ? & ?); split_and!; congruence
  end.

Lemma erase_eq_set_rows {R R'} (w : world R) (sw : world R') :
  erase w = erase sw -> sw = set_rows (rows sw) w.
Proof. destruct w, sw. unfold erase, set_rows. simpl. intros [=]. subst. done. Qed.

(** A computation that never looks at nor changes the rows. *)
Definition oblivious {A} (m : forall R, DM R A) : Prop :=
  forall R R' (w : world R) (r : R'), m R' (set_rows r w) = ((m R w).1, set_rows r (m R w).2).

Lemma oblivious_rows {A} (m : forall R, DM R A) R (w : world R) :
  oblivious m -> rows (m R w).2 = rows w.
Proof.
  intros Hm. destruct w as [r b s q c o].
  pose proof (Hm R R (mkWorld r b s q c o) r) as E. unfold set_rows in E at 1. simpl in E.
  rewrite E. done.
Qed.

(** Two runs, on the heap and on the list of rows, that end alike: the
    same outcome, the same world up to the rows, and, when they go on,
    rows related by [P]. *)
Definition related {A} (P : World -> world L -> Prop)
    (x : outcome Exit A * World) (y : outcome Exit A * world L) : Prop :=
  x.1 = y.1 /\ erase x.2 = erase y.2 /\ (forall a, x.1 = Cont a -> P x.2 y.2).

Lemma related_bind {A B} (P Q : World -> world L -> Prop)
    (m1 : DM heap A) (m2 : DM L A) (k1 : A -> DM heap B) (k2 : A -> DM L B) w sw :
  related P (m1 w) (m2 sw) ->
  (forall a w' sw', P w' sw' -> erase w' = erase sw' -> related Q (k1 a w') (k2 a sw')) ->
  related Q (bind m1 k1 w) (bind m2 k2 sw).
Proof.
  unfold related, bind. destruct (m1 w) as [o1 w1], (m2 sw) as [o2 sw1]. simpl.
  intros (<- & He & HP) Hk. destruct o1 as [a|x]; [apply Hk; eauto | done].
Qed.

(** A computation that ignores the rows keeps any relation of the rows. *)
Lemma related_oblivious {A} (P : World -> world L -> Prop) (m : forall R, DM R A) w sw :
  oblivious m -> erase w = erase sw ->
  (forall w' sw', rows w' = rows w -> rows sw' = rows sw -> P w sw -> P w' sw') ->
  P w sw -> related P (m heap w) (m L sw).
Proof.
  intros Hm He HPst HP. rewrite (erase_eq_set_rows w sw He), Hm. split_and!; try done.
  intros a _. apply HPst; [|done|done]. apply oblivious_rows. done.
Qed.

Lemma related_ret {A} (P : World -> world L -> Prop) (a : A) w sw :
  erase w = erase sw -> P w sw -> related P (ret a w) (ret a sw).
Proof. intros He HP. split_and!; done. Qed.

Lemma related_stop {A} (P : World -> world L -> Prop) (x : Exit) w sw :
  erase w = erase sw -> related P (@stop _ _ A x w) (stop x sw).
Proof. intros He. split_and!; done. Qed.

(** The computations of [main] that ignore the rows. *)
Lemma fail_oblivious {A} e : oblivious (fun R => fail (R:=R) (A:=A) e).
Proof. intros R R' w r. done. Qed.

Lemma print_oblivious l : oblivious (fun R => print (R:=R) l).
Proof. intros R R' w r. done. Qed.

Lemma parse_float_oblivious f : oblivious (fun R => parse_float (R:=R) f).
Proof. intros R R' w r. unfold parse_float. destruct (ParseFloat f) as [? [?|]]; done. Qed.

Lemma fetch_oblivious q : oblivious (fun R => fetch (R:=R) q).
Proof. intros R R' w r. unfold fetch. simpl. destruct fetchOverpassData; done. Qed.

Lemma bar_inc_oblivious : oblivious (fun R => @modify (world R) Exit bar_inc).
Proof. intros R R' w r. done. Qed.

Lemma connect_oblivious : oblivious (fun R => connect (R:=R)).
Proof. intros R R' w r. unfold connect. destruct ConnectDb; done. Qed.

Lemma load_reference_oblivious : oblivious (fun R => load_reference (R:=R)).
Proof. intros R R' w r. unfold load_reference. destruct load_rows; done. Qed.

Lemma write_output_oblivious out : oblivious (fun R => write_output (R:=R) out).
Proof.
  intros R R' w r. unfold write_output, bind, modify, print. simpl.
  destruct create_ok; simpl; [|done]. destruct (write_file _) as [f []]; done.
Qed.
(** The heap holds, in the outer slice [o], the rows of the list. *)
Definition sim (o : slice) (w : World) (sw : world L) : Prop :=
  exists rs, table (rows w) o rs (rows sw).

Lemma sim_rows o w sw w' sw' :
  rows w' = rows w -> rows sw' = rows sw -> sim o w sw -> sim o w' sw'.
Proof. unfold sim. intros -> ->. done. Qed.

(** [records[i]] reads the header of row [i]. *)
Lemma load_slice_table (w : World) o rs abs i r :
  table (rows w) o rs abs -> rs !! i = Some r -> load_slice o i w = (Cont r, w).
Proof. intros Tb Hr. unfold load_slice. rewrite (table_load _ _ _ _ _ _ Tb Hr). done. Qed.

(** [record[j]] reads field [j] of the row, or panics when the row is
    too short. *)
Lemma load_string_table (w : World) o rs abs i r a j :
  table (rows w) o rs abs -> rs !! i = Some r -> abs !! i = Some a ->
  load_string r j w =
  match a !! j with
  | Some x => (Cont x, w)
  | None => (Stop (ExitPanic (PIndexOutOfRange (Z.of_nat j) (Z.of_nat (length a)))), w)
  end.
Proof.
  intros Tb Hr Ha. unfold load_string. rewrite (table_field _ _ _ _ _ _ _ j Tb Hr Ha).
  destruct (table_rows _ _ _ _ Tb i r a Hr Ha) as [Hw Hc].
  assert (len r = length a) as <-.
  { rewrite <- (length_contents _ _ Hw), Hc, length_fmap. done. }
  destruct (a !! j); done.
Qed.

(** [modifiedRecords[i] = append(record, v)] on row [i]. *)
Lemma set_append_M_table (w : World) o rs abs i r a v :
  table (rows w) o rs abs -> rs !! i = Some r -> abs !! i = Some a ->
  exists h' s', set_append_M o i r v w = (Cont tt, set_rows h' w) /\
    table h' o (<[i := s']> rs) (<[i := a ++ [v]]> abs).
Proof.
  intros Tb Hr Ha. unfold set_append_M.
  assert (Hi : i < len o).
  { rewrite (table_outer_len _ _ _ _ Tb). eapply lookup_lt_Some; eauto. }
  unfold set_append. rewrite store_Some by done.
  eexists _, _. split; [reflexivity|].
  apply (table_set_append _ _ _ _ _ _ _ _ _ Tb Hr Ha). unfold set_append. apply store_Some. done.
Qed.

(** The two appends of src/main.go:147-148 leave row [i] with the id and
    the name appended, once each. *)
Lemma on_match_table (w : World) o rs abs i r a k :
  table (rows w) o rs abs -> rs !! i = Some r -> abs !! i = Some a ->
  exists h' rs', on_match o r i k w = (Cont tt, set_rows h' w) /\
    table h' o rs' (<[i := a ++ [Itoa (id k); name k]]> abs).
Proof.
  intros Tb Hr Ha. unfold on_match.
  destruct (set_append_M_table w o rs abs i r a (Itoa (id k)) Tb Hr Ha) as (h1 & s1 & E1 & Tb1).
  rewrite (bind_cont _ _ _ _ _ E1).
  assert (Hi : i < length rs) by (eapply lookup_lt_Some; eauto).
  assert (Hi' : i < length abs) by (eapply lookup_lt_Some; eauto).
  assert (Hs1 : <[i := s1]> rs !! i = Some s1) by (apply list_lookup_insert_eq; done).
  assert (Ha1 : <[i := a ++ [Itoa (id k)]]> abs !! i = Some (a ++ [Itoa (id k)]))
    by (apply list_lookup_insert_eq; done).
  rewrite (bind_cont _ _ _ _ _ (load_slice_table (set_rows h1 w) _ _ _ _ _ Tb1 Hs1)).
  destruct (set_append_M_table (set_rows h1 w) o _ _ i s1 _ (name k) Tb1 Hs1 Ha1)
    as (h2 & s2 & E2 & Tb2).
  rewrite E2. exists h2, (<[i := s2]> (<[i := s1]> rs)). split; [done|].
  rewrite !list_insert_insert_eq, <- List.app_assoc in Tb2.
  rewrite list_insert_insert_eq. exact Tb2.
Qed.
(** The heap with the rows [rs] over the list of rows. *)
Definition at_rows (o : slice) (rs : list slice) (w : World) (sw : world L) : Prop :=
  table (rows w) o rs (rows sw).

(** Worlds with the rows of [w0] and [sw0]. *)
Definition same_rows (w0 : World) (sw0 : world L) (w : World) (sw : world L) : Prop :=
  rows w = rows w0 /\ rows sw = rows sw0.

Lemma field_related (P : World -> world L -> Prop) o rs i r a j w sw :
  at_rows o rs w sw -> rs !! i = Some r -> rows sw !! i = Some a -> erase w = erase sw ->
  P w sw -> related P (load_string r j w) (spec_field a j sw).
Proof.
  intros Tb Hr Ha He HP. rewrite (load_string_table w o rs _ i r a j Tb Hr Ha).
  unfold spec_field. destruct (a !! j); [apply related_ret|apply related_stop]; done.
Qed.

(** The element loop with the two appends is the spec's enrichment of
    row [i] with [find_match]. *)
Lemma match_related rR o rs i r a els w sw :
  at_rows o rs w sw -> rs !! i = Some r -> rows sw !! i = Some a -> erase w = erase sw ->
  related (sim o)
    (element_loop (panic_rows rR) (on_match o r i) rR els w)
    (modify (fun w' => set_rows (<[i := enrich_row (find_match rR els) a]> (rows w')) w') sw).
Proof.
  intros Tb Hr Ha He. rewrite element_loop_eq. unfold modify.
  destruct (find_match rR els) as [k|]; simpl.
  - destruct (on_match_table w o rs _ i r a k Tb Hr Ha) as (h' & rs' & E & Tb').
    unfold bind. rewrite E. split_and!; [done| |].
    + unfold erase, set_rows in *. simpl. done.
    + intros _ _. exists rs'. exact Tb'.
  - rewrite list_insert_id by done. split_and!; [done| |].
    + unfold erase, set_rows in *. simpl. rewrite <- He. done.
    + intros _ _. exists rs. destruct sw. exact Tb.
Qed.

(** A step that ignores the rows, then the rest with the same rows. *)
Ltac oblivious_step w0 sw0 lem x w1 sw1 Hw1 Hs1 He1 :=
  apply (related_bind (same_rows w0 sw0));
  [ eapply (related_oblivious _ _ _ _ lem);
    [ done
    | let H1 := fresh in let H2 := fresh in let H3 := fresh in
      intros ? ? H1 H2 H3; unfold same_rows in *; rewrite H1, H2; exact H3
    | done ]
  | intros x w1 sw1 [Hw1 Hs1] He1 ].

(** One round of the loop of src/main.go:116-152 on the heap does what
    one round of the spec does on the list of rows. *)
Lemma body_sim rR o i w sw :
  sim o w sw -> erase w = erase sw -> i < len o ->
  related (sim o) (loop_body rR o o i w) (spec_step rR i sw).
Proof.
  intros [rs Tb] He Hi.
  rewrite (table_outer_len _ _ _ _ Tb) in Hi.
  destruct (lookup_lt_is_Some_2 rs i Hi) as [r Hr].
  destruct (lookup_lt_is_Some_2 (rows sw) i) as [a Ha].
  { rewrite <- (table_len _ _ _ _ Tb). done. }
  unfold loop_body, spec_step.
  rewrite (bind_cont _ _ _ _ _ (load_slice_table w o rs _ i r Tb Hr)).
  oblivious_step w sw bar_inc_oblivious u w0 sw0 Hw Hs He0.
  assert (Tb1 : at_rows o rs w0 sw0) by (unfold at_rows; rewrite Hw, Hs; exact Tb).
  destruct (Nat.eqb_spec i 0) as [->|Hi0].
  { apply related_ret; [done|]. exists rs. exact Tb1. }
  rewrite (bind_cont _ _ sw0 sw0 sw0) by reflexivity.
  rewrite Hs, Ha. simpl.
  apply (related_bind (same_rows w0 sw0)).
  { eapply field_related; [exact Tb1|exact Hr|rewrite Hs; exact Ha|done|split; done]. }
  intros f13 w1 sw1 [Hw1 Hs1] He1.
  oblivious_step w1 sw1 open_constr:(parse_float_oblivious _) vlat w2 sw2 Hw2 Hs2 He2.
  apply (related_bind (same_rows w2 sw2)).
  { eapply field_related; [|exact Hr|rewrite Hs2, Hs1, Hs; exact Ha|done|split; done].
    unfold at_rows. rewrite Hw2, Hs2, Hw1, Hs1. exact Tb1. }
  intros f14 w3 sw3 [Hw3 Hs3] He3.
  oblivious_step w3 sw3 open_constr:(parse_float_oblivious _) vlon w4 sw4 Hw4 Hs4 He4.
  oblivious_step w4 sw4 open_constr:(fetch_oblivious _) resp w5 sw5 Hw5 Hs5 He5.
  eapply match_related; [|exact Hr| |done].
  - unfold at_rows. rewrite Hw5, Hs5, Hw4, Hs4, Hw3, Hs3, Hw2, Hs2, Hw1, Hs1. exact Tb1.
  - rewrite Hs5, Hs4, Hs3, Hs2, Hs1, Hs. exact Ha.
Qed.
Lemma loop_sim rR o lo n w sw :
  sim o w sw -> erase w = erase sw -> lo + n <= len o ->
  related (sim o) (for_range (loop_body rR o o) lo n w) (for_range (spec_step rR) lo n sw).
Proof.
  revert lo w sw. induction n as [|n IH]; intros lo w sw Hs He Hn; simpl.
  - apply related_ret; done.
  - apply (related_bind (sim o)); [apply body_sim; [done|done|lia]|].
    intros [] w' sw' Hs' He'. apply IH; [done|done|lia].
Qed.

Lemma related_weaken {A} (P Q : World -> world L -> Prop) x y :
  (forall w sw, P w sw -> Q w sw) -> @related A P x y -> related Q x y.
Proof. intros HPQ (H1 & H2 & H3). split_and!; eauto. Qed.

Lemma main_related w sw :
  erase w = erase sw -> related (fun _ _ => True) (main w) (spec_main sw).
Proof.
  intros He. unfold main, spec_main.
  apply (related_bind (fun _ _ => True)).
  { apply (related_oblivious _ _ _ _ connect_oblivious); done. }
  intros [] w1 sw1 _ He1.
  apply (related_bind (fun _ _ => True)).
  { apply (related_oblivious _ _ _ _ load_reference_oblivious); done. }
  intros rR w2 sw2 _ He2.
  destruct open_ok eqn:Eo.
  2:{ assert (E : read_records w2 = (Stop ExitReturn, add_line (LError EOpen) w2))
        by (unfold read_records; rewrite Eo; done).
      rewrite (bind_stopped _ _ _ _ _ E). simpl. unfold fail. split_and!; [done|erase_eq|done]. }
  destruct read_all as [pe|rs] eqn:Er.
  1:{ assert (E : read_records w2 = (Stop ExitReturn, add_line (LError (ECsvRead pe)) w2))
        by (unfold read_records; rewrite Eo, Er; done).
      rewrite (bind_stopped _ _ _ _ _ E). simpl. unfold fail. split_and!; [done|erase_eq|done]. }
  destruct (ReadAll_heap_table (rows w2) rs) as [rs0 Tb0].
  set (res := ReadAll_heap (rows w2) rs) in *.
  assert (E : read_records w2 = (Cont res.2, set_rows res.1 w2))
    by (unfold read_records; rewrite Eo, Er; done).
  assert (Hlen : len res.2 = length rs).
  { rewrite (table_outer_len _ _ _ _ Tb0). apply (table_len _ _ _ _ Tb0). }
  rewrite (bind_cont _ _ _ _ _ E). cbv beta iota delta [negb]. rewrite Hlen.
  rewrite (bind_cont _ _ sw2 tt (set_rows rs sw2)) by reflexivity.
  apply (related_bind (sim res.2)).
  { split_and!; [done|erase_eq|]. intros _ _. exists rs0. exact Tb0. }
  intros [] w3 sw3 Hs3 He3.
  apply (related_bind (sim res.2)); [apply loop_sim; [done|done|lia]|].
  intros [] w4 sw4 [rs4 Tb4] He4.
  rewrite (bind_cont _ _ w4 w4 w4) by reflexivity.
  rewrite (bind_cont _ _ sw4 sw4 sw4) by reflexivity.
  rewrite (table_deref _ _ _ _ Tb4). simpl.
  eapply related_weaken; [|apply (related_oblivious (fun _ _ => True) _ _ _
                             (write_output_oblivious (rows sw4))); done].
  done.
Qed.

(** C1: [main] (the heap of rows shared by [records] and
    [modifiedRecords], the element loop with its [continue] and [break],
    the two appends per match) behaves as the spec's enrichment
    [spec_main]: the same outcome (normal end, printed error, panic),
    the same lines printed, the same progress count, the same queries
    sent in the same order, and the same output file, for every
    runtime. *)
Theorem main_refines_spec (w : World) (sw : world L) :
  erase w = erase sw ->
  (main w).1 = (spec_main sw).1 /\ erase (main w).2 = erase (spec_main sw).2.
Proof. intros He. destruct (main_related w sw He) as (H1 & H2 & _). done. Qed.
End Sim.

(** ** Facts of the spec's run *)

Section SpecFacts.
Context `{Runtime}.

(** The value [ParseFloat] reads, when it reads one without error. *)
Definition float_of (s : string) : option float64 :=
  match ParseFloat s with (x, None) => Some x | _ => None end.

Lemma float_of_Some s x : float_of s = Some x -> ParseFloat s = (x, None).
Proof. unfold float_of. destruct (ParseFloat s) as [? [?|]]; intros Hf; simplify_eq; done. Qed.

(** The query a data row sends, when both coordinates parse. *)
Definition row_query (row : list string) : option string :=
  f13 ← row !! 13; lat ← float_of f13; f14 ← row !! 14; lon ← float_of f14;
  Some (KelurahanQuery lat lon).

(** A row whose coordinates are plain decimals sends the query template
    filled with their text padded to six decimals. *)
Lemma row_query_plain (row : list string) n1 I1 F1 n2 I2 F2 :
  row !! 13 = Some (plain_decimal n1 I1 F1) -> row !! 14 = Some (plain_decimal n2 I2 F2) ->
  coordinate I1 F1 -> coordinate I2 F2 ->
  row_query row = Some (fill_query (coord_text n1 I1 F1) (coord_text n2 I2 F2)).
Proof.
  intros H13 H14 C1 C2. unfold row_query, float_of. rewrite H13, H14. simpl.
  destruct (ParseFloat_coordinate n1 I1 F1 C1) as (x & -> & Hx).
  destruct (ParseFloat_coordinate n2 I2 F2 C2) as (y & -> & Hy).
  simpl. unfold KelurahanQuery. rewrite Hx, Hy. done.
Qed.

(** Every round keeps the output file untouched. *)
Lemma spec_step_keeps rR i (sw : world L) :
  output (spec_step rR i sw).2 = output sw /\ created (spec_step rR i sw).2 = created sw.
Proof.
  unfold spec_step, bind, modify, get, ret. simpl. destruct (i =? 0)%nat; [done|].
  unfold spec_field, stop, parse_float, fail, fetch, ret. simpl.
  destruct (default [] (rows sw !! i) !! 13); simpl; [|split; done].
  destruct (ParseFloat _) as [? [?|]]; simpl; [split; done|].
  destruct (default [] (rows sw !! i) !! 14); simpl; [|split; done].
  destruct (ParseFloat _) as [? [?|]]; simpl; [split; done|].
  destruct fetchOverpassData; split; done.
Qed.

(** A round that panics found a data row shorter than 15 fields. *)
Lemma spec_step_panic rR i (sw : world L) p :
  (spec_step rR i sw).1 = Stop (ExitPanic p) ->
  i <> 0 /\ length (default [] (rows sw !! i)) <= 14.
Proof.
  unfold spec_step, bind, modify, get, ret. simpl.
  destruct (Nat.eqb_spec i 0) as [->|Hi]; [done|]. intros Hp. split; [done|].
  revert Hp. unfold spec_field, stop, parse_float, fail, fetch, ret. simpl.
  destruct (default [] (rows sw !! i) !! 13) eqn:E13; simpl;
    [|intros _; apply lookup_ge_None_1 in E13; lia].
  destruct (ParseFloat s) as [? [?|]]; simpl; [done|].
  destruct (default [] (rows sw !! i) !! 14) eqn:E14; simpl;
    [|intros _; apply lookup_ge_None_1 in E14; lia].
  destruct (ParseFloat s0) as [? [?|]]; simpl; [done|].
  destruct fetchOverpassData; done.
Qed.

(** A round that goes on: the header is left alone; a data row sends
    its query and is replaced by its enrichment with some reference. *)
Lemma spec_step_cont rR i (sw sw' : world L) :
  spec_step rR i sw = (Cont tt, sw') ->
  bar sw' = S (bar sw) /\ stdout sw' = stdout sw /\
  (i = 0 -> rows sw' = rows sw /\ sent sw' = sent sw) /\
  (i <> 0 -> exists q m, row_query (default [] (rows sw !! i)) = Some q /\
     sent sw' = sent sw ++ [q] /\ (forall k, m = Some k -> k ∈ rR) /\
     rows sw' = <[i := enrich_row m (default [] (rows sw !! i))]> (rows sw) /\
     exists resp, fetchOverpassData (length (sent sw)) q = inr resp /\ m = find_match rR (Elements resp)).
Proof.
  unfold spec_step, bind, modify, get, ret. simpl.
  destruct (Nat.eqb_spec i 0) as [->|Hi]; [intros [= <-]; done|].
  unfold spec_field, stop, parse_float, fail, fetch, ret, row_query, float_of. simpl.
  destruct (default [] (rows sw !! i) !! 13) as [f13|]; simpl; [|done].
  destruct (ParseFloat f13) as [lat [?|]]; simpl; [done|].
  destruct (default [] (rows sw !! i) !! 14) as [f14|]; simpl; [|done].
  destruct (ParseFloat f14) as [lon [?|]]; simpl; [done|].
  destruct fetchOverpassData as [e|resp] eqn:Ef; [done|]. intros [= <-]. simpl.
  split_and!; try done. intros _.
  eexists _, (find_match rR (Elements resp)). split_and!; try done; [apply find_match_in|by exists resp].
Qed.
(** The queries of the data rows [lo .. lo+n-1], in row order. *)
Fixpoint loop_queries (rs : L) (lo n : nat) : list string :=
  match n with
  | O => []
  | S n' =>
      (if (lo =? 0)%nat then [] else option_list (row_query (default [] (rs !! lo))))
      ++ loop_queries rs (S lo) n'
  end.

Lemma for_range_S (body : nat -> DM L unit) lo n sw :
  for_range body lo (S n) sw =
  match body lo sw with
  | (Cont _, sw1) => for_range body (S lo) n sw1
  | (Stop x, sw1) => (Stop x, sw1)
  end.
Proof. reflexivity. Qed.

(** When every data row in [lo .. lo+n-1] has its query, the loop sends
    [n] of them. *)
Lemma loop_queries_length rs lo n :
  0 < lo -> (forall j, lo <= j < lo + n -> is_Some (row_query (default [] (rs !! j)))) ->
  length (loop_queries rs lo n) = n.
Proof.
  revert lo. induction n as [|n IH]; intros lo Hlo Hq; [done|]. simpl.
  destruct (Nat.eqb_spec lo 0) as [|_]; [lia|].
  destruct (Hq lo) as [q ->]; [lia|]. simpl. rewrite IH; [done|lia|]. intros j Hj. apply Hq. lia.
Qed.

Lemma loop_queries_app rs lo n m :
  loop_queries rs lo (n + m) = loop_queries rs lo n ++ loop_queries rs (lo + n) m.
Proof.
  revert lo. induction n as [|n IH]; intros lo; simpl; [rewrite Nat.add_0_r; done|].
  rewrite IH, app_assoc, Nat.add_succ_r. done.
Qed.

(** The query of data row [i] is the [(i-1)]-th the loop sends when the
    rows before it have theirs. *)
Lemma loop_queries_lookup rs i n q :
  0 < i < n -> (forall j, 0 < j < i -> is_Some (row_query (default [] (rs !! j)))) ->
  row_query (default [] (rs !! i)) = Some q -> loop_queries rs 0 n !! (i - 1) = Some q.
Proof.
  intros Hi Hq Hrq. replace n with (i + S (n - S i)) by lia. rewrite loop_queries_app.
  assert (Hlen : length (loop_queries rs 0 i) = i - 1).
  { destruct i as [|i]; [lia|]. simpl. rewrite Nat.sub_0_r, loop_queries_length; [done|lia|].
    intros j Hj. apply Hq. lia. }
  rewrite lookup_app_r by lia. rewrite Hlen, Nat.sub_diag. simpl.
  destruct (Nat.eqb_spec i 0); [lia|]. rewrite Hrq. done.
Qed.

(** The queries of rows [lo ..] only read those rows. *)
Lemma loop_queries_other (rs rs' : L) lo k :
  (forall j, lo <= j -> rs' !! j = rs !! j) -> loop_queries rs' lo k = loop_queries rs lo k.
Proof.
  revert lo. induction k as [|k IH]; intros lo Hj; [done|]. simpl.
  rewrite (Hj lo), IH; [done| |lia]. intros j Hj'. apply Hj. lia.
Qed.

Lemma spec_loop_keeps rR lo n (sw : world L) :
  output (for_range (spec_step rR) lo n sw).2 = output sw /\
  created (for_range (spec_step rR) lo n sw).2 = created sw.
Proof.
  revert lo sw. induction n as [|n IH]; intros lo sw; [done|]. rewrite for_range_S.
  pose proof (spec_step_keeps rR lo sw) as [K1 K2].
  destruct (spec_step rR lo sw) as [[[]|x] sw1]; simpl in *; [|done].
  rewrite <- K1, <- K2. apply IH.
Qed.

(** A row the loop has not reached yet is the input row. *)
(** The request a round sends: its row's query, none for the header. *)
Lemma spec_step_sent rR i (sw sw' : world L) :
  spec_step rR i sw = (Cont tt, sw') ->
  sent sw' = sent sw ++ (if (i =? 0)%nat then [] else option_list (row_query (default [] (rows sw !! i)))).
Proof.
  intros E. destruct (spec_step_cont rR i sw sw' E) as (_ & _ & H0 & H1).
  destruct (Nat.eqb_spec i 0) as [->|Hi]; [rewrite (proj2 (H0 eq_refl)), app_nil_r; done|].
  destruct (H1 Hi) as (q & m & Hrq & -> & _). by rewrite Hrq.
Qed.

Lemma spec_step_other rR i j (sw sw' : world L) :
  spec_step rR i sw = (Cont tt, sw') -> i <> j -> rows sw' !! j = rows sw !! j.
Proof.
  intros E Hij. destruct (spec_step_cont rR i sw sw' E) as (_ & _ & H0 & H1).
  destruct (decide (i = 0)) as [->|Hi]; [rewrite (proj1 (H0 eq_refl)); done|].
  destruct (H1 Hi) as (q & m & _ & _ & _ & -> & _). apply list_lookup_insert_ne. done.
Qed.

Lemma spec_loop_panic rR lo n (sw : world L) p :
  (for_range (spec_step rR) lo n sw).1 = Stop (ExitPanic p) ->
  exists j, lo <= j < lo + n /\ j <> 0 /\ length (default [] (rows sw !! j)) <= 14.
Proof.
  revert lo sw. induction n as [|n IH]; intros lo sw; [done|]. rewrite for_range_S.
  destruct (spec_step rR lo sw) as [[[]|x] sw1] eqn:E; simpl.
  - intros Hp. destruct (IH (S lo) sw1 Hp) as (j & Hj & Hj0 & Hlen).
    exists j. split; [lia|]. split; [done|].
    rewrite <- (spec_step_other rR lo j sw sw1 E) by lia. done.
  - intros [= ->]. pose proof (spec_step_panic rR lo sw p) as Hp. rewrite E in Hp.
    destruct (Hp eq_refl) as [Hlo Hlen]. exists lo. split; [lia|done].
Qed.

(** A loop that runs to its end: one progress step per row, nothing
    printed, the header and the rows outside the range untouched, every
    data row in range replaced by its enrichment with a reference (or
    kept), and one query per data row, in row order. *)
Lemma spec_loop_cont rR lo n (sw sw' : world L) :
  for_range (spec_step rR) lo n sw = (Cont tt, sw') ->
  bar sw' = bar sw + n /\ stdout sw' = stdout sw /\
  length (rows sw') = length (rows sw) /\
  (forall j, (j < lo \/ lo + n <= j \/ j = 0) -> rows sw' !! j = rows sw !! j) /\
  (forall j row, lo <= j < lo + n -> j <> 0 -> rows sw !! j = Some row ->
     exists m, (forall k, m = Some k -> k ∈ rR) /\ rows sw' !! j = Some (enrich_row m row) /\
     exists q resp, row_query row = Some q /\
       fetchOverpassData (length (sent sw) + length (loop_queries (rows sw) lo (j - lo))) q = inr resp /\
       m = find_match rR (Elements resp)) /\
  sent sw' = sent sw ++ loop_queries (rows sw) lo n.
Proof.
  revert lo sw. induction n as [|n IH]; intros lo sw.
  { intros [= <-]. simpl. rewrite Nat.add_0_r, app_nil_r. split_and!; try done.
    intros j row ? ? ?. lia. }
  rewrite for_range_S. destruct (spec_step rR lo sw) as [[[]|x] sw1] eqn:E; [|done].
  intros Hloop. destruct (IH (S lo) sw1 Hloop) as (Hb & Ho & Hl & Hkeep & Henr & Hs).
  destruct (spec_step_cont rR lo sw sw1 E) as (Hb1 & Ho1 & H0 & H1).
  assert (Hrows1 : forall j, j <> lo -> rows sw1 !! j = rows sw !! j)
    by (intros j Hj; apply (spec_step_other rR lo j sw sw1 E); lia).
  assert (Hlen1 : length (rows sw1) = length (rows sw)).
  { destruct (decide (lo = 0)) as [->|Hlo]; [rewrite (proj1 (H0 eq_refl)); done|].
    destruct (H1 Hlo) as (q & m & _ & _ & _ & -> & _). apply length_insert. }
  assert (Hq : forall k, loop_queries (rows sw1) (S lo) k = loop_queries (rows sw) (S lo) k)
    by (intros k; apply loop_queries_other; intros j Hj; apply Hrows1; lia).
  pose proof (spec_step_sent rR lo sw sw1 E) as Hsent1.
  split_and!.
  - lia.
  - congruence.
  - congruence.
  - intros j Hj. rewrite Hkeep by lia.
    destruct (decide (j = lo)) as [->|Hne]; [|apply Hrows1; done].
    destruct (decide (lo = 0)) as [->|Hlo]; [rewrite (proj1 (H0 eq_refl)); done|]. lia.
  - intros j row Hj Hj0 Hrow. destruct (decide (j = lo)) as [->|Hne].
    + rewrite Hkeep by lia. destruct (H1 Hj0) as (q & m & Hrq & _ & Hm & -> & resp & Hf & Hmr).
      rewrite Hrow in Hrq. exists m. split_and!; [done| |].
      * rewrite Hrow. simpl. apply list_lookup_insert_eq. eapply lookup_lt_Some; eauto.
      * exists q, resp. rewrite Nat.sub_diag, Nat.add_0_r. done.
    + destruct (Henr j row) as (m & Hm & Hj' & q & resp & Hrq & Hf & Hmr);
        [lia|done|rewrite Hrows1; done|].
      exists m. split_and!; [done|done|]. exists q, resp. split_and!; [done| |done].
      rewrite <- Hf. f_equal. replace (j - lo) with (S (j - S lo)) by lia. cbn [loop_queries].
      rewrite Hsent1, Hq, !length_app. lia.
  - rewrite Hs, Hq, Hsent1, <- app_assoc. done.
Qed.
(** A data row whose latitude and longitude fields exist and parse. *)
Definition row_parses (row : list string) : Prop :=
  exists lat lon, (row !! 13 ≫= float_of) = Some lat /\ (row !! 14 ≫= float_of) = Some lon.

(** A round of the loop ends normally when its row parses and the
    request gets an answer. *)
Lemma spec_step_total rR i (sw : world L) :
  (i <> 0 -> row_parses (default [] (rows sw !! i))) ->
  (forall n q, exists r, fetchOverpassData n q = inr r) ->
  exists sw', spec_step rR i sw = (Cont tt, sw').
Proof.
  intros Hrow Hf. unfold spec_step, bind, modify, get, ret. simpl.
  destruct (Nat.eqb_spec i 0) as [->|Hi]; [by eexists|].
  destruct (Hrow Hi) as (lat & lon & H13 & H14).
  unfold spec_field, stop, parse_float, fail, fetch, ret. simpl.
  destruct (default [] (rows sw !! i) !! 13) as [f13|]; simpl in *; [|done]. rewrite (float_of_Some _ _ H13). simpl.
  destruct (default [] (rows sw !! i) !! 14) as [f14|]; simpl in *; [|done]. rewrite (float_of_Some _ _ H14). simpl.
  edestruct Hf as [r ->]. by eexists.
Qed.

Lemma spec_loop_total rR lo n (sw : world L) :
  (forall j, lo <= j < lo + n -> j <> 0 -> row_parses (default [] (rows sw !! j))) ->
  (forall n q, exists r, fetchOverpassData n q = inr r) ->
  exists sw', for_range (spec_step rR) lo n sw = (Cont tt, sw').
Proof.
  revert lo sw. induction n as [|n IH]; intros lo sw Hrows Hf; [by eexists|]. rewrite for_range_S.
  destruct (spec_step_total rR lo sw) as [sw1 E]; [intros; apply Hrows; lia|done|]. rewrite E.
  apply IH; [|done]. intros j Hj Hj0.
  rewrite (spec_step_other rR lo j sw sw1 E) by lia. apply Hrows; [lia|done].
Qed.

(** A round whose latitude [ParseFloat] rejects prints the error and
    stops, without a request. *)
Lemma spec_step_parse_error rR i (sw : world L) f x e :
  i <> 0 -> default [] (rows sw !! i) !! 13 = Some f -> ParseFloat f = (x, Some e) ->
  spec_step rR i sw = (Stop ExitReturn, add_line (LError (EParseFloat f e)) (bar_inc sw)).
Proof.
  intros Hi H13 Hp. unfold spec_step, bind, modify, get, ret. simpl.
  destruct (Nat.eqb_spec i 0); [done|]. unfold spec_field, parse_float, fail, ret. simpl.
  rewrite H13. simpl. rewrite Hp. done.
Qed.

(** The loop stops at the first row whose latitude does not parse,
    after the requests of the rows before it. *)
Lemma spec_loop_parse_error rR lo n i (sw : world L) f x e :
  lo <= i < lo + n -> i <> 0 ->
  (forall j, lo <= j < i -> j <> 0 -> row_parses (default [] (rows sw !! j))) ->
  (forall n q, exists r, fetchOverpassData n q = inr r) ->
  default [] (rows sw !! i) !! 13 = Some f -> ParseFloat f = (x, Some e) ->
  exists sw', for_range (spec_step rR) lo n sw = (Stop ExitReturn, sw') /\
    stdout sw' = stdout sw ++ [LError (EParseFloat f e)] /\
    sent sw' = sent sw ++ loop_queries (rows sw) lo (i - lo) /\ output sw' = output sw.
Proof.
  revert lo sw. induction n as [|n IH]; intros lo sw Hi Hi0 Hrows Hf H13 Hp; [lia|].
  rewrite for_range_S. destruct (Nat.eq_dec lo i) as [<-|Hne].
  { rewrite (spec_step_parse_error rR lo sw f x e Hi0 H13 Hp). eexists; split; [done|].
    rewrite Nat.sub_diag. simpl. rewrite app_nil_r. done. }
  destruct (spec_step_total rR lo sw) as [sw1 E]; [intros Hlo; apply Hrows; [lia|done]|done|].
  rewrite E. pose proof (spec_step_keeps rR lo sw) as [K1 _]. rewrite E in K1. simpl in K1.
  destruct (spec_step_cont rR lo sw sw1 E) as (_ & Ho1 & _ & _).
  assert (Hrows1 : forall j, j <> lo -> rows sw1 !! j = rows sw !! j)
    by (intros j Hj; apply (spec_step_other rR lo j sw sw1 E); lia).
  destruct (IH (S lo) sw1) as (sw' & El & Hout & Hs & Ho); [lia|done| |done| |done|].
  { intros j Hj Hj0. rewrite Hrows1 by lia. apply Hrows; [lia|done]. }
  { rewrite Hrows1 by lia. done. }
  exists sw'. split_and!; [done|congruence| |congruence].
  rewrite Hs, (spec_step_sent rR lo sw sw1 E).
  replace (i - lo) with (S (i - S lo)) by lia. simpl.
  rewrite (loop_queries_other (rows sw) (rows sw1)) by (intros j Hj; apply Hrows1; lia).
  rewrite <- app_assoc. done.
Qed.

(** The spec's run, step by step. *)
Lemma spec_main_eq (sw : world L) :
  spec_main sw =
  match ConnectDb with
  | Some e => (Stop ExitReturn, add_line (LError (EDb e)) sw)
  | None =>
    match load_rows with
    | inl e => (Stop ExitReturn, add_line (LError (EDb e)) (add_line LConnected sw))
    | inr rR =>
      if negb open_ok then (Stop ExitReturn, add_line (LError EOpen) (add_line LConnected sw))
      else match read_all with
      | inl pe => (Stop ExitReturn, add_line (LError (ECsvRead pe)) (add_line LConnected sw))
      | inr rs =>
        match for_range (spec_step rR) 0 (length rs) (set_bar0 (set_rows rs (add_line LConnected sw))) with
        | (Cont _, sw3) => write_output (rows sw3) sw3
        | (Stop x, sw3) => (Stop x, sw3)
        end
      end
    end
  end.
Proof.
  unfold spec_main, connect, load_reference, print, fail, bind, modify, get, ret.
  destruct ConnectDb; [done|]. destruct load_rows; [done|].
  destruct open_ok; [|done]. destruct read_all; [done|]. simpl.
  destruct (for_range _ _ _ _) as [[]?]; done.
Qed.

Lemma write_file_ok b f : write_file b = (f, true) -> f = b.
Proof.
  unfold write_file. destruct file_limit as [k|]; [|by intros [= ->]].
  intros [= <- Hk%bool_decide_eq_true_1]. by apply take_ge.
Qed.

Lemma write_file_err b f : write_file b = (f, false) -> f `prefix_of` b /\ length f < length b.
Proof.
  unfold write_file. destruct file_limit as [k|]; [|done].
  intros [= <- Hk%bool_decide_eq_false_1]. split; [apply prefix_take|rewrite length_take; lia].
Qed.

Lemma write_output_cont out (sw sw' : world L) :
  write_output out sw = (Cont tt, sw') ->
  output sw' = Some (Csv.WriteAll out) /\ bar sw' = bar sw /\ sent sw' = sent sw /\
  stdout sw' = stdout sw ++ [LBlank; LBlank; LBlank; LWriting].
Proof.
  unfold write_output, print, bind, modify, fail. simpl.
  destruct create_ok; simpl; [|done]. destruct (write_file _) as [f []] eqn:E; simpl; [|done].
  apply write_file_ok in E as ->. intros [= <-]. simpl. rewrite <- !app_assoc. done.
Qed.

(** [write_output] stops either before [os.Create] succeeded, leaving the
    file as it was, or on the error of [WriteAll], the file holding a
    proper prefix of the bytes of the records. *)
Lemma write_output_stop out (sw sw' : world L) x :
  write_output out sw = (Stop x, sw') -> x = ExitReturn /\
  ((output sw' = output sw /\ created sw' = created sw) \/
   exists l f, stdout sw' = l ++ [LError EWrite] /\ output sw' = Some f /\
     f `prefix_of` Csv.WriteAll out /\ length f < length (Csv.WriteAll out)).
Proof.
  unfold write_output, print, bind, modify, fail. simpl.
  destruct create_ok; simpl; [|intros [= <- <-]; split; [done|left; done]].
  destruct (write_file _) as [f []] eqn:E; simpl; [done|].
  apply write_file_err in E. intros [= <- <-]. split; [done|right]. by eexists _, f.
Qed.

(** The spec's run starts from the world of [main] with no rows. *)
Lemma main_spec w :
  (main w).1 = (spec_main (set_rows [] w)).1 /\ erase (main w).2 = erase (spec_main (set_rows [] w)).2.
Proof. destruct (main_related w (set_rows [] w) eq_refl) as (H1 & H2 & _). done. Qed.
End SpecFacts.

(** The rows [main] writes against the rows it read: when the input is
    rectangular, either nothing was enriched, or the written table is
    ragged after its first row. *)
Lemma enriched_eq_or_ragged (rs out : L) n :
  Forall (fun r => length r = n) rs -> length out = length rs -> out !! 0 = rs !! 0 ->
  (forall i row, i <> 0 -> rs !! i = Some row ->
     out !! i = Some row \/ exists x y, out !! i = Some (row ++ [x; y])) ->
  out = rs \/ exists r0 rows, out = r0 :: rows /\ length r0 = n /\
    exists r, r ∈ rows /\ length r <> n.
Proof.
  intros Hn Hl H0 Hi.
  destruct (decide (Forall (fun r => length r = n) out)) as [Ho|Ho].
  - left. apply list_eq. intros i. destruct (decide (i = 0)) as [->|Hi0]; [done|].
    destruct (rs !! i) as [row|] eqn:Hr.
    + destruct (Hi i row Hi0 Hr) as [->|(x & y & Hx)]; [done|]. exfalso.
      pose proof (Forall_lookup_1 _ _ _ _ Ho Hx). pose proof (Forall_lookup_1 _ _ _ _ Hn Hr).
      simpl in *. rewrite length_app in *. simpl in *. lia.
    + apply lookup_ge_None in Hr. apply lookup_ge_None. lia.
  - right. apply not_Forall_Exists in Ho; [|apply _]. apply Exists_exists in Ho as (r & Hr & Hlr).
    destruct out as [|r0 rows]; [by apply not_elem_of_nil in Hr|].
    destruct rs as [|r0' rs']; [done|]. simpl in H0. injection H0 as ->.
    apply Forall_cons in Hn as [Hn0 _].
    exists r0', rows. split_and!; [done|done|]. exists r.
    apply elem_of_cons in Hr as [->|Hr]; [done|]. done.
Qed.

(** ** What a run of [main] does *)

Section MainFacts.
Context `{Runtime}.

Ltac to_spec w :=
  let Ho := fresh "Ho" in let He := fresh "He" in
  destruct (main_spec w) as [Ho He];
  apply erase_fields in He as (?Hbar & ?Hout & ?Hsent & ?Hcr & ?Hop);
  rewrite ?Ho, ?Hbar, ?Hout, ?Hsent, ?Hcr, ?Hop; rewrite spec_main_eq.

(** A run that ends normally, read through the spec: the reference
    table and the rows were read, the loop and the writing ran to their
    end, and the observable fields are those of the spec's run. *)
Lemma main_cont (w : World) :
  (main w).1 = Cont tt ->
  exists rR rs sw3 sw4, load_rows = inr rR /\ read_all = inr rs /\
    for_range (spec_step rR) 0 (length rs)
      (set_bar0 (set_rows rs (add_line LConnected (set_rows ([] : L) w)))) = (Cont tt, sw3) /\
    write_output (rows sw3) sw3 = (Cont tt, sw4) /\
    bar (main w).2 = bar sw4 /\ stdout (main w).2 = stdout sw4 /\
    sent (main w).2 = sent sw4 /\ output (main w).2 = output sw4.
Proof.
  to_spec w.
  destruct ConnectDb; [done|]. destruct load_rows as [e|rR]; [done|].
  destruct open_ok; [|done]. destruct read_all as [pe|rs]; [done|]. simpl.
  destruct (for_range _ _ _ _) as [[[]|x] sw3] eqn:El; [|done].
  destruct (write_output (rows sw3) sw3) as [o sw4] eqn:Ew. simpl. intros ->.
  exists rR, rs, sw3, sw4. split_and!; done.
Qed.

(** The requests of a run that ends normally: one per data row, in row
    order, every data row having its query. *)
Lemma main_sent (w : World) rs :
  (main w).1 = Cont tt -> read_all = inr rs ->
  sent (main w).2 = sent w ++ loop_queries rs 0 (length rs) /\
  forall j row, j <> 0 -> rs !! j = Some row -> is_Some (row_query row).
Proof.
  intros Hc Hr. destruct (main_cont w Hc) as (rR & rs' & sw3 & sw4 & _ & Hr' & El & Ew & _ & _ & -> & _).
  rewrite Hr in Hr'. injection Hr' as <-.
  destruct (write_output_cont _ _ _ Ew) as (_ & _ & -> & _).
  destruct (spec_loop_cont _ _ _ _ _ El) as (_ & _ & _ & _ & Henr & ->). simpl.
  split; [done|]. intros j row Hj Hrow.
  destruct (Henr j row) as (m & _ & _ & q & _ & Hq & _);
    [split; [lia|eapply lookup_lt_Some; eauto]|done|done|]. by rewrite Hq.
Qed.

(** C2: the main functional property: in a run that ends normally,
    data row [i] is enriched with the match of its own answer: its query
    (its fields 13 and 14 parsed and formatted into the template) is the
    [(i-1)]-th request of the run, and the row written is the input row
    with the id and name of [find_match] on that answer's elements, or
    the row unchanged when nothing matches.  The header is written
    unchanged and no row is added or lost. *)
Theorem main_rows_match_answers (w : World) rR rs :
  (main w).1 = Cont tt -> load_rows = inr rR -> read_all = inr rs ->
  exists out, output (main w).2 = Some (Csv.WriteAll out) /\ length out = length rs /\
    out !! 0 = rs !! 0 /\
    forall i row, i <> 0 -> rs !! i = Some row ->
      exists q resp, row_query row = Some q /\
        fetchOverpassData (length (sent w) + (i - 1)) q = inr resp /\
        out !! i = Some (enrich_row (find_match rR (Elements resp)) row).
Proof.
  intros Hc HR Hr.
  destruct (main_cont w Hc) as (rR' & rs' & sw3 & sw4 & HR' & Hr' & El & Ew & _ & _ & _ & ->).
  rewrite HR in HR'. rewrite Hr in Hr'. injection HR' as <-. injection Hr' as <-.
  destruct (write_output_cont _ _ _ Ew) as (-> & _).
  destruct (spec_loop_cont _ _ _ _ _ El) as (_ & _ & Hlen & Hkeep & Henr & _). simpl in *.
  assert (Hans : forall i row, i <> 0 -> rs !! i = Some row ->
    exists q resp, row_query row = Some q /\
      fetchOverpassData (length (sent w) + length (loop_queries rs 0 i)) q = inr resp /\
      rows sw3 !! i = Some (enrich_row (find_match rR (Elements resp)) row)).
  { intros i row Hi Hrow.
    destruct (Henr i row) as (m & _ & Hi' & q & resp & Hrq & Hf & ->);
      [split; [lia|eapply lookup_lt_Some; eauto]|done|done|].
    exists q, resp. rewrite Nat.sub_0_r in Hf. done. }
  exists (rows sw3). split_and!; [done|done|rewrite Hkeep by lia; done|].
  intros i row Hi Hrow. destruct (Hans i row Hi Hrow) as (q & resp & Hrq & Hf & Hout).
  exists q, resp. split_and!; [done| |done]. rewrite <- Hf. f_equal. f_equal.
  destruct i as [|i]; [done|]. simpl. rewrite Nat.sub_0_r, loop_queries_length; [done|lia|].
  intros j Hj. destruct (lookup_lt_is_Some_2 rs j) as [rowj Hj']; [apply lookup_lt_Some in Hrow; lia|].
  rewrite Hj'. simpl. destruct (Hans j rowj) as (qj & _ & -> & _); [lia|done|]. by eexists.
Qed.

(** C23: In a run of [main] that ends normally, the request of data row
    [i], the [(i-1)]-th of the run, is the query template of
    src/main.go:93-98 filled with the row's latitude and longitude as the
    input file writes them, padded to six decimals, when both are plain
    decimal coordinates: [strconv.ParseFloat] and [%f] do not move a
    coordinate on its way from the file to Overpass. *)
Theorem main_queries_carry_coordinates (w : World) rs i row n1 I1 F1 n2 I2 F2 :
  (main w).1 = Cont tt -> read_all = inr rs -> i <> 0 -> rs !! i = Some row ->
  row !! 13 = Some (plain_decimal n1 I1 F1) -> row !! 14 = Some (plain_decimal n2 I2 F2) ->
  coordinate I1 F1 -> coordinate I2 F2 ->
  sent (main w).2 !! (length (sent w) + (i - 1)) =
    Some (fill_query (coord_text n1 I1 F1) (coord_text n2 I2 F2)).
Proof.
  intros Hc Hr Hi Hrow H13 H14 C1 C2.
  destruct (main_sent w rs Hc Hr) as [-> Hq].
  rewrite lookup_app_r by lia. replace (length (sent w) + (i - 1) - length (sent w)) with (i - 1) by lia.
  apply loop_queries_lookup; [split; [lia|eapply lookup_lt_Some; eauto]| |].
  - intros j Hj. destruct (lookup_lt_is_Some_2 rs j) as [rowj Hj']; [apply lookup_lt_Some in Hrow; lia|].
    rewrite Hj'. apply (Hq j rowj); [lia|done].
  - rewrite Hrow. apply row_query_plain; done.
Qed.

(** C5: a run that ends normally advanced the progress bar once per
    CSV row (header included), sent exactly one query per data row, in
    row order, and printed the connection line, three empty lines and
    "WRITING", nothing else. *)
Theorem main_success_trace (w : World) rs :
  (main w).1 = Cont tt -> read_all = inr rs ->
  bar (main w).2 = length rs /\
  sent (main w).2 = sent w ++ loop_queries rs 0 (length rs) /\
  stdout (main w).2 = stdout w ++ [LConnected; LBlank; LBlank; LBlank; LWriting].
Proof.
  intros Hc Hr. destruct (main_cont w Hc) as (rR & rs' & sw3 & sw4 & _ & Hr' & El & Ew & -> & -> & -> & _).
  rewrite Hr in Hr'. injection Hr' as <-.
  destruct (write_output_cont _ _ _ Ew) as (_ & -> & -> & ->).
  destruct (spec_loop_cont _ _ _ _ _ El) as (Hb3 & Ho3 & _ & _ & _ & Hs3). simpl in *.
  split_and!; [lia|congruence|]. rewrite Ho3, <- app_assoc. done.
Qed.

(** C26: with an empty reference table, a run that ends normally writes
    the rows it read, unchanged (the spec's scenario "reference set is
    empty: all rows pass through unchanged"). *)
Theorem main_empty_reference (w : World) rs :
  load_rows = inr [] -> read_all = inr rs -> (main w).1 = Cont tt ->
  output (main w).2 = Some (Csv.WriteAll rs).
Proof.
  intros HR Hr Hc. destruct (main_cont w Hc) as (rR & rs' & sw3 & sw4 & HR' & Hr' & El & Ew & _ & _ & _ & ->).
  rewrite HR in HR'. rewrite Hr in Hr'. injection HR' as <-. injection Hr' as <-.
  destruct (write_output_cont _ _ _ Ew) as (-> & _).
  destruct (spec_loop_cont _ _ _ _ _ El) as (_ & _ & Hlen & Hkeep & Henr & _). simpl in *.
  do 2 f_equal. apply list_eq. intros i. destruct (decide (i = 0)) as [->|Hi]; [apply Hkeep; lia|].
  destruct (rs !! i) as [row|] eqn:Hrow.
  - destruct (Henr i row) as ([k|] & Hm & Hi' & _); [split; [lia|eapply lookup_lt_Some; eauto]|done|done| |done].
    pose proof (Hm k eq_refl) as Hk. set_solver.
  - apply lookup_ge_None. apply lookup_ge_None in Hrow. lia.
Qed.

(** C3: a run that does not end normally leaves the output file as it
    was, neither created nor written, when it stops before [os.Create]
    succeeds; otherwise it stopped on the error of [WriteAll], the last
    line printed, and the created file holds a proper prefix of the bytes
    of the table it was writing (what [bufio] had already flushed), a
    table with the rows of the input, the header first. *)
Theorem main_failure_keeps_output (w : World) :
  (main w).1 <> Cont tt ->
  (output (main w).2 = output w /\ created (main w).2 = created w) \/
  exists rs out f l, read_all = inr rs /\ length out = length rs /\ out !! 0 = rs !! 0 /\
    output (main w).2 = Some f /\ f `prefix_of` Csv.WriteAll out /\
    length f < length (Csv.WriteAll out) /\ stdout (main w).2 = l ++ [LError EWrite].
Proof.
  to_spec w.
  destruct ConnectDb; [intros _; left; done|]. destruct load_rows as [e|rR]; [intros _; left; done|].
  destruct open_ok; [|intros _; left; done]. destruct read_all as [pe|rs]; [intros _; left; done|]. simpl.
  pose proof (spec_loop_keeps rR 0 (length rs)
                (set_bar0 (set_rows rs (add_line LConnected (set_rows ([] : L) w))))) as [K1 K2].
  destruct (for_range _ _ _ _) as [[[]|x] sw3] eqn:El; simpl in *; [|intros _; left; done].
  destruct (write_output (rows sw3) sw3) as [[[]|x] sw4] eqn:Ew; simpl; [done|].
  intros _. apply write_output_stop in Ew as (_ & [[-> ->]|(l & f & Hl & Hf & Hp & Hlt)]); [left; done|right].
  destruct (spec_loop_cont _ _ _ _ _ El) as (_ & _ & Hlen & Hkeep & _). simpl in *.
  exists rs, (rows sw3), f, l. split_and!; try done. rewrite Hkeep by lia. done.
Qed.

(** C4: [main] exits with a non-zero status only by a panic, and it
    panics only on a data row with fewer than 15 fields ([record[13]] or
    [record[14]] out of range): the reads of [records[i]], of
    [resultRows[kelurhanIndex]] and the stores into [modifiedRecords]
    never panic.  Since [csvReader.ReadAll] refuses a row whose number of
    fields differs from the first row's, every row of such a file, the
    header included, has at most 14 fields.  The spec says the process
    always exits with 0. *)
Theorem main_nonzero_exit_short_row (w : World) :
  exit_code (main w).1 <> 0%Z ->
  exists rs j row, read_all = inr rs /\ j <> 0 /\ rs !! j = Some row /\ length row <= 14 /\
    Forall (fun r => length r <= 14) rs.
Proof.
  unfold exit_code. destruct (main w).1 as [|[|p]] eqn:Em; [done|done|]. intros _. revert Em.
  to_spec w.
  destruct ConnectDb; [done|]. destruct load_rows as [e|rR]; [done|].
  destruct open_ok; [|done]. destruct read_all as [pe|rs] eqn:Hr; [done|]. simpl.
  destruct (for_range _ _ _ _) as [[[]|x] sw3] eqn:El; simpl.
  - destruct (write_output (rows sw3) sw3) as [[[]|x] sw4] eqn:Ew; simpl; [done|].
    intros [= ->]. apply write_output_stop in Ew as (? & _). done.
  - intros [= ->]. destruct (spec_loop_panic rR 0 (length rs)
      (set_bar0 (set_rows rs (add_line LConnected (set_rows ([] : L) w)))) p)
      as (j & Hj & Hj0 & Hlen); [rewrite El; done|]. simpl in Hlen.
    destruct (lookup_lt_is_Some_2 rs j) as [row Hrow]; [lia|].
    exists rs, j, row. rewrite Hrow in Hlen. simpl in Hlen. split_and!; [done..|].
    destruct (Csv.ReadAll_rows_length _ _ Hr) as [->|[n Hn]]; [done|].
    pose proof (Forall_lookup_1 _ _ _ _ Hn Hrow). apply (Forall_impl _ _ _ Hn). intros r Hr1. simpl in *. lia.
Qed.

(** C24: a data row whose latitude [strconv.ParseFloat] rejects ends the
    run at that row, as the spec's "fails with a ParseError, aborting the
    entire run" says: when the rows before it parse and get their answers,
    [main] prints the error ([EParseFloat] with the field and the
    [NumError.Err], a syntax or a range error) right after the connection
    line, returns with exit status 0, has sent exactly the requests of
    the rows before it, and writes no output file. *)
Theorem main_parse_error (w : World) rR rs i row f x e :
  ConnectDb = None -> load_rows = inr rR -> open_ok = true -> read_all = inr rs ->
  (forall j row', 0 < j < i -> rs !! j = Some row' -> row_parses row') ->
  (forall n q, exists r, fetchOverpassData n q = inr r) ->
  i <> 0 -> rs !! i = Some row -> row !! 13 = Some f -> ParseFloat f = (x, Some e) ->
  (main w).1 = Stop ExitReturn /\ exit_code (main w).1 = 0%Z /\ output (main w).2 = output w /\
  stdout (main w).2 = stdout w ++ [LConnected; LError (EParseFloat f e)] /\
  sent (main w).2 = sent w ++ loop_queries rs 0 i.
Proof.
  intros HC HR Ho Hr Hrows Hf Hi Hrow H13 Hp.
  destruct (main_spec w) as [Hm He]. apply erase_fields in He as (_ & Hst & Hs & _ & Hout).
  rewrite Hm, Hst, Hs, Hout, spec_main_eq, HC, HR, Ho, Hr. simpl.
  destruct (spec_loop_parse_error rR 0 (length rs) i
    (set_bar0 (set_rows rs (add_line LConnected (set_rows ([] : L) w)))) f x e)
    as (sw' & El & Hso & Hse & Hoo); [apply lookup_lt_Some in Hrow; lia|done| |done| |done|].
  { intros j Hj Hj0. simpl. destruct (lookup_lt_is_Some_2 rs j) as [row' Hr'];
      [apply lookup_lt_Some in Hrow; lia|]. rewrite Hr'. apply (Hrows j); [lia|done]. }
  { simpl. rewrite Hrow. done. }
  rewrite El. simpl in *. rewrite Hso, Hse, Hoo, Nat.sub_0_r, <- app_assoc. done.
Qed.

(** C39: when [csvReader.ReadAll] refuses the input file (a bare or
    extraneous quote, or a row whose number of fields differs from the
    first row's), [main] prints the connection line and that error, and
    returns with exit status 0: no row is processed, the progress bar is
    not created, no request is sent and the output file is neither
    created nor written, as the spec's "any error is fatal, nothing is
    partially committed" says. *)
Theorem main_csv_error (w : World) pe :
  ConnectDb = None -> (exists rR, load_rows = inr rR) -> open_ok = true -> read_all = inl pe ->
  (main w).1 = Stop ExitReturn /\ exit_code (main w).1 = 0%Z /\
  stdout (main w).2 = stdout w ++ [LConnected; LError (ECsvRead pe)] /\
  sent (main w).2 = sent w /\ output (main w).2 = output w /\ created (main w).2 = created w /\
  bar (main w).2 = bar w.
Proof.
  intros HC [rR HR] Ho Hr. to_spec w. rewrite HC, HR, Ho, Hr. simpl.
  rewrite <- app_assoc. done.
Qed.

(** C32: the run reaches its end: when the database answers, the input
    file is read, every data row has its latitude and longitude and they
    parse, every request is answered and the output file can be created
    and written, [main] goes through every row and writes the output
    file (exit status 0, no error printed). *)
Theorem main_completes (w : World) rR rs :
  ConnectDb = None -> load_rows = inr rR -> open_ok = true -> read_all = inr rs ->
  (forall j row, j <> 0 -> rs !! j = Some row -> row_parses row) ->
  (forall n q, exists r, fetchOverpassData n q = inr r) ->
  create_ok = true -> file_limit = None ->
  (main w).1 = Cont tt /\ exists out, output (main w).2 = Some (Csv.WriteAll out).
Proof.
  intros HC HR Ho Hr Hrows Hf Hc Hw.
  destruct (main_spec w) as [Hm He]. apply erase_fields in He as (_ & _ & _ & _ & Hout).
  rewrite Hm, Hout, spec_main_eq, HC, HR, Ho, Hr. simpl.
  destruct (spec_loop_total rR 0 (length rs)
    (set_bar0 (set_rows rs (add_line LConnected (set_rows ([] : L) w))))) as [sw3 El]; [|done|].
  { intros j Hj Hj0. simpl. destruct (lookup_lt_is_Some_2 rs j) as [row Hrow]; [lia|].
    rewrite Hrow. by apply (Hrows j). }
  rewrite El. unfold write_output, write_file, print, bind, modify, fail. simpl. rewrite Hc, Hw. simpl.
  split; [done|]. by eexists.
Qed.

(** C29: the file a run writes, read back with [csv.Reader.ReadAll]:
    when no data row was enriched it reads back as the rows read; as soon
    as one was, it has two more fields than the header and [ReadAll]
    refuses it with [ErrFieldCount] (for rows that [csv.Writer] writes
    back faithfully, [CsvRoundTrip.writable]).  The spec's round trip "read the
    output with the same library, get the rows written" fails on every
    run that matched a row. *)
Theorem main_output_reread (w : World) rs :
  (main w).1 = Cont tt -> read_all = inr rs ->
  exists out, output (main w).2 = Some (Csv.WriteAll out) /\
    (forallb CsvRoundTrip.writable out = true ->
     (out = rs /\ Csv.ReadAll (Csv.WriteAll out) = inr rs) \/
     (out <> rs /\ exists e, Csv.ReadAll (Csv.WriteAll out) = inl e /\ Csv.Err e = Csv.ErrFieldCount)).
Proof.
  intros Hc Hr. destruct (main_cont w Hc) as (rR & rs' & sw3 & sw4 & _ & Hr' & El & Ew & _ & _ & _ & ->).
  rewrite Hr in Hr'. injection Hr' as <-.
  destruct (write_output_cont _ _ _ Ew) as (-> & _).
  destruct (spec_loop_cont _ _ _ _ _ El) as (_ & _ & Hlen & Hkeep & Henr & _). simpl in *.
  exists (rows sw3). split; [done|]. intros Hw%forallb_Forall_true.
  destruct (Csv.ReadAll_rows_length _ _ Hr) as [->|[n Hn]].
  - left. destruct (rows sw3); [done|simpl in Hlen; lia].
  - destruct (enriched_eq_or_ragged rs (rows sw3) n Hn) as [Heq|(r0 & rows' & Heq & Hr0 & Hex)];
      [done|rewrite Hkeep by lia; done| |left|right].
    + intros i row Hi Hrow.
      destruct (Henr i row) as (m & _ & Hi' & _); [split; [lia|eapply lookup_lt_Some; eauto]|done|done|].
      destruct m as [k|]; [right; eexists _, _; exact Hi'|left; done].
    + rewrite Heq in Hw |- *. split; [done|]. destruct rs as [|r0 rows]; [done|].
      apply CsvRoundTrip.WriteAll_roundtrip; [done|].
      apply Forall_cons in Hn as [Hn0 Hn]. apply (Forall_impl _ _ _ Hn). intros r. simpl. lia.
    + rewrite Heq in Hw |- *. split.
      * intros Hrs. rewrite <- Hrs in Hn. destruct Hex as (r & Hr1 & Hr2). apply Hr2.
        apply Forall_cons in Hn as [_ Hn]. rewrite Forall_forall in Hn. by apply Hn.
      * apply CsvRoundTrip.WriteAll_ragged; [done|]. by rewrite Hr0.
Qed.
End MainFacts.

(** ** A sample run

    A database holding one reference (12, "Kebon Jeruk"), an Overpass
    server that answers every request with one level-7 relation named
    "kebon jeruk", and a
    CSV file of a header and data rows of 15 fields. *)

Definition sample_db : Database := {|
  pool_new_ok := true; ping_ok := true;
  db_query := fun _ => Some (mkRows [to_scan kebon_jeruk] None)
|}.

Definition sample_response : OverpassResponse :=
  mkResponse (F64zero false) "Overpass API" (mkOsm3s "" "" "") [admin7_element 1 "kebon jeruk"].

Definition sample_net : Transport := {|
  http_do := fun _ _ => Some (mkHttpResponse 200 (Some "{}"));
  json_unmarshal := fun _ => Some sample_response
|}.

(** A database with an empty [daftar_kelurahan], and a server whose
    answers have no level-7 element. *)
Definition empty_db : Database := {|
  pool_new_ok := true; ping_ok := true; db_query := fun _ => Some (mkRows [] None)
|}.

Definition no_admin7_net : Transport := {|
  http_do := fun _ _ => Some (mkHttpResponse 200 (Some "{}"));
  json_unmarshal := fun _ => Some (mkResponse (F64zero false) "Overpass API" (mkOsm3s "" "" "")
    [mkRelation "relation" 2 zero_bounds (<["admin_level" := "6"]> (<["name" := "kebon jeruk"]> ∅))])
|}.

Definition runtime_of (db : Database) (net : Transport) (input : Csv.bytes)
  : Runtime := {|
  rt_db := db; rt_net := net; rt_case := latin1_case_ranges;
  open_ok := true; input_csv := input;
  create_ok := true; file_limit := None
|}.

(** The input file is the rows [csv] as [csv.Writer] writes them. *)
Definition sample_runtime_with (db : Database) (net : Transport) (csv : list (list string))
  : Runtime := runtime_of db net (Csv.WriteAll csv).

Definition sample_runtime (csv : list (list string)) : Runtime :=
  sample_runtime_with sample_db sample_net csv.

Definition sample_row (lat lon : string) : list string :=
  ["a"; "b"; "c"; "d"; "e"; "f"; "g"; "h"; "i"; "j"; "k"; "l"; "m"; lat; lon].

Definition sample_csv : list (list string) :=
  [sample_row "latitude" "longitude"; sample_row "-6.19" "106.77"; sample_row "-6.20" "106.78"].

(** The sample run on a disk that takes only the first 100 bytes of the
    output file. *)
Definition full_disk_runtime : Runtime := {|
  rt_db := sample_db; rt_net := sample_net; rt_case := latin1_case_ranges;
  open_ok := true; input_csv := Csv.WriteAll sample_csv;
  create_ok := true; file_limit := Some 100
|}.

Definition world0 : World := mkWorld ∅ 0 [] [] false None.

(** A data row whose latitude is empty, and a file whose rows have 14 fields. *)
Definition csv_bad_lat : list (list string) :=
  [sample_row "latitude" "longitude"; sample_row "" "106.77"].

Definition csv_short_row : list (list string) :=
  [take 14 (sample_row "latitude" "longitude"); take 14 (sample_row "-6.19" "106.77")].

(** A file whose data row is shorter than its header. *)
Definition csv_ragged : list (list string) :=
  [sample_row "latitude" "longitude"; take 14 (sample_row "-6.19" "106.77")].

(** On the sample, [main] runs to its end with exit status 0, appends
    the id and the name of the matched reference to both data rows of the
    copy it writes, leaves the header as it was, sends one query per data
    row and prints the connection line, three empty lines and "WRITING". *)
Example main_sample_run :
  let RT : Runtime := sample_runtime sample_csv in
  (main world0).1 = Cont tt /\
  output (main world0).2 =
    Some (Csv.WriteAll [sample_row "latitude" "longitude";
          sample_row "-6.19" "106.77" ++ ["12"; "Kebon Jeruk"];
          sample_row "-6.20" "106.78" ++ ["12"; "Kebon Jeruk"]]) /\
  length (sent (main world0).2) = 2 /\
  stdout (main world0).2 = [LConnected; LBlank; LBlank; LBlank; LWriting].
Proof. vm_compute. split_and!; reflexivity. Qed.

Lemma main_parse_error_witness :
  let RT : Runtime := sample_runtime csv_bad_lat in
  ConnectDb = None /\ load_rows = inr [kebon_jeruk] /\ open_ok = true /\ read_all = inr csv_bad_lat /\
  ParseFloat "" = (F64zero false, Some ErrSyntax) /\
  (main world0).1 = Stop ExitReturn /\ exit_code (main world0).1 = 0%Z /\
  output (main world0).2 = None /\
  stdout (main world0).2 = [LConnected; LError (EParseFloat "" ErrSyntax)] /\
  sent (main world0).2 = [].
Proof.
  intros RT. assert (HC : ConnectDb = None) by reflexivity.
  assert (HR : load_rows = inr [kebon_jeruk]) by reflexivity.
  assert (Ho : open_ok = true) by reflexivity.
  assert (Hr : read_all = inr csv_bad_lat) by (vm_compute; reflexivity).
  assert (Hp : ParseFloat "" = (F64zero false, Some ErrSyntax)) by reflexivity.
  split_and!; [exact HC|exact HR|exact Ho|exact Hr|exact Hp|..];
  destruct (main_parse_error world0 [kebon_jeruk] csv_bad_lat 1 (sample_row "" "106.77") "" _ _
    HC HR Ho Hr ltac:(intros; lia) ltac:(intros n q; eexists; reflexivity) ltac:(discriminate)
    eq_refl eq_refl Hp) as (? & ? & ? & ? & ?); assumption.
Defined.

(** When no element of any answer is at admin level 7, every row is
    written unchanged and the run goes on to the next row (one query per
    data row). *)
Example main_no_admin7_run :
  let RT : Runtime := sample_runtime_with sample_db no_admin7_net sample_csv in
  (main world0).1 = Cont tt /\ output (main world0).2 = Some (Csv.WriteAll sample_csv) /\
  length (sent (main world0).2) = 2.
Proof. vm_compute. split_and!; reflexivity. Qed.

Lemma main_empty_reference_witness :
  let RT : Runtime := sample_runtime_with empty_db sample_net sample_csv in
  load_rows = inr [] /\ read_all = inr sample_csv /\ (main world0).1 = Cont tt /\
  output (main world0).2 = Some (Csv.WriteAll sample_csv).
Proof.
  intros RT. split_and!; [reflexivity|vm_compute; reflexivity|vm_compute; reflexivity|].
  apply (main_empty_reference world0); [reflexivity|vm_compute; reflexivity|vm_compute; reflexivity].
Defined.

Lemma main_refines_spec_witness :
  let RT : Runtime := sample_runtime sample_csv in
  erase world0 = erase (set_rows ([] : L) world0) /\
  (main world0).1 = (spec_main (set_rows ([] : L) world0)).1 /\
  erase (main world0).2 = erase (spec_main (set_rows ([] : L) world0)).2.
Proof.
  intros RT. split; [reflexivity|]. apply (main_refines_spec world0). reflexivity.
Defined.

Lemma main_success_trace_witness :
  let RT : Runtime := sample_runtime sample_csv in
  (main world0).1 = Cont tt /\ read_all = inr sample_csv /\
  bar (main world0).2 = length sample_csv /\
  sent (main world0).2 = sent world0 ++ loop_queries sample_csv 0 (length sample_csv) /\
  stdout (main world0).2 = stdout world0 ++ [LConnected; LBlank; LBlank; LBlank; LWriting].
Proof.
  intros RT. split; [vm_compute; reflexivity|]. split; [vm_compute; reflexivity|].
  apply (main_success_trace world0 sample_csv); vm_compute; reflexivity.
Defined.

Lemma main_failure_keeps_output_witness :
  let RT : Runtime := full_disk_runtime in
  (main world0).1 = Stop ExitReturn /\ created (main world0).2 = true /\
  length (default [] (output (main world0).2)) = 100 /\
  ((output (main world0).2 = output world0 /\ created (main world0).2 = created world0) \/
   exists rs out f l, read_all = inr rs /\ length out = length rs /\ out !! 0 = rs !! 0 /\
     output (main world0).2 = Some f /\ f `prefix_of` Csv.WriteAll out /\
     length f < length (Csv.WriteAll out) /\ stdout (main world0).2 = l ++ [LError EWrite]).
Proof.
  intros RT. assert (Hs : (main world0).1 = Stop ExitReturn) by (vm_compute; reflexivity).
  split_and!; [exact Hs|vm_compute; reflexivity|vm_compute; reflexivity|].
  apply (main_failure_keeps_output world0). rewrite Hs. discriminate.
Defined.

Lemma main_nonzero_exit_short_row_witness :
  let RT : Runtime := sample_runtime csv_short_row in
  exit_code (main world0).1 <> 0%Z /\
  exists rs j row, read_all = inr rs /\ j <> 0 /\ rs !! j = Some row /\ length row <= 14 /\
    Forall (fun r => length r <= 14) rs.
Proof.
  intros RT. split; [vm_compute; discriminate|].
  apply (main_nonzero_exit_short_row world0). vm_compute. discriminate.
Defined.

Lemma main_csv_error_witness :
  let RT : Runtime := sample_runtime csv_ragged in
  read_all = inl (Csv.mkParseError 2 2 1 Csv.ErrFieldCount) /\
  (main world0).1 = Stop ExitReturn /\ exit_code (main world0).1 = 0%Z /\
  stdout (main world0).2 = [LConnected; LError (ECsvRead (Csv.mkParseError 2 2 1 Csv.ErrFieldCount))] /\
  sent (main world0).2 = [] /\ output (main world0).2 = None /\ created (main world0).2 = false /\
  bar (main world0).2 = 0.
Proof.
  intros RT. assert (HC : ConnectDb = None) by reflexivity.
  assert (Hr : read_all = inl (Csv.mkParseError 2 2 1 Csv.ErrFieldCount)) by (vm_compute; reflexivity).
  split; [exact Hr|].
  exact (main_csv_error world0 _ HC (ex_intro _ [kebon_jeruk] eq_refl) eq_refl Hr).
Defined.

Lemma main_output_reread_witness :
  let RT : Runtime := sample_runtime sample_csv in
  (main world0).1 = Cont tt /\ read_all = inr sample_csv /\
  exists out, output (main world0).2 = Some (Csv.WriteAll out) /\
    (forallb CsvRoundTrip.writable out = true ->
     (out = sample_csv /\ Csv.ReadAll (Csv.WriteAll out) = inr sample_csv) \/
     (out <> sample_csv /\
      exists e, Csv.ReadAll (Csv.WriteAll out) = inl e /\ Csv.Err e = Csv.ErrFieldCount)).
Proof.
  intros RT. split; [vm_compute; reflexivity|]. split; [vm_compute; reflexivity|].
  apply (main_output_reread world0 sample_csv); vm_compute; reflexivity.
Defined.

Lemma main_completes_witness :
  let RT : Runtime := sample_runtime sample_csv in
  ConnectDb = None /\ load_rows = inr [kebon_jeruk] /\ open_ok = true /\ read_all = inr sample_csv /\
  (main world0).1 = Cont tt /\ exists out, output (main world0).2 = Some (Csv.WriteAll out).
Proof.
  intros RT. assert (Hr : read_all = inr sample_csv) by (vm_compute; reflexivity).
  assert (Hrows : forall j row, j <> 0 -> sample_csv !! j = Some row -> row_parses row).
  { intros j row Hj Hrow. destruct j as [|[|[|j]]]; [done| | |done];
      simpl in Hrow; injection Hrow as <-;
      match goal with |- row_parses (sample_row ?a ?b) =>
        exists (fst (ParseFloat a)), (fst (ParseFloat b)); split; vm_compute; reflexivity end. }
  assert (Hf : forall n q, exists r, fetchOverpassData n q = inr r) by (intros n q; eexists; reflexivity).
  assert (HC : ConnectDb = None) by reflexivity.
  assert (HR : load_rows = inr [kebon_jeruk]) by reflexivity.
  destruct (main_completes world0 [kebon_jeruk] sample_csv HC HR eq_refl Hr Hrows Hf
              eq_refl eq_refl) as [H1 H2].
  split_and!; [exact HC|exact HR|reflexivity|exact Hr|exact H1|exact H2].
Defined.

Lemma main_rows_match_answers_witness :
  let RT : Runtime := sample_runtime sample_csv in
  (main world0).1 = Cont tt /\ load_rows = inr [kebon_jeruk] /\ read_all = inr sample_csv /\
  exists out, output (main world0).2 = Some (Csv.WriteAll out) /\ length out = length sample_csv /\
    out !! 0 = sample_csv !! 0 /\
    forall i row, i <> 0 -> sample_csv !! i = Some row ->
      exists q resp, row_query row = Some q /\
        fetchOverpassData (length (sent world0) + (i - 1)) q = inr resp /\
        out !! i = Some (enrich_row (find_match [kebon_jeruk] (Elements resp)) row).
Proof.
  intros RT. assert (Hc : (main world0).1 = Cont tt) by (vm_compute; reflexivity).
  assert (HR : load_rows = inr [kebon_jeruk]) by reflexivity.
  assert (Hr : read_all = inr sample_csv) by (vm_compute; reflexivity).
  split_and!; [exact Hc|exact HR|exact Hr|]. exact (main_rows_match_answers world0 _ _ Hc HR Hr).
Defined.

Lemma coordinate_6_19 : coordinate ["6"]%char ["1"; "9"]%char.
Proof. split_and!; [repeat constructor|discriminate|simpl; lia|simpl; lia]. Qed.

Lemma coordinate_106_77 : coordinate ["1"; "0"; "6"]%char ["7"; "7"]%char.
Proof. split_and!; [repeat constructor|discriminate|simpl; lia|simpl; lia]. Qed.

Lemma main_queries_carry_coordinates_witness :
  let RT : Runtime := sample_runtime sample_csv in
  (main world0).1 = Cont tt /\ read_all = inr sample_csv /\
  sent (main world0).2 !! 0 = Some (fill_query "-6.190000" "106.770000").
Proof.
  intros RT. assert (Hc : (main world0).1 = Cont tt) by (vm_compute; reflexivity).
  assert (Hr : read_all = inr sample_csv) by (vm_compute; reflexivity).
  split_and!; [exact Hc|exact Hr|].
  exact (main_queries_carry_coordinates world0 sample_csv 1 (sample_row "-6.19" "106.77")
           true ["6"]%char ["1"; "9"]%char false ["1"; "0"; "6"]%char ["7"; "7"]%char
           Hc Hr ltac:(discriminate) eq_refl eq_refl eq_refl coordinate_6_19 coordinate_106_77).
Defined.

End Driver.
